(** * Plutonium T6 log reader: line grammar, tailer loop and player directory

    A shallow embedding of the Go package [events] and the properties its
    specification states about it.

    Go strings are byte sequences, so a string is a [list ascii]; the
    functions of Go's [strings] and [strconv] packages that the code calls
    are written out below on bytes.  Integers are [Z] with the 64-bit
    wrap-around of Go's [int] and [time.Duration] made explicit. *)

From Stdlib Require Import Ascii String ZArith NArith Lia List.
From stdpp Require Import base option list gmap strings.

Local Open Scope Z_scope.

(** ** Go strings *)

Abbreviation str := (list ascii).

(** A Go string literal. *)
Definition go (s : string) : str := list_ascii_of_string s.

Definition code (c : ascii) : N := N_of_ascii c.

Definition in_range (lo hi : N) (c : ascii) : bool :=
  ((lo <=? code c) && (code c <=? hi))%N.

Definition is_byte (n : N) (c : ascii) : bool := (code c =? n)%N.

Definition semicolon : ascii := ";"%char.
Definition colon : ascii := ":"%char.
Definition backslash : ascii := "092"%char.
Definition newline : ascii := "010"%char.
Definition caret : ascii := "^"%char.

(** *** White space

    [strings.TrimSpace] and [strings.Fields] decode the string rune by rune
    and test [unicode.IsSpace].  The white-space runes and their UTF-8
    encodings are
      U+0009..U+000D, U+0020          one byte;
      U+0085, U+00A0                  C2 85, C2 A0;
      U+1680                          E1 9A 80;
      U+2000..U+200A, U+2028, U+2029, U+202F   E2 80 (80..8A, A8, A9, AF);
      U+205F                          E2 81 9F;
      U+3000                          E3 80 80.
    Every other rune, and every byte that is not valid UTF-8, is not white
    space.  A white-space encoding starts with a byte that is no
    continuation byte and goes on with continuation bytes only, so decoding
    forwards or backwards finds the same white-space runes, and a byte that
    does not start one can be taken as a unit of its own. *)

Definition asciiSpace (c : ascii) : bool :=
  in_range 9 13 c || is_byte 32 c.

Definition space2 (c1 c2 : ascii) : bool :=
  is_byte 0xC2 c1 && (is_byte 0x85 c2 || is_byte 0xA0 c2).

Definition space3 (c1 c2 c3 : ascii) : bool :=
  (is_byte 0xE1 c1 && is_byte 0x9A c2 && is_byte 0x80 c3)
  || (is_byte 0xE2 c1 && is_byte 0x80 c2 &&
      (in_range 0x80 0x8A c3 || is_byte 0xA8 c3 || is_byte 0xA9 c3
       || is_byte 0xAF c3))
  || (is_byte 0xE2 c1 && is_byte 0x81 c2 && is_byte 0x9F c3)
  || (is_byte 0xE3 c1 && is_byte 0x80 c2 && is_byte 0x80 c3).

(** UTF-8 continuation bytes. *)
Definition isCont (c : ascii) : bool := in_range 0x80 0xBF c.

(** The white-space rune at the head of [s], with the rest of [s]. *)
Definition spaceRune (s : str) : option (str * str) :=
  match s with
  | c1 :: r1 =>
      if asciiSpace c1 then Some ([c1], r1) else
      match r1 with
      | c2 :: r2 =>
          if space2 c1 c2 then Some ([c1; c2], r2) else
          match r2 with
          | c3 :: r3 =>
              if space3 c1 c2 c3 then Some ([c1; c2; c3], r3) else None
          | [] => None
          end
      | [] => None
      end
  | [] => None
  end.

(** A decoded unit: a white-space rune with its bytes, or any other byte. *)
Inductive seg : Type :=
| Sp (w : str)
| By (c : ascii).

Definition isSp (x : seg) : bool :=
  match x with Sp _ => true | By _ => false end.

Definition seg_bytes (x : seg) : str :=
  match x with Sp w => w | By c => [c] end.

Definition flatten (l : list seg) : str := concat (map seg_bytes l).

Fixpoint segments (s : str) : list seg :=
  match s with
  | [] => []
  | c1 :: r1 =>
      if asciiSpace c1 then Sp [c1] :: segments r1 else
      match r1 with
      | c2 :: r2 =>
          if space2 c1 c2 then Sp [c1; c2] :: segments r2 else
          match r2 with
          | c3 :: r3 =>
              if space3 c1 c2 c3 then Sp [c1; c2; c3] :: segments r3
              else By c1 :: segments r1
          | [] => By c1 :: segments r1
          end
      | [] => By c1 :: segments r1
      end
  end.

Fixpoint dropSp (l : list seg) : list seg :=
  match l with
  | Sp _ :: r => dropSp r
  | _ => l
  end.

(** [strings.TrimLeftFunc(s, unicode.IsSpace)]. *)
Definition TrimLeftSpace (s : str) : str := flatten (dropSp (segments s)).

(** [strings.TrimRightFunc(s, unicode.IsSpace)]. *)
Definition TrimRightSpace (s : str) : str :=
  flatten (reverse (dropSp (reverse (segments s)))).

(** [strings.TrimRightFunc] itself walks backwards, one
    [utf8.DecodeLastRuneInString] at a time.  [trimBack] is that walk on
    the reversed string: the last rune is white space when the string
    ends in one of the encodings above.  [TrimRightSpace_backwards] below
    shows that both ways drop the same bytes. *)
Fixpoint trimBack (r : str) : str :=
  match r with
  | [] => []
  | c3 :: r1 =>
      if asciiSpace c3 then trimBack r1 else
      match r1 with
      | c2 :: r2 =>
          if space2 c2 c3 then trimBack r2 else
          match r2 with
          | c1 :: r3 => if space3 c1 c2 c3 then trimBack r3 else r
          | [] => r
          end
      | [] => r
      end
  end.

(** [strings.TrimSpace]. *)
Definition TrimSpace (s : str) : str := TrimRightSpace (TrimLeftSpace s).

(** [strings.FieldsFunc(s, unicode.IsSpace)]: [cur] is the field being
    read, [None] between fields (Go's [start < 0]). *)
Fixpoint fields_go (l : list seg) (cur : option str) : list str :=
  match l with
  | [] => match cur with Some f => [f] | None => [] end
  | Sp _ :: r =>
      match cur with
      | Some f => f :: fields_go r None
      | None => fields_go r None
      end
  | By c :: r => fields_go r (Some (default [] cur ++ [c]))
  end.

(** [strings.Fields]. *)
Definition Fields (s : str) : list str := fields_go (segments s) None.

(** Where a string may be cut without changing how either side decodes:
    at its end, or before a byte that is no continuation byte. *)
Definition boundary (t : str) : Prop :=
  match t with
  | [] => True
  | b :: _ => isCont b = false
  end.


(** A byte that is neither white space nor part of a multi-byte rune. *)
Definition plain (c : ascii) : bool :=
  negb (asciiSpace c) && (code c <? 128)%N.


Definition lastNotSp (l : list seg) : Prop :=
  match last l with Some (Sp _) => False | _ => True end.

(** *** Prefixes, substrings, splitting, joining *)

Fixpoint HasPrefix (s p : str) : bool :=
  match p, s with
  | [], _ => true
  | _ :: _, [] => false
  | b :: p', c :: s' => bool_decide (c = b) && HasPrefix s' p'
  end.

Definition TrimPrefix (s p : str) : str :=
  if HasPrefix s p then drop (length p) s else s.

Fixpoint Contains (s sub : str) : bool :=
  HasPrefix s sub ||
  match s with
  | [] => false
  | _ :: r => Contains r sub
  end.

(** [strings.Cut] for a one-byte separator. *)
Fixpoint cut (sep : ascii) (s : str) : option (str * str) :=
  match s with
  | [] => None
  | c :: r =>
      if bool_decide (c = sep) then Some ([], r) else
      match cut sep r with
      | Some (a, b) => Some (c :: a, b)
      | None => None
      end
  end.

Definition count (sep : ascii) (s : str) : nat :=
  length (filter (λ c, c = sep) s).

(** [strings.SplitN(s, sep, n)] for a one-byte separator and [n >= 0]. *)
Fixpoint SplitN (sep : ascii) (n : nat) (s : str) : list str :=
  match n with
  | O => []
  | S O => [s]
  | S n' =>
      match cut sep s with
      | Some (a, b) => a :: SplitN sep n' b
      | None => [s]
      end
  end.

(** [strings.Split(s, sep)]: Go's [genSplit] with [n = Count(s, sep) + 1]. *)
Definition Split (sep : ascii) (s : str) : list str :=
  SplitN sep (S (count sep s)) s.

(** [strings.Join]. *)
Fixpoint Join (elems : list str) (sep : str) : str :=
  match elems with
  | [] => []
  | [a] => a
  | a :: rest => a ++ sep ++ Join rest sep
  end.

(** [strings.TrimRight(s, cutset)] for a cutset of one-byte characters. *)
Fixpoint dropCut (cutset : str) (s : str) : str :=
  match s with
  | c :: r => if bool_decide (c ∈ cutset) then dropCut cutset r else s
  | [] => []
  end.

Definition TrimRight (s cutset : str) : str :=
  reverse (dropCut cutset (reverse s)).

(** *** Results

    A Go call returns a value or an error, or panics (an index out of
    range).  The panic is kept as an outcome of its own so that its absence
    is a statement about the code and not an artefact of the types. *)

Inductive NumError : Type :=
| AtoiError (num : str).

Inductive error : Type :=
| ErrEmptyLine
| ErrNotJoin
| ErrInvalidClientNum (field : str) (cause : NumError)
| ErrKillFields (got : nat)
| ErrNotKill
| ErrInvalidKillerNum (field : str) (cause : NumError)
| ErrInvalidVictimNum (field : str) (cause : NumError)
| ErrInvalidPlayerLine (line : str)
| ErrInvalidFlag (field : str) (cause : NumError)
| ErrInvalidChatLine (line : str)
| ErrInvalidTimestamp (s : str)
| ErrNum (cause : NumError).

Inductive Res (A : Type) : Type :=
| Ok (a : A)
| Err (e : error)
| Panic.

Arguments Ok {A} a.
Arguments Err {A} e.
Arguments Panic {A}.

Definition bind {A B : Type} (r : Res A) (k : A → Res B) : Res B :=
  match r with
  | Ok a => k a
  | Err e => Err e
  | Panic => Panic
  end.

Notation "x <-! r ; k" := (bind r (λ x, k))
  (at level 100, r at next level, right associativity).

(** [l[i]]: panics out of range. *)
Definition idx {A : Type} (l : list A) (i : nat) : Res A :=
  match l !! i with
  | Some x => Ok x
  | None => Panic
  end.

(** [l[i:]]: panics when [i > len(l)]. *)
Definition slice_from {A : Type} (l : list A) (i : nat) : Res (list A) :=
  if (i <=? length l)%nat then Ok (drop i l) else Panic.

(** *** Numbers *)

Definition int64_min : Z := - 2 ^ 63.
Definition int64_max : Z := 2 ^ 63 - 1.

(** Two's-complement wrap-around of Go's 64-bit [int] and [int64]. *)
Definition wrap64 (z : Z) : Z := (z + 2 ^ 63) mod 2 ^ 64 - 2 ^ 63.

Definition isDigit (c : ascii) : bool := in_range 48 57 c.

(** The bytes of a string that [strconv.Atoi] accepts. *)
Definition signOrDigit (c : ascii) : bool :=
  isDigit c || bool_decide (c = "-"%char) || bool_decide (c = "+"%char).

Definition digit_val (c : ascii) : Z := Z.of_N (code c) - 48.

Definition digits_val (ds : str) : Z :=
  fold_left (λ acc c, acc * 10 + digit_val c) ds 0.

(** [strconv.Atoi]: an optional sign, then one or more decimal digits; the
    value has to fit Go's 64-bit [int]. *)
Definition Atoi (s : str) : Z + NumError :=
  let '(neg, ds) :=
    match s with
    | c :: r =>
        if bool_decide (c = "-"%char) then (true, r)
        else if bool_decide (c = "+"%char) then (false, r)
        else (false, s)
    | [] => (false, [])
    end in
  match ds with
  | [] => inr (AtoiError s)
  | _ =>
      if forallb isDigit ds then
        let v := if neg then - digits_val ds else digits_val ds in
        if (int64_min <=? v) && (v <=? int64_max) then inl v
        else inr (AtoiError s)
      else inr (AtoiError s)
  end.

(** ** Events (events.go) *)

(** [time.Duration]: nanoseconds in an [int64]. *)
Definition Duration : Type := Z.
Definition Second : Duration := 1000000000.

Record BaseEvent : Type := mkBase {
  Timestamp : option Duration;
  Command : str;
  Raw : str
}.

Record PlayerEvent : Type := mkPlayer {
  pBase : BaseEvent;
  XUID : str;
  Flag : Z;
  Player : str;
  Message : str
}.

Record ServerEvent : Type := mkServer {
  sBase : BaseEvent;
  Data : gmap str str
}.

(** The fields carry the names parseKillEvent assigns to (Killer...). *)
Record KillEvent : Type := mkKill {
  kBase : BaseEvent;
  KillerXUID : str;
  KillerClientNum : Z;
  KillerTeam : str;
  KillerName : str;
  VictimXUID : str;
  VictimClientNum : Z;
  VictimTeam : str;
  VictimName : str;
  Weapon : str;
  Damage : str;
  MeansOfDeath : str;
  HitLocation : str
}.

(** The [Event] interface; its implementations are the four pointer types. *)
Inductive Event : Type :=
| EBase (b : BaseEvent)
| EPlayer (p : PlayerEvent)
| EServer (s : ServerEvent)
| EKill (k : KillEvent).

Definition base (e : Event) : BaseEvent :=
  match e with
  | EBase b => b
  | EPlayer p => pBase p
  | EServer s => sBase s
  | EKill k => kBase k
  end.

Definition GetCommand (e : Event) : str := Command (base e).
Definition GetTimestamp (e : Event) : option Duration := Timestamp (base e).
Definition GetRaw (e : Event) : str := Raw (base e).

(** ** The line grammar (parser) *)

(** The regular expression of parseJoinEvent, anchored at both ends, has
    four groups separated by semicolons:
      1. the letter J;
      2. an optional minus and 1 to 32 characters of [A-Fa-f0-9_], or
         bot and one or more digits, or 0;
      3. one or more digits;
      4. any characters, as many as there are.
    Neither the second nor the third group can hold a semicolon, so they
    are the text up to the next semicolon; the any-character class matches
    everything but a line feed.  [joinRegexp] is FindStringSubmatch: the
    whole match and the four groups. *)
Definition isHexLike (c : ascii) : bool :=
  in_range 65 70 c || in_range 97 102 c || isDigit c || is_byte 95 c.

Definition hexToken (s : str) : bool :=
  let body := match s with
              | c :: r => if bool_decide (c = "-"%char) then r else s
              | [] => s
              end in
  forallb isHexLike body && (1 <=? length body)%nat && (length body <=? 32)%nat.

Definition botToken (s : str) : bool :=
  HasPrefix s (go "bot") &&
  let ds := drop 3 s in forallb isDigit ds && (1 <=? length ds)%nat.

Definition xuidToken (s : str) : bool :=
  hexToken s || botToken s || bool_decide (s = go "0").

Definition joinRegexp (line : str) : option (list str) :=
  match line with
  | c0 :: c1 :: rest =>
      if bool_decide (c0 = "J"%char) && bool_decide (c1 = semicolon) then
        match cut semicolon rest with
        | Some (xuid, rest1) =>
            match cut semicolon rest1 with
            | Some (num, name) =>
                if xuidToken xuid && forallb isDigit num
                   && (1 <=? length num)%nat
                   && negb (bool_decide (newline ∈ name))
                then Some [line; [c0]; xuid; num; name]
                else None
            | None => None
            end
        | None => None
        end
      else None
  | _ => None
  end.

Definition parseJoinEvent (line : str) (ts : option Duration) (raw : str)
  : Res PlayerEvent :=
  match joinRegexp line with
  | None => Err ErrNotJoin
  | Some m =>
      cmd <-! idx m 1;
      originNet <-! idx m 2;
      clientNumStr <-! idx m 3;
      originName <-! idx m 4;
      match Atoi clientNumStr with
      | inl clientNum =>
          Ok (mkPlayer (mkBase ts cmd raw) originNet clientNum originName [])
      | inr e => Err (ErrInvalidClientNum clientNumStr e)
      end
  end.

Definition parseKillEvent (line : str) (ts : option Duration) (raw : str)
  : Res KillEvent :=
  let parts := Split semicolon line in
  if negb (length parts =? 13)%nat then Err (ErrKillFields (length parts)) else
  p0 <-! idx parts 0;
  if negb (bool_decide (p0 = go "K")) then Err ErrNotKill else
  p2 <-! idx parts 2;
  match Atoi p2 with
  | inl killerClientNum =>
      p6 <-! idx parts 6;
      match Atoi p6 with
      | inl victimClientNum =>
          p1 <-! idx parts 1;
          p3 <-! idx parts 3;
          p4 <-! idx parts 4;
          p5 <-! idx parts 5;
          p7 <-! idx parts 7;
          p8 <-! idx parts 8;
          p9 <-! idx parts 9;
          p10 <-! idx parts 10;
          p11 <-! idx parts 11;
          p12 <-! idx parts 12;
          Ok (mkKill (mkBase ts (go "K") raw)
                p1 killerClientNum p3 p4 p5 victimClientNum p7 p8
                p9 p10 p11 p12)
      | inr e => Err (ErrInvalidVictimNum p6 e)
      end
  | inr e => Err (ErrInvalidKillerNum p2 e)
  end.

Definition parsePlayerEvent (line : str) (ts : option Duration) (raw : str)
  : Res PlayerEvent :=
  let parts := SplitN semicolon 5 line in
  if (length parts <? 4)%nat then Err (ErrInvalidPlayerLine line) else
  p0 <-! idx parts 0;
  p1 <-! idx parts 1;
  let cmd := TrimSpace p0 in
  let xuid := TrimSpace p1 in
  p2 <-! idx parts 2;
  match Atoi (TrimSpace p2) with
  | inl flag =>
      p3 <-! idx parts 3;
      let player := TrimSpace p3 in
      message <-! (if (length parts =? 5)%nat
                   then (p4 <-! idx parts 4; Ok (TrimSpace p4))
                   else Ok []);
      Ok (mkPlayer (mkBase ts cmd raw) xuid flag player message)
  | inr e => Err (ErrInvalidFlag p2 e)
  end.

Definition parseChatPlayerEvent (line : str) (ts : option Duration) (raw : str)
  : Res PlayerEvent :=
  let fields := Fields line in
  if (length fields <? 3)%nat then Err (ErrInvalidChatLine line) else
  cmd <-! idx fields 0;
  player <-! idx fields 1;
  rest <-! slice_from fields 2;
  let msg := Join rest (go " ") in
  Ok (mkPlayer (mkBase ts cmd raw) [] 0 player msg).

(** The loop [for i := 1; i < len(parts)-1; i += 2] of parseKeyValuePairs,
    on the parts from index [i] on: a key and a value are read while two
    parts are left, and a later pair overwrites an earlier one. *)
Fixpoint kvLoop (parts : list str) (data : gmap str str) : gmap str str :=
  match parts with
  | key :: val :: rest => kvLoop rest (<[key := val]> data)
  | _ => data
  end.

Definition parseKeyValuePairs (s : str) : gmap str str :=
  let data : gmap str str := ∅ in
  let s := TrimSpace s in
  if bool_decide (s = []) then data else
  let parts := Split backslash s in
  kvLoop (drop 1 parts) data.

(** Modelled from the spec: the re-serialization of a key/value mapping
    as backslash-delimited pairs, a backslash before every key and every
    value, in the order of the list given.  The package has no
    serializer; this is the one the round-trip property speaks of. *)
Fixpoint serialize (l : list (str * str)) : str :=
  match l with
  | [] => []
  | (k, v) :: rest => backslash :: (k ++ backslash :: (v ++ serialize rest))
  end.

(** The parts that [serialize l] splits into, after the empty first one. *)
Fixpoint flatKV (l : list (str * str)) : list str :=
  match l with
  | [] => []
  | (k, v) :: rest => k :: v :: flatKV rest
  end.

Fixpoint atoiAll (parts : list str) : Res (list Z) :=
  match parts with
  | [] => Ok []
  | p :: rest =>
      match Atoi p with
      | inl n => ns <-! atoiAll rest; Ok (n :: ns)
      | inr e => Err (ErrNum e)
      end
  end.

Definition parseTimestamp (s : str) : Res Duration :=
  let parts := Split colon s in
  if (length parts <? 2)%nat || (3 <? length parts)%nat
  then Err (ErrInvalidTimestamp s) else
  nums <-! atoiAll parts;
  totalSec <-!
    match length nums with
    | 2%nat =>
        n0 <-! idx nums 0; n1 <-! idx nums 1;
        Ok (wrap64 (n0 * 60 + n1))
    | 3%nat =>
        n0 <-! idx nums 0; n1 <-! idx nums 1; n2 <-! idx nums 2;
        Ok (wrap64 (n0 * 3600 + n1 * 60 + n2))
    | _ => Ok 0
    end;
  Ok (wrap64 (totalSec * Second)).

(** The first block of ParseEventLine: the optional leading timestamp and
    the line that is left for the grammars. *)
Definition splitTimestamp (line : str) : Res (option Duration * str) :=
  let fields := Fields line in
  if (1 <? length fields)%nat then
    first <-! idx fields 0;
    if Contains first [colon] then
      match parseTimestamp first with
      | Ok dur =>
          rest <-! slice_from fields 1;
          Ok (Some dur, Join rest (go " "))
      | Err _ => Ok (None, line)
      | Panic => Panic
      end
    else Ok (None, line)
  else Ok (None, line).

Definition ParseEventLine (line : str) : Res Event :=
  let line := TrimSpace line in
  if bool_decide (line = []) then Err ErrEmptyLine else
  let raw := line in
  split <-! splitTimestamp line;
  let '(ts, line) := split in
  if HasPrefix line (go "InitGame:") then
    let data := parseKeyValuePairs (TrimPrefix line (go "InitGame:")) in
    Ok (EServer (mkServer (mkBase ts (go "InitGame") raw) data))
  else if HasPrefix line (go "ShutdownGame:") then
    Ok (EServer (mkServer (mkBase ts (go "ShutdownGame") raw) ∅))
  else if Contains line [semicolon] then
    match parseJoinEvent line ts raw with
    | Ok ev => Ok (EPlayer ev)
    | Panic => Panic
    | Err _ =>
        match parseKillEvent line ts raw with
        | Ok ev => Ok (EKill ev)
        | Panic => Panic
        | Err _ =>
            ev <-! parsePlayerEvent line ts raw; Ok (EPlayer ev)
        end
    end
  else if HasPrefix line (go "say ") || HasPrefix line (go "sayteam ") then
    ev <-! parseChatPlayerEvent line ts raw; Ok (EPlayer ev)
  else
    Ok (EBase (mkBase ts line raw)).


(** ** Programs that talk to their environment

    The tailer and the player directory read the clock, the file system,
    a channel and an injected status source.  Such code is a tree: it
    returns, or it performs an event and goes on with the answer.  The
    answer type depends on the event. *)

Inductive Prog (Ev : Type) (Ans : Ev → Type) (R : Type) : Type :=
| Ret (r : R)
| Vis (e : Ev) (k : Ans e → Prog Ev Ans R).

Arguments Ret {Ev Ans R} r.
Arguments Vis {Ev Ans R} e k.

Fixpoint pbind {Ev Ans R S} (p : Prog Ev Ans R) (f : R → Prog Ev Ans S)
  : Prog Ev Ans S :=
  match p with
  | Ret r => f r
  | Vis e k => Vis e (λ a, pbind (k a) f)
  end.

(** An environment with state [W] answers every event. *)
Definition Handler (Ev : Type) (Ans : Ev → Type) (W : Type) : Type :=
  ∀ e : Ev, W → Ans e * W.

(** Running a program against an environment: the result, the final state
    of the environment and the events performed, in order. *)
Fixpoint run {Ev Ans R W} (h : Handler Ev Ans W) (p : Prog Ev Ans R) (w : W)
  : R * W * list Ev :=
  match p with
  | Ret r => (r, w, [])
  | Vis e k =>
      let '(a, w1) := h e w in
      let '(r, w2, tr) := run h (k a) w1 in
      (r, w2, e :: tr)
  end.

(** ** The tailer (tailer.go) *)

Definition File : Type := nat.

(** What [os.SameFile] and [Size] read from an [os.FileInfo]. *)
Record FileInfo : Type := mkInfo {
  fileId : nat;
  Size : Z
}.

Inductive ioError : Type :=
| EOF
| IOFailure (code : nat).

(** What TailFileContext returns: [ctx.Err()] or an I/O error. *)
Inductive tailError : Type :=
| CtxErr
| TailIO (e : ioError).

(** [bufio.NewReader(f)]. *)
Inductive Reader : Type :=
| NewReader (f : File).

Inductive Whence : Type := SeekStart | SeekCurrent | SeekEnd.

Inductive tailEv : Type :=
| EvOpen                         (* os.Open(path) *)
| EvSeek (f : File) (w : Whence) (* f.Seek(0, w) *)
| EvCtxDone                      (* select: ctx.Done() or default *)
| EvReadString (b : Reader)      (* b.ReadString, up to a line feed *)
| EvStat                         (* os.Stat(path) *)
| EvFStat (f : File)             (* f.Stat() *)
| EvClose (f : File)             (* f.Close() *)
| EvSleep (d : Duration)         (* time.Sleep(d) *)
| EvSelectAfter (d : Duration)   (* select: ctx.Done() or time.After(d) *)
| EvLog (e : error)              (* log.Printf *)
| EvSelectSend (ev : Event).     (* select: ctx.Done() or eventsCh <- ev *)

(** For the three selects the answer says whether the context was done. *)
Definition tailAns (e : tailEv) : Type :=
  match e with
  | EvOpen => (File + ioError)%type
  | EvSeek _ _ => (Z + ioError)%type
  | EvCtxDone => bool
  | EvReadString _ => (str * option ioError)%type
  | EvStat => (FileInfo + ioError)%type
  | EvFStat _ => option FileInfo
  | EvClose _ => unit
  | EvSleep _ => unit
  | EvSelectAfter _ => bool
  | EvLog _ => unit
  | EvSelectSend _ => bool
  end.

Abbreviation TailProg := (Prog tailEv tailAns).

Definition Millisecond : Duration := 1000000.
Definition pollInterval : Duration := 150 * Millisecond.
Definition reopenRetry : Duration := 200 * Millisecond.

(** [os.SameFile]; a nil FileInfo is the same file as nothing. *)
Definition SameFile (a : FileInfo) (b : option FileInfo) : bool :=
  match b with
  | Some b => (fileId a =? fileId b)%nat
  | None => false
  end.

(** The variables [f] and [buf] of TailFileContext. *)
Record TailState : Type := mkTail {
  tFile : File;
  tBuf : Reader
}.

(** Where the loops stand: at the top of the main loop, or at the top of
    the reopen loop after a rotation was seen. *)
Inductive Ctl : Type :=
| Reading (st : TailState)
| Reopening (st : TailState).

Inductive Next : Type :=
| Continue (c : Ctl)
| Return (e : tailError)
| Crash.

Definition currentOffset (f : File) (k : Z → TailProg Next) : TailProg Next :=
  Vis (EvSeek f SeekCurrent) (λ r : Z + ioError,
    match r with
    | inl off => k off
    | inr _ => k 0
    end).

(** The end of an iteration that found no new data and no rotation. *)
Definition pollWait (c : Ctl) : TailProg Next :=
  Vis (EvSelectAfter pollInterval) (λ done : bool,
    if done then Ret (Return CtxErr) else Ret (Continue c)).

Definition rotate (st : TailState) : TailProg Next :=
  Vis (EvClose (tFile st)) (λ _, Ret (Continue (Reopening st))).

(** One iteration of the main loop, or one of the reopen loop. *)
Definition tailStep (c : Ctl) : TailProg Next :=
  match c with
  | Reading st =>
      Vis EvCtxDone (λ done : bool,
        if done then Ret (Return CtxErr) else
        Vis (EvReadString (tBuf st)) (λ r : str * option ioError,
          let '(line, err) := r in
          match err with
          | Some EOF =>
              Vis EvStat (λ r : FileInfo + ioError,
                match r with
                | inl stat =>
                    Vis (EvFStat (tFile st)) (λ curStat : option FileInfo,
                      if negb (SameFile stat curStat) then rotate st else
                      currentOffset (tFile st) (λ off,
                        if Size stat <? off then rotate st
                        else pollWait c))
                | inr _ => pollWait c
                end)
          | Some e => Ret (Return (TailIO e))
          | None =>
              let line := TrimRight line [ascii_of_N 13; newline] in
              if bool_decide (line = []) then Ret (Continue c) else
              match ParseEventLine line with
              | Err e => Vis (EvLog e) (λ _, Ret (Continue c))
              | Ok ev =>
                  Vis (EvSelectSend ev) (λ done : bool,
                    if done then Ret (Return CtxErr) else Ret (Continue c))
              | Panic => Ret Crash
              end
          end))
  | Reopening st =>
      Vis EvCtxDone (λ done : bool,
        if done then Ret (Return CtxErr) else
        Vis EvOpen (λ r : File + ioError,
          match r with
          | inl nf => Ret (Continue (Reading (mkTail nf (NewReader nf))))
          | inr _ =>
              Vis (EvSleep reopenRetry) (λ _,
                Ret (Continue (Reopening st)))
          end))
  end.

(** The loops, for at most [fuel] iterations; [None] when the tailer is
    still running after them. *)
Fixpoint tailLoop (fuel : nat) (c : Ctl) : TailProg (option Next) :=
  match fuel with
  | O => Ret None
  | S fuel' =>
      pbind (tailStep c) (λ n,
        match n with
        | Continue c' => tailLoop fuel' c'
        | _ => Ret (Some n)
        end)
  end.

(** TailFileContext; the deferred [f.Close()] closes the file opened
    first. *)
Definition TailFileContext (fuel : nat) (startAtEnd : bool)
  : TailProg (option Next) :=
  Vis EvOpen (λ r : File + ioError,
    match r with
    | inr e => Ret (Some (Return (TailIO e)))
    | inl f =>
        Vis (EvSeek f (if startAtEnd then SeekEnd else SeekStart))
          (λ r : Z + ioError,
            match r with
            | inr e =>
                Vis (EvClose f) (λ _, Ret (Some (Return (TailIO e))))
            | inl _ =>
                pbind (tailLoop fuel (Reading (mkTail f (NewReader f))))
                  (λ n,
                    match n with
                    | Some _ => Vis (EvClose f) (λ _, Ret n)
                    | None => Ret None
                    end)
            end)
    end).

(** Scripted environments for the tailer: one whose reader yields a
    malformed line, one that is at end of file while the stat of the path
    fails. *)
Definition quietHandler : Handler tailEv tailAns unit :=
  λ e w,
    match e return tailAns e * unit with
    | EvOpen => (inr (IOFailure 2), w)
    | EvSeek _ _ => (inl 0, w)
    | EvCtxDone => (false, w)
    | EvReadString _ => ((go "a;b" ++ [newline], None), w)
    | EvStat => (inr (IOFailure 2), w)
    | EvFStat _ => (None, w)
    | EvClose _ => (tt, w)
    | EvSleep _ => (tt, w)
    | EvSelectAfter _ => (false, w)
    | EvLog _ => (tt, w)
    | EvSelectSend _ => (false, w)
    end.

Definition eofHandler : Handler tailEv tailAns unit :=
  λ e w,
    match e return tailAns e * unit with
    | EvOpen => (inr (IOFailure 2), w)
    | EvSeek _ _ => (inl 0, w)
    | EvCtxDone => (false, w)
    | EvReadString _ => (([], Some EOF), w)
    | EvStat => (inr (IOFailure 2), w)
    | EvFStat _ => (None, w)
    | EvClose _ => (tt, w)
    | EvSleep _ => (tt, w)
    | EvSelectAfter _ => (false, w)
    | EvLog _ => (tt, w)
    | EvSelectSend _ => (false, w)
    end.

(** ** The player directory (players file of tailer.go) *)

(** The struct Player; the name [Player] is taken by the field of
    PlayerEvent. *)
Record Player_ : Type := mkPlayerRec {
  ClientNum : Z;
  Name : str;
  GUID : str
}.

Definition zeroPlayer : Player_ := mkPlayerRec 0 [] [].

(** [time.Time] as nanoseconds on one clock; [Add] is [+], [Before] is [<].
    The zero Time is before every reading of the clock. *)
Definition Time : Type := Z.
Definition defaultPlayerCacheExpiry : Duration := 2 * Second.

(** Slices of players.  Every slice of this code is made by [make] and
    never resliced, so a slice is nil or the address of its array, and the
    heap maps an address to the array's contents. *)
Definition loc : Type := positive.
Abbreviation Heap := (gmap loc (list Player_)).
Definition Slice : Type := option loc.

Definition contents (h : Heap) (s : Slice) : list Player_ :=
  match s with
  | Some l => default [] (h !! l)
  | None => []
  end.

Definition len (h : Heap) (s : Slice) : nat := length (contents h s).

(** [make([]Player, n)]: a fresh array of zero values. *)
Definition make (n : nat) (h : Heap) : loc * Heap :=
  let l := fresh (dom h) in (l, <[l := replicate n zeroPlayer]> h).

(** [copy(dst, src)]: the first [min(len(dst), len(src))] elements. *)
Definition copy (dst : loc) (src : list Player_) (h : Heap) : Heap :=
  let old := default [] (h !! dst) in
  <[dst := take (length old) src ++ drop (length src) old]> h.

Inductive srcError : Type :=
| StatusFailed (msg : str).

Record PlayerDirectory : Type := mkDir {
  ttl : Duration;
  players : Slice;
  expires : Time
}.

Definition zeroTime : Time := 0.

Definition NewPlayerDirectory (t : Duration) : PlayerDirectory :=
  mkDir (if t <=? 0 then defaultPlayerCacheExpiry else t) None zeroTime.

(** The directory's events: [time.Now()] and [d.source.Status()].  The
    status source hands back a sequence that the directory only reads, so
    the answer carries its contents.  The mutex is left out: one call runs
    at a time here. *)
Inductive dirEv : Type :=
| EvNow
| EvStatus.

Definition dirAns (e : dirEv) : Type :=
  match e with
  | EvNow => Time
  | EvStatus => (list Player_ + srcError)%type
  end.

Abbreviation DirProg := (Prog dirEv dirAns).

(** The state a directory method leaves behind, and what it returns. *)
Record Out (A : Type) : Type := mkOut {
  oHeap : Heap;
  oDir : PlayerDirectory;
  oVal : A + srcError
}.

Arguments mkOut {A} oHeap oDir oVal.
Arguments oHeap {A} o.
Arguments oDir {A} o.
Arguments oVal {A} o.

(** [result := make(...); copy(result, src)]. *)
Definition copyOf (src : list Player_) (h : Heap) : loc * Heap :=
  let '(l, h1) := make (length src) h in (l, copy l src h1).

(** The refresh half of Snapshot. *)
Definition refresh (d : PlayerDirectory) (h : Heap) : DirProg (Out Slice) :=
  Vis EvStatus (λ r : list Player_ + srcError,
    match r with
    | inr err => Ret (mkOut h d (inr err))
    | inl ps =>
        let '(c, h1) := copyOf ps h in
        Vis EvNow (λ now : Time,
          let d1 := mkDir (ttl d) (Some c) (now + ttl d) in
          let '(result, h2) := copyOf ps h1 in
          Ret (mkOut h2 d1 (inl (Some result))))
    end).

(** Snapshot.  The clock is read only when the cache is not empty. *)
Definition Snapshot (d : PlayerDirectory) (h : Heap) : DirProg (Out Slice) :=
  if (0 <? len h (players d))%nat then
    Vis EvNow (λ now : Time,
      if now <? expires d then
        let '(result, h1) := copyOf (contents h (players d)) h in
        Ret (mkOut h1 d (inl (Some result)))
      else refresh d h)
  else refresh d h.

Definition Invalidate (d : PlayerDirectory) : PlayerDirectory :=
  mkDir (ttl d) None zeroTime.

Fixpoint stripColorCodes (input : str) : str :=
  match input with
  | [] => []
  | c :: r =>
      if bool_decide (c = caret) then
        match r with
        | [] => []
        | _ :: r' => stripColorCodes r'
        end
      else c :: stripColorCodes r
  end.

(** The loops [for _, p := range players] of the three finders: the first
    player that passes the test. *)
Fixpoint firstPlayer (test : Player_ → bool) (ps : list Player_)
  : option Player_ :=
  match ps with
  | [] => None
  | p :: rest => if test p then Some p else firstPlayer test rest
  end.

Section Finders.

(** [strings.ToLower] and [strings.EqualFold] go through Go's Unicode case
    tables, so the finders take the two functions as given. *)
Variable ToLower : str → str.
Variable EqualFold : str → str → bool.

Definition FindByName (name : str) (d : PlayerDirectory) (h : Heap)
  : DirProg (Out (option Player_)) :=
  let name := TrimSpace (stripColorCodes name) in
  if bool_decide (name = []) then Ret (mkOut h d (inl None)) else
  pbind (Snapshot d h) (λ o,
    match oVal o with
    | inr err => Ret (mkOut (oHeap o) (oDir o) (inr err))
    | inl players =>
        let lower := ToLower name in
        Ret (mkOut (oHeap o) (oDir o)
               (inl (firstPlayer
                       (λ p,
                          let candidate := ToLower (stripColorCodes (Name p)) in
                          Contains candidate lower)
                       (contents (oHeap o) players))))
    end).

Definition FindByClientNum (clientNum : Z) (d : PlayerDirectory) (h : Heap)
  : DirProg (Out (option Player_)) :=
  pbind (Snapshot d h) (λ o,
    match oVal o with
    | inr err => Ret (mkOut (oHeap o) (oDir o) (inr err))
    | inl players =>
        Ret (mkOut (oHeap o) (oDir o)
               (inl (firstPlayer (λ p, ClientNum p =? clientNum)
                       (contents (oHeap o) players))))
    end).

Definition FindByGUID (guid : str) (d : PlayerDirectory) (h : Heap)
  : DirProg (Out (option Player_)) :=
  let guid := TrimSpace guid in
  if bool_decide (guid = []) then Ret (mkOut h d (inl None)) else
  pbind (Snapshot d h) (λ o,
    match oVal o with
    | inr err => Ret (mkOut (oHeap o) (oDir o) (inr err))
    | inl players =>
        Ret (mkOut (oHeap o) (oDir o)
               (inl (firstPlayer (λ p, EqualFold (TrimSpace (GUID p)) guid)
                       (contents (oHeap o) players))))
    end).

End Finders.

(** [strings.ToLower] on a string of ASCII bytes. *)
Definition asciiLower (s : str) : str :=
  map (λ c, if in_range 65 90 c then ascii_of_N (code c + 32) else c) s.

(** A scripted environment for the directory: the clock reads [now] and
    the source answers [status]. *)
Definition fixedSource (now : Time) (status : list Player_ + srcError)
  : Handler dirEv dirAns unit :=
  λ e w,
    match e return dirAns e * unit with
    | EvNow => (now, w)
    | EvStatus => (status, w)
    end.

Definition alice : Player_ := mkPlayerRec 3 (go "^1Alice") (go "0110").

(** A scripted environment for the tailer with fixed answers; its state
    counts the iterations left before the context is cancelled. *)
Definition scriptHandler (opened : File + ioError) (off : Z + ioError)
    (read : str * option ioError) (stat : FileInfo + ioError)
    (cur : option FileInfo) : Handler tailEv tailAns nat :=
  λ e w,
    match e return tailAns e * nat with
    | EvOpen => (opened, w)
    | EvSeek _ _ => (off, w)
    | EvCtxDone => ((w =? 0)%nat, Nat.pred w)
    | EvReadString _ => (read, w)
    | EvStat => (stat, w)
    | EvFStat _ => (cur, w)
    | EvClose _ => (tt, w)
    | EvSleep _ => (tt, w)
    | EvSelectAfter _ => ((w =? 0)%nat, w)
    | EvLog _ => (tt, w)
    | EvSelectSend _ => ((w =? 0)%nat, w)
    end.

(** The selects of the tailer. *)
Definition isSelect (e : tailEv) : bool :=
  match e with
  | EvCtxDone | EvSelectAfter _ | EvSelectSend _ => true
  | _ => false
  end.

(** The events that hand a line on: to the channel or to the log. *)
Definition isOutput (e : tailEv) : bool :=
  match e with
  | EvSelectSend _ | EvLog _ => true
  | _ => false
  end.

(** What the loops of the tailer do with their arguments: an event sent
    is the result of ParseEventLine on a line that is not empty and does
    not end in a carriage return or line feed, an error logged is the
    error of such a line, the waits are the two constants and the only
    seek asks for the offset. *)
Definition fromLoop (e : tailEv) : Prop :=
  match e with
  | EvSelectSend ev =>
      ∃ read, let line := TrimRight read [ascii_of_N 13; newline] in
              line ≠ [] ∧ ParseEventLine line = Ok ev
  | EvLog err =>
      ∃ read, let line := TrimRight read [ascii_of_N 13; newline] in
              line ≠ [] ∧ ParseEventLine line = Err err
  | EvSleep d => d = reopenRetry
  | EvSelectAfter d => d = pollInterval
  | EvSeek _ wh => wh = SeekCurrent
  | _ => True
  end.



(** The cutset of the tailer's TrimRight. *)
Definition lineEnd : str := [ascii_of_N 13; newline].


(** * Properties *)

(** ** Bytes and white space *)

Ltac bytes :=
  unfold asciiSpace, space2, space3, isCont, isDigit, isHexLike,
    in_range, is_byte in *;
  intros;
  repeat (progress
    rewrite ?andb_true_iff, ?orb_true_iff, ?andb_false_iff, ?orb_false_iff,
      ?N.eqb_eq, ?N.eqb_neq, ?N.leb_le, ?N.leb_gt in * );
  try lia.

Lemma asciiSpace_not_cont c : asciiSpace c = true → isCont c = false.
Proof. bytes. Qed.

Lemma space2_bytes c1 c2 :
  space2 c1 c2 = true →
  asciiSpace c1 = false ∧ isCont c1 = false ∧ isCont c2 = true.
Proof. bytes. Qed.

Lemma space3_bytes c1 c2 c3 :
  space3 c1 c2 c3 = true →
  asciiSpace c1 = false ∧ isCont c1 = false ∧ isCont c2 = true
  ∧ isCont c3 = true ∧ space2 c1 c2 = false.
Proof. bytes. Qed.

Lemma spaceRune_split s w r : spaceRune s = Some (w, r) → s = w ++ r ∧ w ≠ [].
Proof.
  destruct s as [|c1 [|c2 [|c3 r3]]]; simpl; try discriminate;
    repeat case_match; intros; simplify_eq; done.
Qed.

Lemma spaceRune_head c r w t :
  spaceRune (c :: r) = Some (w, t) → isCont c = false.
Proof.
  destruct r as [|c2 [|c3 r3]]; simpl; repeat case_match; intros;
    simplify_eq;
    first [ by apply asciiSpace_not_cont
          | by eapply space2_bytes
          | by eapply space3_bytes ].
Qed.

(** The rune found does not depend on what follows it. *)
Lemma spaceRune_stable s w r t :
  spaceRune s = Some (w, r) → spaceRune (w ++ t) = Some (w, t).
Proof.
  destruct s as [|c1 [|c2 [|c3 r3]]]; simpl; try discriminate;
    repeat case_match; intros; simplify_eq; simpl;
    repeat match goal with H : _ = _ |- _ => rewrite H end; done.
Qed.

(** Bytes that follow cannot complete a rune unless they are continuation
    bytes. *)
Lemma spaceRune_none_app c s t :
  spaceRune (c :: s) = None → boundary t → spaceRune (c :: s ++ t) = None.
Proof.
  intros Hn Ht.
  destruct s as [|c2 [|c3 r3]]; simpl in *.
  - destruct (asciiSpace c) eqn:E1; [done|].
    destruct t as [|b [|b2 t2]]; simpl in *; [done| |].
    + destruct (space2 c b) eqn:E2; [|done].
      apply space2_bytes in E2 as (? & ? & ?). congruence.
    + destruct (space2 c b) eqn:E2.
      { apply space2_bytes in E2 as (? & ? & ?). congruence. }
      destruct (space3 c b b2) eqn:E3; [|done].
      apply space3_bytes in E3 as (? & ? & ? & ? & ?). congruence.
  - destruct (asciiSpace c) eqn:E1; [done|].
    destruct (space2 c c2) eqn:E2; [done|].
    destruct t as [|b t2]; simpl in *; [done|].
    destruct (space3 c c2 b) eqn:E3; [|done].
    apply space3_bytes in E3 as (? & ? & ? & ? & ?). congruence.
  - repeat case_match; done.
Qed.

Lemma segments_unfold c1 r1 :
  segments (c1 :: r1) =
  if asciiSpace c1 then Sp [c1] :: segments r1 else
  match r1 with
  | c2 :: r2 =>
      if space2 c1 c2 then Sp [c1; c2] :: segments r2 else
      match r2 with
      | c3 :: r3 =>
          if space3 c1 c2 c3 then Sp [c1; c2; c3] :: segments r3
          else By c1 :: segments r1
      | [] => By c1 :: segments r1
      end
  | [] => By c1 :: segments r1
  end.
Proof. done. Qed.

Lemma segments_space s w r :
  spaceRune s = Some (w, r) → segments s = Sp w :: segments r.
Proof.
  destruct s as [|c1 r1]; [done|]. rewrite segments_unfold.
  unfold spaceRune. repeat case_match; intros; simplify_eq; done.
Qed.

Lemma segments_byte c r :
  spaceRune (c :: r) = None → segments (c :: r) = By c :: segments r.
Proof.
  rewrite segments_unfold.
  unfold spaceRune. repeat case_match; intros; simplify_eq; done.
Qed.

(** Induction along the decoding. *)
Lemma segments_induction (P : str → Prop) :
  P [] →
  (∀ s w r, spaceRune s = Some (w, r) → P r → P s) →
  (∀ c r, spaceRune (c :: r) = None → P r → P (c :: r)) →
  ∀ s, P s.
Proof.
  intros H0 Hs Hb s.
  remember (length s) as n eqn:Hn. revert s Hn.
  induction n as [n IH] using lt_wf_ind. intros s ->.
  assert (∀ t, (length t < length s)%nat → P t) as IH'.
  { intros t Ht. by eapply IH. }
  destruct s as [|c r]; [done|].
  destruct (spaceRune (c :: r)) as [[w t]|] eqn:E.
  - eapply Hs; [done|]. apply IH'.
    apply spaceRune_split in E as [E Hw]. rewrite E, length_app.
    destruct w; [done|]. simpl. lia.
  - apply Hb; [done|]. apply IH'. simpl. lia.
Qed.

Lemma flatten_segments s : flatten (segments s) = s.
Proof.
  induction s as [|s w r E IH|c r E IH] using segments_induction.
  - done.
  - rewrite (segments_space _ _ _ E). unfold flatten in *. simpl.
    rewrite IH. by apply spaceRune_split in E as [-> _].
  - rewrite (segments_byte _ _ E). unfold flatten in *. simpl.
    by rewrite IH.
Qed.

Lemma segments_app s t :
  boundary t → segments (s ++ t) = segments s ++ segments t.
Proof.
  intros Ht.
  induction s as [|s w r E IH|c r E IH] using segments_induction.
  - done.
  - rewrite (segments_space _ _ _ E).
    pose proof (spaceRune_split _ _ _ E) as [-> _].
    rewrite <- app_assoc.
    rewrite (segments_space (w ++ r ++ t) w (r ++ t)).
    + by rewrite IH.
    + by eapply spaceRune_stable.
  - rewrite (segments_byte _ _ E). simpl.
    rewrite <- IH. apply segments_byte.
    by apply spaceRune_none_app.
Qed.

Lemma flatten_app l1 l2 : flatten (l1 ++ l2) = flatten l1 ++ flatten l2.
Proof. unfold flatten. by rewrite map_app, concat_app. Qed.

Lemma flatten_By s : flatten (map By s) = s.
Proof. induction s as [|c s IH]; [done|]. unfold flatten in *. simpl. by f_equal. Qed.

Lemma segments_inv s x l :
  segments s = x :: l →
  ∃ r, s = seg_bytes x ++ r ∧ segments r = l
       ∧ (isSp x = true → boundary (seg_bytes x ++ r)).
Proof.
  destruct s as [|c r]; [done|].
  destruct (spaceRune (c :: r)) as [[w t]|] eqn:E.
  - rewrite (segments_space _ _ _ E). intros [= <- <-].
    exists t. pose proof (spaceRune_split _ _ _ E) as [Hs Hw].
    split_and!; [done..|]. intros _. simpl. rewrite <- Hs. simpl.
    by eapply spaceRune_head.
  - rewrite (segments_byte _ _ E). intros [= <- <-].
    exists r. by split_and!.
Qed.

(** Decoding what is left after some leading units gives the units left. *)
Lemma segments_suffix s l1 l2 :
  segments s = l1 ++ l2 → segments (flatten l2) = l2.
Proof.
  revert s. induction l1 as [|x l1 IH]; intros s Hs; simpl in *.
  - by rewrite <- Hs, flatten_segments.
  - apply segments_inv in Hs as (r & _ & Hr & _). by eapply IH.
Qed.

(** Decoding what stands before a white-space rune gives the units before
    it. *)
Lemma segments_prefix s l1 l2 :
  segments s = l1 ++ l2 →
  match l2 with By _ :: _ => False | _ => True end →
  segments (flatten l1) = l1.
Proof.
  intros Hs Hl2.
  pose proof (segments_suffix _ _ _ Hs) as Hsuf.
  assert (boundary (flatten l2)) as Hb.
  { destruct l2 as [|[w|c] l2]; [done| |done].
    apply segments_inv in Hsuf as (r & Hr & _ & Hb). rewrite Hr. by apply Hb. }
  pose proof (flatten_segments s) as Hf.
  rewrite Hs, flatten_app in Hf.
  pose proof (segments_app (flatten l1) (flatten l2) Hb) as Happ.
  rewrite Hf, Hs, Hsuf in Happ. by apply app_inv_tail in Happ.
Qed.

Lemma dropSp_suffix l : ∃ l1, l = l1 ++ dropSp l ∧ Forall (λ x, isSp x = true) l1.
Proof.
  induction l as [|[w|c] l (l1 & IH & Hall)].
  - by exists [].
  - exists (Sp w :: l1). simpl. split; [by f_equal|]. by constructor.
  - by exists [].
Qed.

Lemma dropSp_head l : match dropSp l with Sp _ :: _ => False | _ => True end.
Proof. induction l as [|[w|c] l IH]; done. Qed.

Lemma dropSp_app_By a c r : dropSp (a ++ By c :: r) = dropSp a ++ By c :: r.
Proof. induction a as [|[w|b] a IH]; done. Qed.

(** The units dropped at the right end. *)
Lemma dropSp_reverse l :
  ∃ l2, l = reverse (dropSp (reverse l)) ++ l2
        ∧ Forall (λ x, isSp x = true) l2.
Proof.
  destruct (dropSp_suffix (reverse l)) as (l1 & Hl & Hall).
  exists (reverse l1). split.
  - rewrite <- reverse_app, <- Hl. by rewrite reverse_involutive.
  - by apply Forall_reverse.
Qed.

Lemma segments_TrimLeftSpace s :
  segments (TrimLeftSpace s) = dropSp (segments s).
Proof.
  unfold TrimLeftSpace.
  destruct (dropSp_suffix (segments s)) as (l1 & Hl & _).
  by eapply segments_suffix.
Qed.

Lemma segments_TrimRightSpace s :
  segments (TrimRightSpace s) = reverse (dropSp (reverse (segments s))).
Proof.
  unfold TrimRightSpace.
  destruct (dropSp_reverse (segments s)) as (l2 & Hl & Hall).
  eapply segments_prefix; [done|].
  destruct Hall as [|[w|c] l2 Hx Hall]; done.
Qed.

Lemma segments_TrimSpace s :
  segments (TrimSpace s) = reverse (dropSp (reverse (dropSp (segments s)))).
Proof.
  unfold TrimSpace. by rewrite segments_TrimRightSpace, segments_TrimLeftSpace.
Qed.

Lemma segments_plain s : forallb plain s = true → segments s = map By s.
Proof.
  induction s as [|c s IH]; [done|]. cbn [forallb map].
  intros [Hc Hs]%andb_true_iff. rewrite segments_unfold, (IH Hs).
  unfold plain in Hc. apply andb_true_iff in Hc as [Ha Hc].
  apply negb_true_iff in Ha. rewrite Ha.
  apply N.ltb_lt in Hc.
  assert (∀ c2, space2 c c2 = false) as H2.
  { intros c2. unfold space2, is_byte.
    destruct (N.eqb_spec (code c) 194); [lia|done]. }
  assert (∀ c2 c3, space3 c c2 c3 = false) as H3.
  { intros c2 c3. unfold space3, is_byte.
    destruct (N.eqb_spec (code c) 225); [lia|].
    destruct (N.eqb_spec (code c) 226); [lia|].
    destruct (N.eqb_spec (code c) 227); [lia|done]. }
  destruct s as [|c2 [|c3 s]]; simpl; rewrite ?H2, ?H3; done.
Qed.

Lemma TrimSpace_By s : segments s = map By s → TrimSpace s = s.
Proof.
  intros Hs. rewrite <- (flatten_segments (TrimSpace s)), segments_TrimSpace, Hs.
  assert (∀ t, dropSp (map By t) = map By t) as Hd by (by intros [|??]).
  by rewrite Hd, <- fmap_reverse, Hd, fmap_reverse, reverse_involutive, flatten_By.
Qed.

Lemma TrimSpace_plain s : forallb plain s = true → TrimSpace s = s.
Proof. intros. by apply TrimSpace_By, segments_plain. Qed.

(** *** Decoding backwards *)

Lemma segments_Sp_rune s l1 w l2 :
  segments s = l1 ++ Sp w :: l2 → spaceRune w = Some (w, []).
Proof.
  intros Hs.
  pose proof (segments_suffix _ _ _ Hs) as Hsuf.
  apply segments_inv in Hsuf as (r & Hw & _ & _). simpl in Hw.
  assert (segments (flatten (Sp w :: l2)) = Sp w :: l2) as Hseg
    by (by eapply segments_suffix).
  change (flatten (Sp w :: l2)) with (w ++ flatten l2) in Hseg.
  destruct (spaceRune (w ++ flatten l2)) as [[w' t]|] eqn:E.
  - rewrite (segments_space _ _ _ E) in Hseg. injection Hseg as -> _.
    pose proof (spaceRune_stable _ _ _ [] E) as Hst.
    by rewrite app_nil_r in Hst.
  - destruct w as [|c w].
    + simpl in *. destruct (flatten l2) as [|c r'] eqn:Hl; [done|].
      rewrite (segments_byte _ _ E) in Hseg. done.
    + rewrite <- app_comm_cons in Hseg, E.
      by rewrite (segments_byte _ _ E) in Hseg.
Qed.

Lemma trimBack_rune w r :
  spaceRune w = Some (w, []) → trimBack (reverse w ++ r) = trimBack r.
Proof.
  destruct w as [|c1 [|c2 [|c3 [|c4 w]]]]; cbn [spaceRune]; try done.
  - destruct (asciiSpace c1) eqn:E1; [|done]. intros _.
    change (reverse [c1] ++ r) with (c1 :: r). cbn [trimBack]. by rewrite E1.
  - destruct (asciiSpace c1) eqn:E1; [done|].
    destruct (space2 c1 c2) eqn:E2; [|done]. intros _.
    pose proof (space2_bytes _ _ E2) as (_ & _ & Hc2).
    assert (asciiSpace c2 = false) as Ha2.
    { destruct (asciiSpace c2) eqn:Ha; [|done].
      apply asciiSpace_not_cont in Ha. congruence. }
    change (reverse [c1; c2] ++ r) with (c2 :: c1 :: r). cbn [trimBack].
    by rewrite Ha2, E2.
  - destruct (asciiSpace c1) eqn:E1; [done|].
    destruct (space2 c1 c2) eqn:E2; [done|].
    destruct (space3 c1 c2 c3) eqn:E3; [|done]. intros _.
    pose proof (space3_bytes _ _ _ E3) as (_ & _ & Hc2 & Hc3 & _).
    assert (asciiSpace c3 = false) as Ha3.
    { destruct (asciiSpace c3) eqn:Ha; [|done].
      apply asciiSpace_not_cont in Ha. congruence. }
    assert (space2 c2 c3 = false) as H23.
    { destruct (space2 c2 c3) eqn:Ha; [|done].
      apply space2_bytes in Ha as (_ & ? & _). congruence. }
    change (reverse [c1; c2; c3] ++ r) with (c3 :: c2 :: c1 :: r).
    cbn [trimBack]. by rewrite Ha3, H23, E3.
  - repeat case_match; done.
Qed.

Lemma segments_rune w : spaceRune w = Some (w, []) → segments w = [Sp w].
Proof. intros E. by rewrite (segments_space _ _ _ E). Qed.

(** A string whose last unit is a byte of its own does not end in a
    white-space rune. *)
Lemma trimBack_byte s l c :
  segments s = l ++ [By c] → trimBack (reverse s) = reverse s.
Proof.
  intros Hs.
  assert (∀ a w, s = a ++ w → spaceRune w = Some (w, []) → False) as Hno.
  { intros a w -> Hw.
    assert (boundary w) as Hb.
    { destruct w as [|b w]; [done|]. simpl. by eapply spaceRune_head. }
    rewrite (segments_app _ _ Hb), (segments_rune _ Hw) in Hs.
    by apply app_inj_tail in Hs as [_ ?]. }
  pose proof (flatten_segments s) as Hf. rewrite Hs, flatten_app in Hf.
  change (flatten [By c]) with [c] in Hf.
  destruct (reverse s) as [|c3 r1] eqn:Hr; [done|].
  assert (s = reverse r1 ++ [c3]) as Hs3.
  { by rewrite <- (reverse_involutive s), Hr, reverse_cons. }
  simpl.
  destruct (asciiSpace c3) eqn:E1.
  { exfalso. apply (Hno (reverse r1) [c3] Hs3). simpl. by rewrite E1. }
  destruct r1 as [|c2 r2]; [done|].
  destruct (space2 c2 c3) eqn:E2.
  { exfalso. apply (Hno (reverse r2) [c2; c3]).
    - by rewrite Hs3, reverse_cons, <- app_assoc.
    - simpl. pose proof (space2_bytes _ _ E2) as (-> & _). by rewrite E2. }
  destruct r2 as [|c1 r3]; [done|].
  destruct (space3 c1 c2 c3) eqn:E3; [|done].
  exfalso. apply (Hno (reverse r3) [c1; c2; c3]).
  - by rewrite Hs3, !reverse_cons, <- !app_assoc.
  - simpl. pose proof (space3_bytes _ _ _ E3) as (-> & _ & _ & _ & ->).
    by rewrite E3.
Qed.

(** Trimming by the forward decoding and trimming by walking backwards
    give the same string. *)
Lemma TrimRightSpace_backwards s :
  TrimRightSpace s = reverse (trimBack (reverse s)).
Proof.
  remember (length (segments s)) as n eqn:Hn. revert s Hn.
  induction n as [|n IH]; intros s Hn.
  - destruct (segments s) eqn:Hs; [|done].
    pose proof (flatten_segments s) as Hf. rewrite Hs in Hf. by subst s.
  - destruct (segments s) as [|x l _] eqn:Hs using rev_ind; [done|].
    rewrite length_app in Hn. simpl in Hn.
    pose proof (flatten_segments s) as Hf. rewrite Hs, flatten_app in Hf.
    destruct x as [w|c].
    + pose proof (segments_Sp_rune s l w [] Hs) as Hw.
      assert (segments (flatten l) = l) as Hl
        by (by eapply (segments_prefix s l [Sp w])).
      unfold TrimRightSpace. rewrite Hs, reverse_app. simpl.
      fold (TrimRightSpace (flatten l)).
      transitivity (TrimRightSpace (flatten l)).
      { unfold TrimRightSpace. by rewrite Hl. }
      rewrite (IH (flatten l)) by (rewrite Hl; lia).
      rewrite <- Hf, reverse_app.
      change (flatten [Sp w]) with (w ++ []). rewrite app_nil_r.
      by rewrite trimBack_rune.
    + rewrite (trimBack_byte s l c Hs), reverse_involutive.
      unfold TrimRightSpace. rewrite Hs, reverse_app. simpl.
      by rewrite reverse_cons, reverse_involutive, <- Hs, flatten_segments.
Qed.

(** *** Fields *)

Lemma fields_go_nonempty l cur f :
  (∀ g, cur = Some g → g ≠ []) → f ∈ fields_go l cur → f ≠ [].
Proof.
  revert cur. induction l as [|[w|c] l IH]; intros cur Hcur; simpl.
  - destruct cur; [|by intros ?%elem_of_nil].
    intros ->%list_elem_of_singleton. by apply Hcur.
  - destruct cur as [g|].
    + intros [->|Hf]%elem_of_cons; [by apply Hcur|].
      by apply (IH None).
    + by apply (IH None).
  - apply IH. intros g [= <-]. by destruct (default [] cur).
Qed.

(** No field of [strings.Fields] is empty. *)
Lemma Fields_nonempty s f : f ∈ Fields s → f ≠ [].
Proof. by apply fields_go_nonempty. Qed.

Lemma fields_go_Some l g : fields_go l (Some g) ≠ [].
Proof. revert g. induction l as [|[w|b] l IH]; intros g; simpl; [done..|]. apply IH. Qed.

Lemma fields_go_nil l : fields_go l None = [] → Forall (λ x, isSp x = true) l.
Proof.
  induction l as [|[w|c] l IH]; simpl; intros Hf.
  - done.
  - constructor; [done|]. by apply IH.
  - by apply fields_go_Some in Hf.
Qed.

Lemma fields_go_single l cur tok :
  lastNotSp l → fields_go l (Some cur) = [tok] →
  ∃ rest, l = map By rest ∧ tok = cur ++ rest.
Proof.
  revert cur. induction l as [|[w|c] l IH]; intros cur Hlast; simpl.
  - intros [= <-]. exists []. by rewrite app_nil_r.
  - intros [= <- Hnil]. apply fields_go_nil in Hnil. exfalso.
    unfold lastNotSp in Hlast. destruct l as [|x l _] using rev_ind; [done|].
    rewrite last_cons, last_snoc in Hlast.
    rewrite Forall_app, Forall_singleton in Hnil. destruct Hnil as [_ Hx].
    by destruct x.
  - intros Hf. apply IH in Hf as (rest & -> & ->).
    + exists (c :: rest). by rewrite <- app_assoc.
    + unfold lastNotSp in *. rewrite last_cons in Hlast.
      by destruct (last l).
Qed.

(** A trimmed string with one field is that field, and has no white
    space. *)
Lemma Fields_TrimSpace_single s tok :
  Fields (TrimSpace s) = [tok] →
  TrimSpace s = tok ∧ segments tok = map By tok.
Proof.
  unfold Fields. rewrite segments_TrimSpace.
  set (m := dropSp (segments s)). set (p := reverse (dropSp (reverse m))).
  intros Hf.
  assert (lastNotSp p) as Hlast.
  { unfold lastNotSp, p. rewrite last_reverse.
    pose proof (dropSp_head (reverse m)).
    by destruct (dropSp (reverse m)) as [|[w|c] ?]. }
  assert (match p with Sp _ :: _ => False | _ => True end) as Hhead.
  { destruct (dropSp_reverse m) as (l2 & Hm & _). fold p in Hm.
    pose proof (dropSp_head (segments s)) as Hh. fold m in Hh.
    rewrite Hm in Hh. by destruct p as [|[w|c] ?]. }
  assert (p = map By tok) as Htok.
  { clearbody p. destruct p as [|[w|c] p']; [done|done|]. simpl in Hf.
    apply fields_go_single in Hf as (rest & -> & ->); [done|].
    unfold lastNotSp in *. rewrite last_cons in Hlast. by destruct (last p'). }
  assert (TrimSpace s = tok) as Ht.
  { rewrite <- (flatten_segments (TrimSpace s)), segments_TrimSpace.
    fold m. fold p. by rewrite Htok, flatten_By. }
  split; [done|]. rewrite <- Htok, <- Ht. apply segments_TrimSpace.
Qed.

Lemma segments_By_no_space s c :
  segments s = map By s → c ∈ s → asciiSpace c = false.
Proof.
  induction s as [|c1 s IH]; [by intros _ ?%elem_of_nil|].
  intros Hs. destruct (spaceRune (c1 :: s)) as [[w t]|] eqn:E.
  { by rewrite (segments_space _ _ _ E) in Hs. }
  rewrite (segments_byte _ _ E) in Hs. injection Hs as Hs.
  intros [->|Hc]%elem_of_cons; [|by apply IH].
  simpl in E. by destruct (asciiSpace c1).
Qed.

(** ** Splitting *)

Lemma cut_Some sep s a b :
  cut sep s = Some (a, b) → s = a ++ sep :: b ∧ sep ∉ a.
Proof.
  revert a. induction s as [|c s IH]; intros a; simpl; [done|].
  case_bool_decide as Hc.
  - intros [= <- <-]. subst. split; [done|]. apply not_elem_of_nil.
  - destruct (cut sep s) as [[a' b']|]; [|done].
    intros [= <- <-]. destruct (IH a' eq_refl) as [-> Ha].
    split; [done|]. apply not_elem_of_cons. by split.
Qed.

Lemma cut_None sep s : cut sep s = None ↔ sep ∉ s.
Proof.
  induction s as [|c s IH]; simpl.
  - split; [intros _; apply not_elem_of_nil|done].
  - rewrite not_elem_of_cons. case_bool_decide as Hc.
    + split; [done|]. intros [? _]. congruence.
    + destruct (cut sep s) as [[a b]|].
      * split; [done|]. intros [_ Hs]. by apply IH in Hs.
      * split; [|done]. intros _. split; [congruence|]. by apply IH.
Qed.

Lemma cut_app sep a b : sep ∉ a → cut sep (a ++ sep :: b) = Some (a, b).
Proof.
  induction a as [|c a IH]; simpl.
  - intros _. by rewrite bool_decide_eq_true_2.
  - intros [Hc Ha]%not_elem_of_cons.
    rewrite bool_decide_eq_false_2 by done. by rewrite IH.
Qed.

Lemma count_cut sep s a b :
  cut sep s = Some (a, b) → count sep s = S (count sep b).
Proof.
  revert a. induction s as [|c s IH]; intros a; simpl; [done|].
  unfold count in *. rewrite filter_cons. case_bool_decide as Hc.
  - intros [= <- <-]. by rewrite decide_True.
  - destruct (cut sep s) as [[a' b']|]; [|done].
    intros [= <- <-]. rewrite decide_False by done. by eapply IH.
Qed.

Lemma count_None sep s : cut sep s = None → count sep s = 0%nat.
Proof.
  intros Hs%cut_None. unfold count.
  induction s as [|c s IH]; [done|].
  apply not_elem_of_cons in Hs as [Hc Hs].
  rewrite filter_cons, decide_False by done. by apply IH.
Qed.

Lemma Split_cut sep s a b :
  cut sep s = Some (a, b) → Split sep s = a :: Split sep b.
Proof.
  intros Hc. unfold Split. rewrite (count_cut _ _ _ _ Hc).
  cbn [SplitN]. by rewrite Hc.
Qed.

Lemma Split_None sep s : cut sep s = None → Split sep s = [s].
Proof. intros Hc. unfold Split. by rewrite (count_None _ _ Hc). Qed.

Lemma Split_app_sep sep a b :
  sep ∉ a → Split sep (a ++ sep :: b) = a :: Split sep b.
Proof. intros Ha. by apply Split_cut, cut_app. Qed.

Lemma Split_no_sep sep a : sep ∉ a → Split sep a = [a].
Proof. intros Ha. by apply Split_None, cut_None. Qed.

Lemma Split_length sep s : length (Split sep s) = S (count sep s).
Proof.
  remember (count sep s) as n eqn:Hn. revert s Hn.
  induction n as [|n IH]; intros s Hn.
  - unfold Split. by rewrite <- Hn.
  - destruct (cut sep s) as [[a b]|] eqn:Hc.
    + rewrite (Split_cut _ _ _ _ Hc). simpl. f_equal. apply IH.
      rewrite (count_cut _ _ _ _ Hc) in Hn. congruence.
    + rewrite (count_None _ _ Hc) in Hn. done.
Qed.

(** Induction along the pieces of a split. *)
Lemma Split_induction sep (P : str → Prop) :
  (∀ s, cut sep s = None → P s) →
  (∀ s a b, cut sep s = Some (a, b) → P b → P s) →
  ∀ s, P s.
Proof.
  intros Hn Hc s. remember (count sep s) as n eqn:En. revert s En.
  induction n as [|n IH]; intros s En;
    destruct (cut sep s) as [[a b]|] eqn:E.
  - rewrite (count_cut _ _ _ _ E) in En. done.
  - by apply Hn.
  - eapply Hc; [done|]. apply IH.
    rewrite (count_cut _ _ _ _ E) in En. congruence.
  - by apply Hn.
Qed.

Lemma Split_pieces sep s : Forall (λ p, sep ∉ p) (Split sep s).
Proof.
  induction s as [s E|s a b E IH] using (Split_induction sep).
  - rewrite (Split_None _ _ E). constructor; [|done]. by apply cut_None.
  - rewrite (Split_cut _ _ _ _ E). constructor; [|done].
    by apply cut_Some in E as [_ ?].
Qed.

(** Before its last piece SplitN agrees with Split. *)
Lemma SplitN_lookup sep n s i :
  (i + 1 < n)%nat → SplitN sep n s !! i = Split sep s !! i.
Proof.
  revert n s. induction i as [|i IH]; intros [|[|n]] s Hi; try lia;
    cbn [SplitN]; destruct (cut sep s) as [[a b]|] eqn:E;
    rewrite ?(Split_cut _ _ _ _ E), ?(Split_None _ _ E); try done.
  apply (IH (S n) b). lia.
Qed.

Lemma SplitN_SS sep n s :
  SplitN sep (S (S n)) s =
  match cut sep s with
  | Some (a, b) => a :: SplitN sep (S n) b
  | None => [s]
  end.
Proof. done. Qed.

Lemma SplitN_length sep n s :
  length (SplitN sep (S n) s) = (S n `min` length (Split sep s))%nat.
Proof.
  revert s. induction n as [|n IH]; intros s.
  - rewrite Split_length. simpl. lia.
  - rewrite SplitN_SS. destruct (cut sep s) as [[a b]|] eqn:E.
    + rewrite (Split_cut _ _ _ _ E). cbn [length]. rewrite IH. lia.
    + rewrite (Split_None _ _ E). simpl. lia.
Qed.

Lemma HasPrefix_nil s : HasPrefix s [] = true.
Proof. by destruct s. Qed.

Lemma Contains_sep sep s : Contains s [sep] = bool_decide (sep ∈ s).
Proof.
  induction s as [|c s IH]; simpl; [done|].
  rewrite IH, HasPrefix_nil, andb_true_r.
  destruct (decide (c = sep)) as [->|Hc].
  - rewrite (bool_decide_eq_true_2 (sep = sep)) by done.
    symmetry. apply bool_decide_eq_true_2. by left.
  - rewrite (bool_decide_eq_false_2 (c = sep)) by done. simpl.
    apply bool_decide_ext. rewrite elem_of_cons.
    split; [by right|]. intros [?|?]; [congruence|done].
Qed.

Lemma HasPrefix_app s p : HasPrefix s p = true ↔ ∃ r, s = p ++ r.
Proof.
  revert s. induction p as [|b p IH]; intros s.
  - rewrite HasPrefix_nil. split; [by exists s|done].
  - destruct s as [|c s]; simpl; [split; [done|by intros [? ?]]|].
    rewrite andb_true_iff, bool_decide_eq_true, IH.
    split.
    + intros [-> [r ->]]. by exists r.
    + intros [r [= -> ->]]. split; [done|]. by exists r.
Qed.

(** ** Numbers *)

Lemma digit_plain c : isDigit c = true → plain c = true.
Proof. unfold plain. bytes. split; [|apply N.ltb_lt; lia].
  apply negb_true_iff. bytes. Qed.

(** What Atoi accepts holds no white space. *)
Lemma Atoi_plain s v : Atoi s = inl v → forallb plain s = true.
Proof.
  unfold Atoi.
  assert (∀ ds, forallb isDigit ds = true → forallb plain ds = true) as Hd.
  { intros ds. rewrite !forallb_forall. intros H c Hc. by apply digit_plain, H. }
  destruct s as [|c r]; [done|].
  destruct (bool_decide (c = "-"%char)) eqn:E1;
    [apply bool_decide_eq_true in E1 as ->
    |destruct (bool_decide (c = "+"%char)) eqn:E2;
       [apply bool_decide_eq_true in E2 as ->|]].
  - destruct r as [|a r]; [done|].
    destruct (forallb isDigit (a :: r)) eqn:Hdig; [|done]. intros _.
    change (plain "-" && forallb plain (a :: r) = true). by rewrite (Hd _ Hdig).
  - destruct r as [|a r]; [done|].
    destruct (forallb isDigit (a :: r)) eqn:Hdig; [|done]. intros _.
    change (plain "+" && forallb plain (a :: r) = true). by rewrite (Hd _ Hdig).
  - destruct (forallb isDigit (c :: r)) eqn:Hdig; [|done]. intros _.
    by apply Hd.
Qed.

Lemma Atoi_TrimSpace s v : Atoi s = inl v → Atoi (TrimSpace s) = inl v.
Proof. intros H. by rewrite (TrimSpace_plain _ (Atoi_plain _ _ H)). Qed.

(** ** The line grammar *)

Lemma atoiAll_no_panic parts : atoiAll parts ≠ Panic.
Proof.
  induction parts as [|p parts IH]; simpl; [done|].
  destruct (Atoi p); [|done]. by destruct (atoiAll parts).
Qed.

Lemma parseTimestamp_no_panic s : parseTimestamp s ≠ Panic.
Proof.
  unfold parseTimestamp. case_match; [done|].
  pose proof (atoiAll_no_panic (Split colon s)).
  destruct (atoiAll (Split colon s)) as [nums| |]; [|done..]. simpl.
  destruct nums as [|n0 [|n1 [|n2 [|n3 nums]]]]; done.
Qed.

(** What the first block of ParseEventLine leaves: the line as it was, or
    the fields after a first field that is a timestamp. *)
Lemma splitTimestamp_cases line :
  splitTimestamp line = Ok (None, line)
  ∨ ∃ first rest dur,
      Fields line = first :: rest ∧ rest ≠ []
      ∧ parseTimestamp first = Ok dur
      ∧ splitTimestamp line = Ok (Some dur, Join rest (go " ")).
Proof.
  unfold splitTimestamp.
  destruct (Fields line) as [|first [|f2 rest]] eqn:Hf; simpl; [by left..|].
  destruct (Contains first [colon]); [|by left].
  pose proof (parseTimestamp_no_panic first).
  destruct (parseTimestamp first) as [dur|e|] eqn:Hp; [|by left|done].
  right. by exists first, (f2 :: rest), dur.
Qed.

Lemma Join_nonempty elems sep :
  elems ≠ [] → Forall (λ f, f ≠ []) elems → Join elems sep ≠ [].
Proof.
  destruct elems as [|a [|b rest]]; [done|..]; intros _ Hall; simpl.
  - by inversion Hall.
  - inversion Hall as [|?? Ha _]. by destruct a.
Qed.

(** The line left for the grammars is not empty. *)
Lemma splitTimestamp_nonempty line ts rest :
  line ≠ [] → splitTimestamp line = Ok (ts, rest) → rest ≠ [].
Proof.
  intros Hl Hs.
  destruct (splitTimestamp_cases line) as [H|(first & r & dur & Hf & Hr & _ & H)];
    rewrite H in Hs; injection Hs as <- <-; [done|].
  apply Join_nonempty; [done|].
  apply Forall_forall. intros f Hin. apply (Fields_nonempty line).
  rewrite Hf. by right.
Qed.

Lemma joinRegexp_Some line m :
  joinRegexp line = Some m →
  ∃ xuid num name,
    m = [line; go "J"; xuid; num; name]
    ∧ Split semicolon line = go "J" :: xuid :: num :: Split semicolon name
    ∧ forallb isDigit num = true ∧ num ≠ [].
Proof.
  unfold joinRegexp.
  destruct line as [|c0 [|c1 rest]]; [done..|].
  destruct (bool_decide (c0 = "J"%char)) eqn:E0; [|done].
  destruct (bool_decide (c1 = semicolon)) eqn:E1; [|done]. simpl.
  apply bool_decide_eq_true in E0 as ->. apply bool_decide_eq_true in E1 as ->.
  destruct (cut semicolon rest) as [[xuid rest1]|] eqn:C1; [|done].
  destruct (cut semicolon rest1) as [[num name]|] eqn:C2; [|done].
  destruct (xuidToken xuid); [|done]. simpl.
  destruct (forallb isDigit num) eqn:Hd; [|done]. simpl.
  destruct num as [|d num]; [done|]. simpl.
  case_match; [|done]. intros [= <-].
  exists xuid, (d :: num), name. split_and!; try done.
  change ("J"%char :: semicolon :: rest) with (go "J" ++ semicolon :: rest).
  rewrite Split_app_sep.
  - by rewrite (Split_cut _ _ _ _ C1), (Split_cut _ _ _ _ C2).
  - by intros ?%list_elem_of_singleton.
Qed.

Lemma parseJoinEvent_no_panic line ts raw : parseJoinEvent line ts raw ≠ Panic.
Proof.
  unfold parseJoinEvent. destruct (joinRegexp line) as [m|] eqn:Hm; [|done].
  apply joinRegexp_Some in Hm as (xuid & num & name & -> & _). simpl.
  by destruct (Atoi num).
Qed.

Lemma parseJoinEvent_Ok line ts raw ev :
  parseJoinEvent line ts raw = Ok ev →
  pBase ev = mkBase ts (go "J") raw
  ∧ (4 <= length (Split semicolon line))%nat
  ∧ ∃ num v, Split semicolon line !! 2%nat = Some num ∧ Atoi num = inl v.
Proof.
  unfold parseJoinEvent. destruct (joinRegexp line) as [m|] eqn:Hm; [|done].
  apply joinRegexp_Some in Hm as (xuid & num & name & -> & Hs & _). simpl.
  destruct (Atoi num) as [v|e] eqn:Ha; [|done]. intros [= <-].
  rewrite Hs. split_and!; [done| |by exists num, v].
  pose proof (Split_length semicolon name). simpl. lia.
Qed.

Lemma parseKillEvent_cases line ts raw :
  (∃ e, parseKillEvent line ts raw = Err e)
  ∨ ∃ ev p2 v,
      parseKillEvent line ts raw = Ok ev
      ∧ kBase ev = mkBase ts (go "K") raw
      ∧ length (Split semicolon line) = 13%nat
      ∧ Split semicolon line !! 2%nat = Some p2 ∧ Atoi p2 = inl v.
Proof.
  unfold parseKillEvent.
  destruct (length (Split semicolon line) =? 13)%nat eqn:Hl; simpl;
    [|left; by eexists].
  apply Nat.eqb_eq in Hl. revert Hl.
  generalize (Split semicolon line). intros parts Hl.
  do 13 (destruct parts as [|? parts]; [done|]).
  destruct parts; [|done]. simpl.
  destruct (bool_decide _); simpl; [|left; by eexists].
  match goal with |- context [Atoi ?p] =>
    destruct (Atoi p) as [v|e] eqn:Ha; [|left; by eexists]
  end.
  match goal with |- context [match Atoi ?p with _ => _ end] =>
    destruct (Atoi p) as [v'|e']; [|left; by eexists]
  end.
  right. by do 3 eexists.
Qed.

Lemma parsePlayerEvent_cases line ts raw :
  (∃ e, parsePlayerEvent line ts raw = Err e
        ∧ ((length (Split semicolon line) < 4)%nat
           ∨ ∃ p2, Split semicolon line !! 2%nat = Some p2
                   ∧ ∀ v, Atoi (TrimSpace p2) ≠ inl v))
  ∨ ∃ ev p0 p2 v,
      parsePlayerEvent line ts raw = Ok ev
      ∧ Split semicolon line !! 0%nat = Some p0
      ∧ pBase ev = mkBase ts (TrimSpace p0) raw
      ∧ (4 <= length (Split semicolon line))%nat
      ∧ Split semicolon line !! 2%nat = Some p2
      ∧ Atoi (TrimSpace p2) = inl v.
Proof.
  unfold parsePlayerEvent.
  pose proof (SplitN_length semicolon 4 line) as Hlen.
  pose proof (SplitN_lookup semicolon 5 line 0 ltac:(lia)) as H0.
  pose proof (SplitN_lookup semicolon 5 line 2 ltac:(lia)) as H2.
  revert Hlen H0 H2. generalize (SplitN semicolon 5 line). intros parts.
  intros Hlen H0 H2.
  destruct (length parts <? 4)%nat eqn:Hl.
  { left. eexists. split; [done|]. left. apply Nat.ltb_lt in Hl. lia. }
  apply Nat.ltb_ge in Hl.
  destruct parts as [|p0 [|p1 [|p2 [|p3 tl]]]]; simpl in Hl; try lia.
  simpl in H0, H2. simpl.
  assert (tl = [] ∨ ∃ p4, tl = [p4]) as [->|[p4 ->]].
  { destruct tl as [|p4 [|p5 tl]]; [by left|right; by eexists|].
    cbn [length] in Hlen. lia. }
  all: destruct (Atoi (TrimSpace p2)) as [v|e] eqn:Ha; simpl.
  all: first
    [ right; do 4 eexists; split_and!; [done|by symmetry|done| |by symmetry|done];
      cbn [length] in Hlen; lia
    | left; eexists; split; [done|]; right; exists p2; split; [by symmetry|];
      intros v'; congruence ].
Qed.

Lemma parsePlayerEvent_no_panic line ts raw :
  parsePlayerEvent line ts raw ≠ Panic.
Proof.
  destruct (parsePlayerEvent_cases line ts raw)
    as [(e & -> & _)|(ev & ? & ? & ? & -> & _)]; done.
Qed.

Lemma parseKillEvent_no_panic line ts raw : parseKillEvent line ts raw ≠ Panic.
Proof.
  destruct (parseKillEvent_cases line ts raw)
    as [(e & ->)|(ev & ? & ? & -> & _)]; done.
Qed.

Lemma parseChatPlayerEvent_cases line ts raw :
  (∃ e, parseChatPlayerEvent line ts raw = Err e)
  ∨ ∃ ev cmd, parseChatPlayerEvent line ts raw = Ok ev
              ∧ Fields line !! 0%nat = Some cmd
              ∧ pBase ev = mkBase ts cmd raw.
Proof.
  unfold parseChatPlayerEvent.
  destruct (Fields line) as [|f0 [|f1 [|f2 rest]]]; simpl;
    try (left; by eexists).
  right. by do 2 eexists.
Qed.

(** ParseEventLine returns an event or an error: no index is out of
    range. *)
Lemma ParseEventLine_no_panic line : ParseEventLine line ≠ Panic.
Proof.
  unfold ParseEventLine. case_bool_decide; [done|].
  destruct (splitTimestamp_cases (TrimSpace line))
    as [Hs|(first & r & dur & _ & _ & _ & Hs)]; rewrite Hs; clear Hs; simpl.
  all: repeat (case_match; try done).
  all: repeat match goal with
    | H : parseJoinEvent _ _ _ = Panic |- _ =>
        by apply parseJoinEvent_no_panic in H
    | H : parseKillEvent _ _ _ = Panic |- _ =>
        by apply parseKillEvent_no_panic in H
    | H : parsePlayerEvent _ _ _ = Panic |- _ =>
        by apply parsePlayerEvent_no_panic in H
    end.
  all: match goal with
    | |- context [parseChatPlayerEvent ?l ?t ?r] =>
        destruct (parseChatPlayerEvent_cases l t r)
          as [(e & ->)|(ev & ? & -> & _)]; done
    | |- context [parsePlayerEvent ?l ?t ?r] =>
        pose proof (parsePlayerEvent_no_panic l t r);
        by destruct (parsePlayerEvent l t r)
    end.
Qed.

(** C1, counterexample: the generic player grammar accepts a line whose
    first semicolon field is empty, and the event's command is the empty
    string. *)
Lemma command_empty_counterexample :
  ∃ ev, ParseEventLine (go ";x;1;name") = Ok ev ∧ GetCommand ev = [].
Proof. eexists. split; [vm_compute; reflexivity|reflexivity]. Qed.

(** C1, as amended: when ParseEventLine succeeds, the command of the event
    is not empty, provided the first semicolon-delimited field of the line
    left after the timestamp is not blank (empty or white space only). *)
Theorem command_nonempty line ev ts rest :
  ParseEventLine line = Ok ev →
  splitTimestamp (TrimSpace line) = Ok (ts, rest) →
  TrimSpace (default [] (head (Split semicolon rest))) ≠ [] →
  GetCommand ev ≠ [].
Proof.
  unfold ParseEventLine. case_bool_decide as Hne; [done|].
  intros Hp Hs Hfirst. rewrite Hs in Hp. cbn [bind] in Hp.
  pose proof (splitTimestamp_nonempty _ _ _ Hne Hs) as Hrest.
  destruct (HasPrefix rest (go "InitGame:")); [by injection Hp as <-|].
  destruct (HasPrefix rest (go "ShutdownGame:")); [by injection Hp as <-|].
  destruct (Contains rest [semicolon]).
  - destruct (parseJoinEvent rest ts (TrimSpace line)) as [j|e|] eqn:Hj.
    { injection Hp as <-. apply parseJoinEvent_Ok in Hj as [Hb _].
      unfold GetCommand. simpl. by rewrite Hb. }
    2: done.
    destruct (parseKillEvent_cases rest ts (TrimSpace line))
      as [(e' & Hk)|(k & ? & ? & Hk & Hb & _)]; rewrite Hk in Hp.
    2: { injection Hp as <-. unfold GetCommand. simpl. by rewrite Hb. }
    destruct (parsePlayerEvent_cases rest ts (TrimSpace line))
      as [(e'' & Hg & _)|(g & p0 & ? & ? & Hg & H0 & Hb & _)];
      rewrite Hg in Hp; [done|].
    injection Hp as <-. unfold GetCommand. simpl. rewrite Hb. simpl.
    rewrite head_lookup, H0 in Hfirst. done.
  - destruct (HasPrefix rest (go "say ") || HasPrefix rest (go "sayteam ")).
    + destruct (parseChatPlayerEvent_cases rest ts (TrimSpace line))
        as [(e & Hc)|(c & cmd & Hc & H0 & Hb)]; rewrite Hc in Hp; [done|].
      injection Hp as <-. unfold GetCommand. simpl. rewrite Hb. simpl.
      apply (Fields_nonempty rest). by eapply list_elem_of_lookup_2.
    + by injection Hp as <-.
Qed.

Lemma command_nonempty_witness :
  ∃ ev, ParseEventLine (go "1:02 a ;x;1;name") = Ok ev ∧ GetCommand ev ≠ [].
Proof.
  eexists. split; [vm_compute; reflexivity|].
  eapply (command_nonempty (go "1:02 a ;x;1;name")).
  - vm_compute. reflexivity.
  - vm_compute. reflexivity.
  - vm_compute. discriminate.
Defined.

(** C8: a trimmed line that is one white-space-delimited token never gets
    a timestamp, whatever the token looks like; and when the token starts
    no server line and holds no semicolon, the result is the base event
    whose command is the token. *)
Theorem single_token_no_timestamp line tok :
  Fields (TrimSpace line) = [tok] →
  (∀ ev, ParseEventLine line = Ok ev → GetTimestamp ev = None)
  ∧ (HasPrefix tok (go "InitGame:") = false →
     HasPrefix tok (go "ShutdownGame:") = false →
     Contains tok [semicolon] = false →
     ParseEventLine line = Ok (EBase (mkBase None tok tok))).
Proof.
  intros Hf. pose proof (Fields_TrimSpace_single _ _ Hf) as [Ht Hby].
  rewrite Ht in Hf.
  assert (tok ≠ []) as Hne by (by intros ->).
  assert (splitTimestamp tok = Ok (None, tok)) as Hs.
  { unfold splitTimestamp. by rewrite Hf. }
  unfold ParseEventLine. rewrite Ht, bool_decide_eq_false_2, Hs by done.
  cbn [bind]. split.
  - intros ev.
    destruct (HasPrefix tok (go "InitGame:")); [by intros [= <-]|].
    destruct (HasPrefix tok (go "ShutdownGame:")); [by intros [= <-]|].
    destruct (Contains tok [semicolon]).
    + destruct (parseJoinEvent tok None tok) as [j|e|] eqn:Hj.
      { intros [= <-]. apply parseJoinEvent_Ok in Hj as [Hb _].
        unfold GetTimestamp. simpl. by rewrite Hb. }
      2: done.
      destruct (parseKillEvent_cases tok None tok)
        as [(e' & Hk)|(k & ? & ? & Hk & Hb & _)]; rewrite Hk.
      2: { intros [= <-]. unfold GetTimestamp. simpl. by rewrite Hb. }
      destruct (parsePlayerEvent_cases tok None tok)
        as [(e'' & Hg & _)|(g & p0 & ? & ? & Hg & H0 & Hb & _)];
        rewrite Hg; [done|].
      intros [= <-]. unfold GetTimestamp. simpl. by rewrite Hb.
    + destruct (HasPrefix tok (go "say ") || HasPrefix tok (go "sayteam ")).
      * destruct (parseChatPlayerEvent_cases tok None tok)
          as [(e & Hc)|(c & cmd & Hc & H0 & Hb)]; rewrite Hc; [done|].
        intros [= <-]. unfold GetTimestamp. simpl. by rewrite Hb.
      * by intros [= <-].
  - intros -> -> ->.
    assert (∀ p, " "%char ∈ p → HasPrefix tok p = false) as Hsp.
    { intros p Hp. destruct (HasPrefix tok p) eqn:E; [|done].
      apply HasPrefix_app in E as [r ->].
      assert (asciiSpace " " = false) as Habs; [|done].
      apply (segments_By_no_space _ _ Hby). apply elem_of_app. by left. }
    rewrite !Hsp; [done|..]; unfold go; simpl; set_solver.
Qed.

Lemma single_token_no_timestamp_witness :
  (∀ ev, ParseEventLine (go " 12:34 ") = Ok ev → GetTimestamp ev = None)
  ∧ ParseEventLine (go " 12:34 ")
    = Ok (EBase (mkBase None (go "12:34") (go "12:34"))).
Proof.
  destruct (single_token_no_timestamp (go " 12:34 ") (go "12:34"))
    as [H1 H2]; [vm_compute; reflexivity|].
  split; [exact H1|]. apply H2; vm_compute; reflexivity.
Defined.

(** C4, counterexample: the raw line of the timestamped chat event keeps
    the timestamp, so it differs from the raw line of the plain one. *)
Lemma chat_timestamp_raw_counterexample :
  ∃ p1 p2,
    ParseEventLine (go "1:02:03 say PlayerOne hello") = Ok (EPlayer p1)
    ∧ ParseEventLine (go "say PlayerOne hello") = Ok (EPlayer p2)
    ∧ Raw (pBase p1) ≠ Raw (pBase p2).
Proof.
  do 2 eexists. split_and!; [vm_compute; reflexivity..|].
  vm_compute. discriminate.
Qed.

(** C4, as amended: the timestamped chat line gives a timestamp of 3723
    seconds and the same command, player, message, xuid and slot as the
    plain chat line; the raw line of each event is its own trimmed input,
    timestamp included. *)
Theorem chat_timestamp :
  ∃ p1 p2,
    ParseEventLine (go "1:02:03 say PlayerOne hello") = Ok (EPlayer p1)
    ∧ ParseEventLine (go "say PlayerOne hello") = Ok (EPlayer p2)
    ∧ Timestamp (pBase p1) = Some (3723 * Second)
    ∧ Timestamp (pBase p2) = None
    ∧ Command (pBase p1) = Command (pBase p2)
    ∧ Player p1 = Player p2
    ∧ Message p1 = Message p2
    ∧ XUID p1 = XUID p2
    ∧ Flag p1 = Flag p2
    ∧ Raw (pBase p1) = go "1:02:03 say PlayerOne hello"
    ∧ Raw (pBase p2) = go "say PlayerOne hello".
Proof.
  do 2 eexists. split_and!; [vm_compute; reflexivity..| | | | | | | | |];
    reflexivity.
Qed.

(** ** The tailer *)

Lemma run_pbind {Ev Ans R S W} (h : Handler Ev Ans W)
    (p : Prog Ev Ans R) (f : R → Prog Ev Ans S) w :
  run h (pbind p f) w =
  let '(r, w1, tr1) := run h p w in
  let '(s, w2, tr2) := run h (f r) w1 in
  (s, w2, tr1 ++ tr2).
Proof.
  revert w. induction p as [r|e k IH]; intros w; simpl.
  - by destruct (run h (f r) w) as [[s w2] tr2].
  - destruct (h e w) as [a w1]. rewrite IH.
    destruct (run h (k a) w1) as [[r w2] tr1].
    by destruct (run h (f r) w2) as [[s w3] tr2].
Qed.

(** A line that classification rejects. *)
Lemma unclassifiable_error line ts rest :
  splitTimestamp (TrimSpace line) = Ok (ts, rest) →
  Contains rest [semicolon] = true →
  HasPrefix rest (go "InitGame:") = false →
  HasPrefix rest (go "ShutdownGame:") = false →
  ((length (Split semicolon rest) < 4)%nat
   ∨ ∃ slot, Split semicolon rest !! 2%nat = Some slot
             ∧ ∀ v, Atoi (TrimSpace slot) ≠ inl v) →
  ∃ e, ParseEventLine line = Err e.
Proof.
  intros Hs Hsemi Hinit Hshut Hbad.
  assert (TrimSpace line ≠ []) as Hne.
  { intros Hnil. rewrite Hnil in Hs. by injection Hs as <- <-. }
  unfold ParseEventLine. rewrite bool_decide_eq_false_2, Hs by done.
  cbn [bind]. rewrite Hinit, Hshut, Hsemi.
  assert (∀ num v, Split semicolon rest !! 2%nat = Some num →
                   Atoi num = inl v → (4 <= length (Split semicolon rest))%nat →
                   False) as Hno.
  { intros num v Hnum Hv Hlen. destruct Hbad as [?|(slot & Hslot & Hnv)]; [lia|].
    simplify_eq. by eapply Hnv, Atoi_TrimSpace. }
  pose proof (parseJoinEvent_no_panic rest ts (TrimSpace line)).
  destruct (parseJoinEvent rest ts (TrimSpace line)) as [j|e|] eqn:Hj; [|clear Hj|done].
  { apply parseJoinEvent_Ok in Hj as (_ & Hlen & num & v & Hnum & Hv).
    by destruct (Hno num v). }
  destruct (parseKillEvent_cases rest ts (TrimSpace line))
    as [(e' & Hk)|(k & p2 & v & Hk & _ & Hlen & Hp2 & Hv)]; rewrite Hk.
  2: { destruct (Hno p2 v); [done..|lia]. }
  destruct (parsePlayerEvent_cases rest ts (TrimSpace line))
    as [(e'' & Hg & _)|(g & p0 & p2 & v & Hg & _ & _ & Hlen & Hp2 & Hv)];
    rewrite Hg; [by eexists|].
  destruct Hbad as [?|(slot & Hslot & Hnv)]; [lia|].
  simplify_eq. by destruct (Hnv v).
Qed.

(** C6, counterexample: a line with a semicolon and fewer than four
    semicolon fields, which none of the three player grammars accepts,
    still classifies as a server event when it starts with a server
    prefix. *)
Lemma server_prefix_counterexample :
  let line := go "ShutdownGame:;x" in
  Contains line [semicolon] = true
  ∧ (length (Split semicolon line) < 4)%nat
  ∧ (∃ e, parseJoinEvent line None line = Err e)
  ∧ (∃ e, parseKillEvent line None line = Err e)
  ∧ (∃ e, parsePlayerEvent line None line = Err e)
  ∧ ∃ ev, ParseEventLine line = Ok ev.
Proof.
  cbv zeta. split_and!.
  - vm_compute. reflexivity.
  - vm_compute. lia.
  - eexists. vm_compute. reflexivity.
  - eexists. vm_compute. reflexivity.
  - eexists. vm_compute. reflexivity.
  - eexists. vm_compute. reflexivity.
Qed.

(** C6, as amended: take a line whose remainder after the optional
    timestamp holds a semicolon and does not start with [InitGame:] or
    [ShutdownGame:].  If that remainder has fewer than four
    semicolon-delimited fields, or its slot field is not a number,
    ParseEventLine returns an error (not a panic); and a tailer iteration
    that reads such a line logs the error, sends nothing, and goes on
    with the next iteration in the same state. *)
Theorem unclassifiable_line_skipped line ts rest :
  splitTimestamp (TrimSpace line) = Ok (ts, rest) →
  Contains rest [semicolon] = true →
  HasPrefix rest (go "InitGame:") = false →
  HasPrefix rest (go "ShutdownGame:") = false →
  ((length (Split semicolon rest) < 4)%nat
   ∨ ∃ slot, Split semicolon rest !! 2%nat = Some slot
             ∧ ∀ v, Atoi (TrimSpace slot) ≠ inl v) →
  ∃ e,
    ParseEventLine line = Err e
    ∧ ∀ W (h : Handler tailEv tailAns W) st read w w1 w2 w3 fuel,
        TrimRight read [ascii_of_N 13; newline] = line →
        h EvCtxDone w = (false, w1) →
        h (EvReadString (tBuf st)) w1 = ((read, None), w2) →
        h (EvLog e) w2 = (tt, w3) →
        run h (tailStep (Reading st)) w
        = (Continue (Reading st), w3,
           [EvCtxDone; EvReadString (tBuf st); EvLog e])
        ∧ run h (tailLoop (S fuel) (Reading st)) w
          = (let '(r, w', tr) := run h (tailLoop fuel (Reading st)) w3 in
             (r, w', [EvCtxDone; EvReadString (tBuf st); EvLog e] ++ tr)).
Proof.
  intros Hs Hsemi Hinit Hshut Hbad.
  destruct (unclassifiable_error _ _ _ Hs Hsemi Hinit Hshut Hbad) as [e He].
  exists e. split; [done|].
  intros W h st read w w1 w2 w3 fuel Hread Hctx Hrd Hlog.
  assert (line ≠ []) as Hne.
  { intros ->. change (TrimSpace []) with (@nil ascii) in Hs.
    by injection Hs as <- <-. }
  assert (run h (tailStep (Reading st)) w
          = (Continue (Reading st), w3,
             [EvCtxDone; EvReadString (tBuf st); EvLog e])) as Hstep.
  { cbn [tailStep run]. rewrite Hctx. cbn [run]. rewrite Hrd.
    rewrite Hread, bool_decide_eq_false_2, He by done.
    cbn [run]. by rewrite Hlog. }
  split; [done|].
  cbn [tailLoop]. rewrite run_pbind, Hstep. done.
Qed.

Lemma unclassifiable_line_skipped_witness :
  ∃ e,
    ParseEventLine (go "a;b") = Err e
    ∧ run quietHandler (tailStep (Reading (mkTail 3%nat (NewReader 3%nat)))) tt
      = (Continue (Reading (mkTail 3%nat (NewReader 3%nat))), tt,
         [EvCtxDone; EvReadString (NewReader 3%nat); EvLog e]).
Proof.
  destruct (unclassifiable_line_skipped (go "a;b") None (go "a;b"))
    as (e & He & Hrun);
    [vm_compute; reflexivity..|left; vm_compute; lia|].
  exists e. split; [exact He|].
  apply (Hrun unit quietHandler (mkTail 3%nat (NewReader 3%nat))
           (go "a;b" ++ [newline]) tt tt tt tt 0%nat);
    vm_compute; reflexivity.
Defined.

(** C10: at end of file, when the stat of the path fails, the iteration
    performs no rotation check (no stat of the handle, no seek, no close,
    no open) and does not return the error; it waits one poll interval or
    for cancellation, and unless cancelled the loop goes on with its next
    iteration in the same state: the same handle and the same reader. *)
Theorem stat_failure_not_fatal
    W (h : Handler tailEv tailAns W) st w w1 w2 w3 w4 part e done fuel :
  h EvCtxDone w = (false, w1) →
  h (EvReadString (tBuf st)) w1 = ((part, Some EOF), w2) →
  h EvStat w2 = (inr e, w3) →
  h (EvSelectAfter pollInterval) w3 = (done, w4) →
  run h (tailStep (Reading st)) w
  = (if done then Return CtxErr else Continue (Reading st), w4,
     [EvCtxDone; EvReadString (tBuf st); EvStat; EvSelectAfter pollInterval])
  ∧ (done = false →
     run h (tailLoop (S fuel) (Reading st)) w
     = (let '(r, w', tr) := run h (tailLoop fuel (Reading st)) w4 in
        (r, w',
         [EvCtxDone; EvReadString (tBuf st); EvStat;
          EvSelectAfter pollInterval] ++ tr))).
Proof.
  intros Hctx Hrd Hstat Hsel.
  assert (run h (tailStep (Reading st)) w
          = (if done then Return CtxErr else Continue (Reading st), w4,
             [EvCtxDone; EvReadString (tBuf st); EvStat;
              EvSelectAfter pollInterval])) as Hstep.
  { cbn [tailStep run]. rewrite Hctx. cbn [run]. rewrite Hrd. cbn [run].
    rewrite Hstat. unfold pollWait. cbn [run]. rewrite Hsel.
    by destruct done. }
  split; [done|]. intros ->.
  cbn [tailLoop]. by rewrite run_pbind, Hstep.
Qed.

Lemma stat_failure_not_fatal_witness :
  run eofHandler (tailStep (Reading (mkTail 3%nat (NewReader 3%nat)))) tt
  = (Continue (Reading (mkTail 3%nat (NewReader 3%nat))), tt,
     [EvCtxDone; EvReadString (NewReader 3%nat); EvStat;
      EvSelectAfter pollInterval]).
Proof.
  exact (proj1 (stat_failure_not_fatal unit eofHandler
                  (mkTail 3%nat (NewReader 3%nat))
                  tt tt tt tt tt [] (IOFailure 2) false 0%nat
                  eq_refl eq_refl eq_refl eq_refl)).
Defined.

(** ** Key/value blobs *)

Lemma pairs_induction {A} (P : list A → Prop) :
  P [] → (∀ x, P [x]) → (∀ k v rest, P rest → P (k :: v :: rest)) →
  ∀ l, P l.
Proof.
  intros H0 H1 H2.
  assert (∀ l, P l ∧ ∀ x, P (x :: l)) as H; [|intros l; apply H].
  induction l as [|y l [IH1 IH2]]; split; auto.
Qed.

Lemma kvLoop_invariant (P : str → Prop) parts data :
  Forall P parts →
  (∀ k v, data !! k = Some v → P k ∧ P v) →
  ∀ k v, kvLoop parts data !! k = Some v → P k ∧ P v.
Proof.
  revert data.
  induction parts as [|x|key val rest IH] using pairs_induction;
    intros data Hparts Hdata; simpl; [done..|].
  inversion Hparts as [|?? Hk Hrest']; subst.
  inversion Hrest' as [|?? Hv Hrest]; subst.
  apply IH; [done|]. intros k v.
  destruct (decide (key = k)) as [->|Hne].
  - rewrite lookup_insert_eq. by intros [= <-].
  - rewrite lookup_insert_ne by done. apply Hdata.
Qed.

(** No key and no value of a parsed blob holds a backslash. *)
Lemma parseKeyValuePairs_no_backslash blob k v :
  parseKeyValuePairs blob !! k = Some v → (backslash ∉ k) ∧ (backslash ∉ v).
Proof.
  unfold parseKeyValuePairs. case_bool_decide; [done|].
  apply (kvLoop_invariant (λ p, backslash ∉ p)); [|done].
  apply Forall_drop, Split_pieces.
Qed.

Lemma kvLoop_flatKV l data :
  NoDup (l.*1) → kvLoop (flatKV l) data = list_to_map l ∪ data.
Proof.
  revert data. induction l as [|[k v] l IH]; intros data; simpl.
  - intros _. by rewrite (left_id_L ∅ (∪)).
  - intros [Hk Hl]%NoDup_cons. rewrite IH by done.
    rewrite <- insert_union_l. apply not_elem_of_list_to_map_1 in Hk.
    symmetry. by apply insert_union_r.
Qed.

Lemma Split_serialize pre l :
  backslash ∉ pre →
  Forall (λ kv, (backslash ∉ fst kv) ∧ (backslash ∉ snd kv)) l →
  Split backslash (pre ++ serialize l) = pre :: flatKV l.
Proof.
  revert pre. induction l as [|[k v] l IH]; intros pre Hpre Hl; simpl.
  - rewrite app_nil_r. by apply Split_no_sep.
  - inversion Hl as [|?? [Hk Hv] Hrest]; subst. simpl in *.
    rewrite (Split_app_sep _ pre) by done.
    rewrite (Split_app_sep _ k) by done.
    by rewrite IH.
Qed.

Lemma serialize_app l1 l2 : serialize (l1 ++ l2) = serialize l1 ++ serialize l2.
Proof.
  induction l1 as [|[k v] l1 IH]; simpl; [done|].
  rewrite IH. f_equal. rewrite <- app_assoc. simpl. by rewrite <- app_assoc.
Qed.

Lemma spaceRune_backslash s : spaceRune (backslash :: s) = None.
Proof. by destruct s as [|c2 [|c3 s]]. Qed.

(** Trimming on the right stops at a backslash. *)
Lemma TrimRightSpace_backslash pre v :
  TrimRightSpace (pre ++ backslash :: v) = pre ++ backslash :: TrimRightSpace v.
Proof.
  unfold TrimRightSpace.
  rewrite segments_app by done.
  rewrite (segments_byte _ _ (spaceRune_backslash v)).
  rewrite reverse_app, reverse_cons, <- app_assoc. simpl.
  rewrite dropSp_app_By, reverse_app, reverse_cons, reverse_involutive.
  rewrite !flatten_app, flatten_segments, <- app_assoc. done.
Qed.

Lemma TrimLeftSpace_backslash s : TrimLeftSpace (backslash :: s) = backslash :: s.
Proof.
  unfold TrimLeftSpace.
  rewrite (segments_byte _ _ (spaceRune_backslash s)). simpl.
  change (flatten (By backslash :: segments s))
    with (backslash :: flatten (segments s)).
  by rewrite flatten_segments.
Qed.

(** C3, counterexample: a value that ends in white space and is followed
    by an unpaired part.  Parsing keeps the white space; serializing the
    one pair puts the value last, where parsing trims it. *)
Lemma kv_roundtrip_counterexample :
  let blob := go "\a\x \b" in
  let m := parseKeyValuePairs blob in
  map_to_list m = [(go "a", go "x ")]
  ∧ parseKeyValuePairs (serialize (map_to_list m)) !! go "a" = Some (go "x")
  ∧ parseKeyValuePairs (serialize (map_to_list m)) ≠ m.
Proof.
  cbv zeta.
  assert (map_to_list (parseKeyValuePairs (go "\a\x \b"))
          = [(go "a", go "x ")]) as Hl by (vm_compute; reflexivity).
  rewrite Hl. split_and!; [done|vm_compute; reflexivity|].
  intros Heq. apply (f_equal (λ m : gmap str str, m !! go "a")) in Heq.
  vm_compute in Heq. discriminate.
Qed.

(** C3, as amended: parse a blob, write the pairs of the mapping out in
    any order as backslash-delimited pairs, and parse again: the mapping
    is the same, provided the value written last does not end in white
    space. *)
Theorem kv_roundtrip blob (l : list (str * str)) :
  l ≡ₚ map_to_list (parseKeyValuePairs blob) →
  (∀ k v, last l = Some (k, v) → TrimRightSpace v = v) →
  parseKeyValuePairs (serialize l) = parseKeyValuePairs blob.
Proof.
  set (m := parseKeyValuePairs blob). intros Hperm Hlast.
  assert (NoDup (l.*1)) as Hnd.
  { rewrite Hperm. apply NoDup_fst_map_to_list. }
  assert (Forall (λ kv, (backslash ∉ fst kv) ∧ (backslash ∉ snd kv)) l) as Hbs.
  { apply Forall_forall. intros [k v] Hin. rewrite Hperm in Hin.
    apply elem_of_map_to_list in Hin.
    by apply (parseKeyValuePairs_no_backslash blob). }
  assert (list_to_map l = m) as Hm.
  { rewrite (list_to_map_proper _ _ Hnd Hperm). apply list_to_map_to_list. }
  destruct l as [|kv l _] using rev_ind.
  { by rewrite <- Hm. }
  destruct kv as [k v].
  assert (TrimSpace (serialize (l ++ [(k, v)])) = serialize (l ++ [(k, v)]))
    as Htrim.
  { unfold TrimSpace.
    assert (∃ t, serialize (l ++ [(k, v)]) = backslash :: t) as [t Ht].
    { destruct l as [|[k0 v0] l]; simpl; by eexists. }
    rewrite Ht, TrimLeftSpace_backslash, <- Ht.
    rewrite serialize_app. simpl. rewrite app_nil_r.
    replace (serialize l ++ backslash :: k ++ backslash :: v)
      with ((serialize l ++ backslash :: k) ++ backslash :: v)
      by (by rewrite <- app_assoc).
    rewrite TrimRightSpace_backslash, (Hlast k v); [done|].
    by rewrite last_snoc. }
  unfold parseKeyValuePairs at 1. rewrite Htrim.
  rewrite bool_decide_eq_false_2.
  2: { destruct l as [|[k0 v0] l]; done. }
  rewrite <- (app_nil_l (serialize _)), Split_serialize; [|set_solver|done].
  simpl. rewrite drop_0, kvLoop_flatKV by done.
  by rewrite (right_id_L ∅ (∪)).
Qed.

Lemma kv_roundtrip_witness :
  parseKeyValuePairs (serialize [(go "g", go "dm "); (go "mapname", go "mp_raid")])
  = parseKeyValuePairs (go "\g\dm \mapname\mp_raid").
Proof.
  apply (kv_roundtrip (go "\g\dm \mapname\mp_raid")
           [(go "g", go "dm "); (go "mapname", go "mp_raid")]).
  - vm_compute. reflexivity.
  - intros k v [= <- <-]. vm_compute. reflexivity.
Defined.

(** ** The player directory *)

Lemma fresh_lookup (h : Heap) : h !! fresh (dom h) = None.
Proof. apply not_elem_of_dom, is_fresh. Qed.

(** A copy is a new array with the contents of its source. *)
Lemma copyOf_fresh src (h : Heap) :
  copyOf src h = (fresh (dom h), <[fresh (dom h) := src]> h).
Proof.
  unfold copyOf, make, copy. f_equal.
  rewrite lookup_insert_eq. simpl.
  rewrite length_replicate, insert_insert_eq.
  by rewrite firstn_all, drop_replicate, Nat.sub_diag, app_nil_r.
Qed.

Lemma contents_insert_fresh (h : Heap) l ps s :
  h !! l = None → contents h s ≠ [] →
  contents (<[l := ps]> h) s = contents h s.
Proof.
  intros Hl Hs. destruct s as [c|]; [|done]. simpl in *.
  destruct (decide (l = c)) as [->|Hne].
  - by rewrite Hl in Hs.
  - by rewrite lookup_insert_ne.
Qed.

(** C5: when the status source fails during a refresh, whether the cache
    was empty or had expired, Snapshot returns that error, and the
    directory (the cached slice and the expiry) and the heap (the
    contents of the cached slice) are the ones before the call. *)
Theorem status_failure_keeps_cache
    W (hd : Handler dirEv dirAns W) d (h : Heap) w wS wE err :
  ((len h (players d) = 0%nat ∧ wS = w)
   ∨ ((0 < len h (players d))%nat
      ∧ ∃ now, hd EvNow w = (now, wS) ∧ expires d <= now)) →
  hd EvStatus wS = (inr err, wE) →
  ∃ tr,
    run hd (Snapshot d h) w = (mkOut h d (inr err), wE, tr)
    ∧ last tr = Some EvStatus.
Proof.
  intros Hcase Hst. unfold Snapshot.
  destruct Hcase as [[Hlen ->]|(Hlen & now & Hnow & Hexp)].
  - rewrite Hlen. cbn [Nat.ltb Nat.leb refresh run]. rewrite Hst.
    by eexists.
  - apply Nat.ltb_lt in Hlen. rewrite Hlen. cbn [run]. rewrite Hnow.
    apply Z.ltb_ge in Hexp. rewrite Hexp. cbn [refresh run]. rewrite Hst.
    by eexists.
Qed.

Lemma status_failure_keeps_cache_witness :
  ∃ tr,
    run (fixedSource 50 (inr (StatusFailed (go "timeout"))))
      (Snapshot (mkDir 10 (Some 1%positive) 20) {[1%positive := [alice]]}) tt
    = (mkOut {[1%positive := [alice]]} (mkDir 10 (Some 1%positive) 20)
         (inr (StatusFailed (go "timeout"))), tt, tr)
    ∧ last tr = Some EvStatus.
Proof.
  apply (status_failure_keeps_cache unit
           (fixedSource 50 (inr (StatusFailed (go "timeout"))))
           (mkDir 10 (Some 1%positive) 20) {[1%positive := [alice]]}
           tt tt tt (StatusFailed (go "timeout"))).
  - right. split; [vm_compute; lia|]. exists 50. split; [reflexivity|].
    vm_compute. discriminate.
  - reflexivity.
Defined.

(** C2, counterexample: a refresh that succeeds with no players leaves an
    empty cache, and the next Snapshot, well before the expiry, asks the
    source again. *)
Lemma empty_refresh_counterexample :
  let hd := fixedSource 5 (inl []) in
  let '(out, _, tr1) := run hd (Snapshot (NewPlayerDirectory 10) ∅) tt in
  tr1 = [EvStatus; EvNow]
  ∧ (∃ r, oVal out = inl r)
  ∧ expires (oDir out) = 15
  ∧ (run hd (Snapshot (oDir out) (oHeap out)) tt).2 = [EvStatus; EvNow].
Proof. vm_compute. split_and!; try reflexivity. by eexists. Qed.

(** C2, as amended: after a refresh that fetched a sequence [ps] that is
    not empty, at clock reading [t], the expiry is [t + ttl]; every
    Snapshot that reads the clock before it, on a heap that still holds
    [ps] in the cached slice, returns [ps] in a newly made slice, leaves
    directory and cache alone and performs no event but reading the
    clock; a Snapshot at or after the expiry asks the source. *)
Theorem snapshot_within_ttl
    W (hd : Handler dirEv dirAns W) d0 (h0 : Heap) w0 w1 w2 ps t :
  hd EvStatus w0 = (inl ps, w1) →
  hd EvNow w1 = (t, w2) →
  ps ≠ [] →
  ∃ (h : Heap) d r0,
    run hd (refresh d0 h0) w0 = (mkOut h d (inl r0), w2, [EvStatus; EvNow])
    ∧ contents h (players d) = ps
    ∧ expires d = t + ttl d0
    ∧ ∀ (h' : Heap) w now w',
        contents h' (players d) = ps →
        hd EvNow w = (now, w') →
        (now < t + ttl d0 →
         ∃ l, run hd (Snapshot d h') w
              = (mkOut (<[l := ps]> h') d (inl (Some l)), w', [EvNow])
              ∧ h' !! l = None
              ∧ players d ≠ Some l
              ∧ contents (<[l := ps]> h') (Some l) = ps
              ∧ contents (<[l := ps]> h') (players d) = ps)
        ∧ (t + ttl d0 <= now →
           ∃ out w'' tr, run hd (Snapshot d h') w
                         = (out, w'', EvNow :: EvStatus :: tr)).
Proof.
  intros Hst Hnow Hps.
  unfold refresh. cbn [run]. rewrite Hst.
  rewrite (copyOf_fresh ps h0). cbn [run]. rewrite Hnow.
  set (c := fresh (dom h0)). set (h1 := <[c := ps]> h0).
  rewrite (copyOf_fresh ps h1).
  set (r := fresh (dom h1)).
  do 3 eexists. split; [reflexivity|]. cbn [players expires ttl].
  assert (r ≠ c) as Hrc.
  { intros Heq. pose proof (fresh_lookup h1) as Hf. fold r in Hf.
    rewrite Heq in Hf. unfold h1 in Hf. by rewrite lookup_insert_eq in Hf. }
  split_and!.
  - simpl. rewrite lookup_insert_ne by done. unfold h1.
    by rewrite lookup_insert_eq.
  - done.
  - intros h' w now w' Hc Hn.
    assert ((0 <? len h' (Some c))%nat = true) as Hlen.
    { apply Nat.ltb_lt. unfold len. rewrite Hc. destruct ps; [done|]. simpl. lia. }
    unfold Snapshot. cbn [players expires]. rewrite Hlen. cbn [run].
    rewrite Hn. split.
    + intros Hlt. apply Z.ltb_lt in Hlt. rewrite Hlt.
      rewrite Hc, (copyOf_fresh ps h'). cbn [run].
      exists (fresh (dom h')). pose proof (fresh_lookup h') as Hf.
      split_and!; [done|done| | |].
      * intros [= Heq]. simpl in Hc. rewrite Heq, Hf in Hc. by subst ps.
      * simpl. by rewrite lookup_insert_eq.
      * rewrite contents_insert_fresh; [done|done|]. by rewrite Hc.
    + intros Hge. apply Z.ltb_ge in Hge. rewrite Hge.
      unfold refresh. cbn [run].
      destruct (hd EvStatus w') as [[qs|err] w3]; cbn [run].
      * destruct (copyOf qs h') as [c' h1'].
        cbn [run]. destruct (hd EvNow w3) as [now3 w4].
        destruct (copyOf qs h1') as [r' h2']. cbn [run]. by do 3 eexists.
      * by do 3 eexists.
Qed.

Lemma snapshot_within_ttl_witness :
  let hd := fixedSource 5 (inl [alice]) in
  ∃ (h : Heap) d r0,
    run hd (refresh (NewPlayerDirectory 10) ∅) tt
    = (mkOut h d (inl r0), tt, [EvStatus; EvNow])
    ∧ ∃ l, run hd (Snapshot d h) tt
           = (mkOut (<[l := [alice]]> h) d (inl (Some l)), tt, [EvNow])
           ∧ players d ≠ Some l.
Proof.
  intros hd.
  destruct (snapshot_within_ttl unit hd (NewPlayerDirectory 10) ∅
              tt tt tt [alice] 5 eq_refl eq_refl ltac:(discriminate))
    as (h & d & r0 & Hrun & Hc & He & Hnext).
  exists h, d, r0. split; [exact Hrun|].
  destruct (Hnext h tt 5 tt Hc eq_refl) as [Hhit _].
  destruct (Hhit ltac:(vm_compute; reflexivity)) as (l & Hl & _ & Hne & _).
  by exists l.
Defined.

(** The first player that passes a test, in the order of the sequence. *)
Lemma firstPlayer_Some test ps p :
  firstPlayer test ps = Some p ↔
  ∃ i, ps !! i = Some p ∧ test p = true
       ∧ ∀ j q, (j < i)%nat → ps !! j = Some q → test q = false.
Proof.
  induction ps as [|x ps IH]; simpl.
  - split; [done|]. by intros (i & ? & _).
  - destruct (test x) eqn:Hx.
    + split.
      * intros [= <-]. exists 0%nat. split_and!; [done..|]. intros; lia.
      * intros ([|i] & Hi & Hp & Hbefore); [by injection Hi as <-|].
        specialize (Hbefore 0%nat x ltac:(lia) eq_refl). congruence.
    + rewrite IH. split.
      * intros (i & Hi & Hp & Hbefore). exists (S i). split_and!; [done..|].
        intros [|j] q Hj Hq; [by injection Hq as <-|].
        apply (Hbefore j); [lia|done].
      * intros ([|i] & Hi & Hp & Hbefore).
        { injection Hi as <-. congruence. }
        exists i. split_and!; [done..|].
        intros j q Hj Hq. apply (Hbefore (S j)); [lia|done].
Qed.

Lemma firstPlayer_None test ps :
  firstPlayer test ps = None ↔ ∀ p, p ∈ ps → test p = false.
Proof.
  induction ps as [|x ps IH]; simpl.
  - split; [|done]. by intros _ p ?%elem_of_nil.
  - destruct (test x) eqn:Hx.
    + split; [done|]. intros H. specialize (H x ltac:(by left)). congruence.
    + rewrite IH. split.
      * intros H p [->|Hp]%elem_of_cons; [done|by apply H].
      * intros H p Hp. apply H. by right.
Qed.

Section FinderProperties.

Variable ToLower : str → str.

(** C9: a query that is empty once colour codes and surrounding white
    space are gone makes FindByName return at once: not found, no
    error, heap and directory as they were, and no event at all, so
    neither the clock nor the source is asked. *)
Theorem empty_query_not_found name d (h : Heap) :
  TrimSpace (stripColorCodes name) = [] →
  FindByName ToLower name d h = Ret (mkOut h d (inl None))
  ∧ ∀ W (hd : Handler dirEv dirAns W) w,
      run hd (FindByName ToLower name d h) w = (mkOut h d (inl None), w, []).
Proof.
  intros Hq. unfold FindByName. rewrite Hq.
  rewrite bool_decide_eq_true_2 by done. done.
Qed.

(** C7, as amended: for a query that is not empty once colour codes
    and surrounding white space are gone, FindByName takes a snapshot
    and passes its error on; on the players of the snapshot it returns
    the first one, in snapshot order, whose colour-stripped, lowered
    name contains the lowered query, and not-found when no name
    does. *)
Theorem find_by_name
    name d (h : Heap) W (hd : Handler dirEv dirAns W) w out w' tr :
  let q := TrimSpace (stripColorCodes name) in
  let matches p :=
    Contains (ToLower (stripColorCodes (Name p))) (ToLower q) = true in
  q ≠ [] →
  run hd (Snapshot d h) w = (out, w', tr) →
  ∃ res,
    run hd (FindByName ToLower name d h) w
    = (mkOut (oHeap out) (oDir out) res, w', tr)
    ∧ match oVal out, res with
      | inr err, inr err' => err' = err
      | inl s, inl (Some p) =>
          ∃ i, contents (oHeap out) s !! i = Some p ∧ matches p
               ∧ ∀ j p', (j < i)%nat →
                         contents (oHeap out) s !! j = Some p' →
                         ¬ matches p'
      | inl s, inl None =>
          ∀ p, p ∈ contents (oHeap out) s → ¬ matches p
      | _, _ => False
      end.
Proof.
  intros q matches Hq Hrun. unfold FindByName. fold q.
  rewrite bool_decide_eq_false_2 by done.
  rewrite run_pbind, Hrun.
  destruct out as [h1 d1 [s|err]]; cbn [run oVal oHeap oDir];
    rewrite app_nil_r.
  2: { eexists. split; [reflexivity|done]. }
  eexists. split; [reflexivity|].
  destruct (firstPlayer _ _) as [p|] eqn:Hf.
  - apply firstPlayer_Some in Hf as (i & Hi & Hp & Hbefore).
    exists i. split_and!; [done..|].
    intros j p' Hj Hp' Hm. specialize (Hbefore j p' Hj Hp').
    unfold matches in *. simpl in Hp, Hbefore. congruence.
  - intros p Hp Hm. rewrite firstPlayer_None in Hf.
    specialize (Hf p Hp). unfold matches in *. simpl in Hf. congruence.
Qed.

End FinderProperties.

Lemma empty_query_not_found_witness :
  FindByName asciiLower (go " ^7 ")
    (mkDir 10 (Some 1%positive) 20) {[1%positive := [alice]]}
  = Ret (mkOut {[1%positive := [alice]]} (mkDir 10 (Some 1%positive) 20)
           (inl None)).
Proof.
  apply (empty_query_not_found asciiLower (go " ^7 ")).
  vm_compute. reflexivity.
Defined.

(** C7, counterexample: the query [^7] is empty once its colour code is
    gone; the cached player's stripped name contains the empty string,
    and still FindByName returns not-found. *)
Lemma empty_query_counterexample :
  let d := mkDir 10 (Some 1%positive) 20 in
  let h : Heap := {[1%positive := [alice]]} in
  let q := TrimSpace (stripColorCodes (go "^7")) in
  contents h (players d) = [alice]
  ∧ Contains (asciiLower (stripColorCodes (Name alice))) (asciiLower q) = true
  ∧ (run (fixedSource 5 (inl [alice])) (FindByName asciiLower (go "^7") d h) tt).1.1
    = mkOut h d (inl None).
Proof. cbv zeta. split_and!; vm_compute; reflexivity. Qed.

Lemma find_by_name_witness :
  ∃ res,
    run (fixedSource 5 (inl [alice]))
      (FindByName asciiLower (go " ^2aLi ")
         (mkDir 10 (Some 1%positive) 20) {[1%positive := [alice]]}) tt
    = (mkOut (<[2%positive := [alice]]> {[1%positive := [alice]]})
         (mkDir 10 (Some 1%positive) 20) res, tt, [EvNow])
    ∧ res = inl (Some alice).
Proof.
  destruct (find_by_name asciiLower (go " ^2aLi ")
              (mkDir 10 (Some 1%positive) 20) {[1%positive := [alice]]}
              unit (fixedSource 5 (inl [alice])) tt
              (mkOut (<[2%positive := [alice]]> {[1%positive := [alice]]})
                 (mkDir 10 (Some 1%positive) 20) (inl (Some 2%positive)))
              tt [EvNow])
    as (res & Hrun & Hres).
  - vm_compute. discriminate.
  - vm_compute. reflexivity.
  - exists res. split; [exact Hrun|].
    vm_compute in Hrun. by injection Hrun as <-.
Defined.

(** * Further properties of the package *)

(** X1: ParseEventLine returns an event or an error on every input: no
    index of any of the parsers is out of range, so no line makes it
    panic. *)
Theorem parse_returns line :
  (∃ ev, ParseEventLine line = Ok ev) ∨ (∃ e, ParseEventLine line = Err e).
Proof.
  pose proof (ParseEventLine_no_panic line) as H.
  destruct (ParseEventLine line) as [ev|e|]; [left|right|done]; by eexists.
Qed.

(** ** Trimmed lines, raw lines and timestamps *)

Lemma dropSp_fix l :
  match l with Sp _ :: _ => False | _ => True end → dropSp l = l.
Proof. by destruct l as [|[w|c] l]. Qed.

(** What is left of a decoding after trimming starts and ends with no
    white space. *)
Lemma trimmed_ends l :
  dropSp (reverse (dropSp (reverse (dropSp l))))
  = reverse (dropSp (reverse (dropSp l)))
  ∧ dropSp (reverse (reverse (dropSp (reverse (dropSp l)))))
    = reverse (reverse (dropSp (reverse (dropSp l)))).
Proof.
  split.
  - apply dropSp_fix.
    destruct (dropSp_reverse (dropSp l)) as (l2 & Hm & _).
    pose proof (dropSp_head l) as Hh. rewrite Hm in Hh.
    by destruct (reverse (dropSp (reverse (dropSp l)))) as [|[w|c] ?].
  - rewrite reverse_involutive. apply dropSp_fix, dropSp_head.
Qed.

Lemma TrimSpace_idempotent s : TrimSpace (TrimSpace s) = TrimSpace s.
Proof.
  rewrite <- (flatten_segments (TrimSpace (TrimSpace s))).
  rewrite segments_TrimSpace, segments_TrimSpace.
  destruct (trimmed_ends (segments s)) as [H1 H2].
  rewrite H1, H2, reverse_involutive.
  by rewrite <- segments_TrimSpace, flatten_segments.
Qed.

(** The base record of every event ParseEventLine returns. *)
Lemma ParseEventLine_base line ev ts rest :
  ParseEventLine line = Ok ev →
  splitTimestamp (TrimSpace line) = Ok (ts, rest) →
  GetTimestamp ev = ts ∧ GetRaw ev = TrimSpace line.
Proof.
  unfold ParseEventLine. case_bool_decide as Hne; [done|].
  intros Hp Hs. rewrite Hs in Hp. cbn [bind] in Hp.
  unfold GetTimestamp, GetRaw.
  destruct (HasPrefix rest (go "InitGame:")); [by injection Hp as <-|].
  destruct (HasPrefix rest (go "ShutdownGame:")); [by injection Hp as <-|].
  destruct (Contains rest [semicolon]).
  - destruct (parseJoinEvent rest ts (TrimSpace line)) as [j|e|] eqn:Hj.
    { injection Hp as <-. apply parseJoinEvent_Ok in Hj as [Hb _].
      simpl. by rewrite Hb. }
    2: done.
    destruct (parseKillEvent_cases rest ts (TrimSpace line))
      as [(e' & Hk)|(k & ? & ? & Hk & Hb & _)]; rewrite Hk in Hp.
    2: { injection Hp as <-. simpl. by rewrite Hb. }
    destruct (parsePlayerEvent_cases rest ts (TrimSpace line))
      as [(e'' & Hg & _)|(g & p0 & ? & ? & Hg & H0 & Hb & _)];
      rewrite Hg in Hp; [done|].
    injection Hp as <-. simpl. by rewrite Hb.
  - destruct (HasPrefix rest (go "say ") || HasPrefix rest (go "sayteam ")).
    + destruct (parseChatPlayerEvent_cases rest ts (TrimSpace line))
        as [(e & Hc)|(c & cmd & Hc & H0 & Hb)]; rewrite Hc in Hp; [done|].
      injection Hp as <-. simpl. by rewrite Hb.
    + by injection Hp as <-.
Qed.

Lemma parseTimestamp_colon s d :
  parseTimestamp s = Ok d → Contains s [colon] = true.
Proof.
  unfold parseTimestamp.
  destruct (length (Split colon s) <? 2)%nat eqn:Hl; [done|]. intros _.
  apply Nat.ltb_ge in Hl. rewrite Contains_sep. apply bool_decide_eq_true.
  destruct (decide (colon ∈ s)) as [|Hn]; [done|].
  apply cut_None in Hn. rewrite (Split_None _ _ Hn) in Hl. simpl in Hl. lia.
Qed.

(** X2: the raw line of a parsed event is the whole trimmed input, and
    the event has a timestamp exactly when the trimmed input has two or
    more fields and the first one parses as a timestamp; the timestamp is
    then that value. *)
Theorem result_raw_and_timestamp line ev :
  ParseEventLine line = Ok ev →
  GetRaw ev = TrimSpace line
  ∧ ∀ d, GetTimestamp ev = Some d ↔
         ∃ first rest, Fields (TrimSpace line) = first :: rest
                       ∧ rest ≠ [] ∧ parseTimestamp first = Ok d.
Proof.
  intros Hp.
  destruct (splitTimestamp_cases (TrimSpace line))
    as [Hs|(first & r & dur & Hf & Hr & Hd & Hs)];
    destruct (ParseEventLine_base _ _ _ _ Hp Hs) as [Hts Hraw];
    (split; [done|]); intros d; rewrite Hts.
  - split; [done|]. intros (first & rest & Hf & Hr & Hd). exfalso.
    unfold splitTimestamp in Hs. rewrite Hf in Hs.
    destruct rest as [|f2 rest]; [done|]. simpl in Hs.
    by rewrite (parseTimestamp_colon _ _ Hd), Hd in Hs.
  - split.
    + intros [= <-]. by exists first, r.
    + intros (first' & rest' & Hf' & _ & Hd'). rewrite Hf in Hf'.
      injection Hf' as <- <-. congruence.
Qed.

Lemma result_raw_and_timestamp_witness :
  ∃ ev, ParseEventLine (go " 0:07 map_restart ") = Ok ev
        ∧ GetRaw ev = go "0:07 map_restart"
        ∧ GetTimestamp ev = Some (7 * Second).
Proof.
  eexists. split; [vm_compute; reflexivity|].
  destruct (result_raw_and_timestamp (go " 0:07 map_restart ") _
              ltac:(vm_compute; reflexivity)) as [Hraw Hts].
  split; [exact Hraw|]. apply Hts.
  exists (go "0:07"), [go "map_restart"]. by vm_compute.
Defined.

(** X3: classifying the raw line of a parsed event gives the same event
    again. *)
Theorem raw_reparses line ev :
  ParseEventLine line = Ok ev → ParseEventLine (GetRaw ev) = Ok ev.
Proof.
  intros Hp.
  assert (GetRaw ev = TrimSpace line) as ->.
  { destruct (splitTimestamp_cases (TrimSpace line))
      as [Hs|(first & r & dur & Hf & Hr & Hd & Hs)];
      by destruct (ParseEventLine_base _ _ _ _ Hp Hs). }
  rewrite <- Hp. unfold ParseEventLine. by rewrite TrimSpace_idempotent.
Qed.

Lemma raw_reparses_witness :
  ∃ ev, ParseEventLine (go "  J;0110;4;Al;ice ") = Ok ev
        ∧ ParseEventLine (GetRaw ev) = Ok ev.
Proof.
  eexists. split; [vm_compute; reflexivity|].
  apply (raw_reparses (go "  J;0110;4;Al;ice ")). vm_compute. reflexivity.
Defined.

(** ** Which errors and which variants ParseEventLine returns *)

Lemma parsePlayerEvent_error line ts raw e :
  parsePlayerEvent line ts raw = Err e →
  (e = ErrInvalidPlayerLine line ∧ (length (Split semicolon line) < 4)%nat)
  ∨ ∃ p2 c, e = ErrInvalidFlag p2 c
            ∧ Split semicolon line !! 2%nat = Some p2
            ∧ Atoi (TrimSpace p2) = inr c.
Proof.
  unfold parsePlayerEvent.
  pose proof (SplitN_length semicolon 4 line) as Hlen.
  pose proof (SplitN_lookup semicolon 5 line 2 ltac:(lia)) as H2.
  revert Hlen H2. generalize (SplitN semicolon 5 line). intros parts Hlen H2.
  destruct (length parts <? 4)%nat eqn:Hl.
  { intros [= <-]. left. split; [done|]. apply Nat.ltb_lt in Hl. lia. }
  apply Nat.ltb_ge in Hl.
  destruct parts as [|p0 [|p1 [|p2 [|p3 tl]]]]; simpl in Hl; try lia.
  simpl in H2. simpl.
  destruct (Atoi (TrimSpace p2)) as [v|c] eqn:Ha.
  - destruct (length tl =? 1)%nat; [|done].
    by destruct tl as [|p4 tl].
  - intros [= <-]. right. by exists p2, c.
Qed.

Lemma parseChatPlayerEvent_error line ts raw e :
  parseChatPlayerEvent line ts raw = Err e →
  e = ErrInvalidChatLine line ∧ (length (Fields line) < 3)%nat.
Proof.
  unfold parseChatPlayerEvent.
  destruct (Fields line) as [|f0 [|f1 [|f2 rest]]]; simpl;
    intros [= <-]; (split; [done|lia]).
Qed.

(** X4: the only errors ParseEventLine returns are: the empty-line error,
    for input that is white space only; the two errors of the generic
    player grammar, for a line with a semicolon that has fewer than four
    semicolon fields or a slot that is no number; and the chat error, for
    a say or sayteam line with fewer than three fields.  The errors of
    the join grammar, the kill grammar and the timestamp parser are never
    passed on. *)
Theorem classify_errors line e :
  ParseEventLine line = Err e →
  (e = ErrEmptyLine ∧ TrimSpace line = [])
  ∨ ∃ ts rest,
      splitTimestamp (TrimSpace line) = Ok (ts, rest)
      ∧ ((Contains rest [semicolon] = true
          ∧ e = ErrInvalidPlayerLine rest
          ∧ (length (Split semicolon rest) < 4)%nat)
         ∨ (Contains rest [semicolon] = true
            ∧ ∃ slot c, e = ErrInvalidFlag slot c
                        ∧ Split semicolon rest !! 2%nat = Some slot
                        ∧ Atoi (TrimSpace slot) = inr c)
         ∨ (Contains rest [semicolon] = false
            ∧ (HasPrefix rest (go "say ") || HasPrefix rest (go "sayteam "))
              = true
            ∧ e = ErrInvalidChatLine rest
            ∧ (length (Fields rest) < 3)%nat)).
Proof.
  unfold ParseEventLine. case_bool_decide as Hne; [intros [= <-]; by left|].
  destruct (splitTimestamp_cases (TrimSpace line))
    as [Hs|(first & r & dur & _ & _ & _ & Hs)]; rewrite Hs; cbn [bind];
    intros Hp; right; do 2 eexists; (split; [reflexivity|]).
  all: destruct (HasPrefix _ (go "InitGame:")); [done|].
  all: destruct (HasPrefix _ (go "ShutdownGame:")); [done|].
  all: destruct (Contains _ [semicolon]) eqn:Hsemi.
  all: try (destruct (parseJoinEvent _ _ _) as [j|ej|]; [done| |done];
            destruct (parseKillEvent _ _ _) as [k|ek|]; [done| |done];
            destruct (parsePlayerEvent _ _ _) as [g|eg|] eqn:Hg;
              [done| |done];
            injection Hp as <-;
            apply parsePlayerEvent_error in Hg
              as [[-> Hl]|(p2 & c & -> & H2 & Ha)];
            [left; by split_and!|right; left; split; [done|by exists p2, c]]).
  all: destruct (_ || _) eqn:Hchat; [|done].
  all: destruct (parseChatPlayerEvent _ _ _) as [c|ec|] eqn:Hc; [done| |done].
  all: injection Hp as <-; apply parseChatPlayerEvent_error in Hc as [-> Hl].
  all: right; right; by split_and!.
Qed.

Lemma classify_errors_witness :
  ∃ e, ParseEventLine (go "1:30 a;b") = Err e
       ∧ e = ErrInvalidPlayerLine (go "a;b").
Proof.
  assert (∃ e, ParseEventLine (go "1:30 a;b") = Err e) as [e He]
    by (eexists; vm_compute; reflexivity).
  exists e. split; [exact He|].
  destruct (classify_errors _ _ He)
    as [[_ Hnil]|(ts & rest & Hs & [(_ & -> & _)|[(_ & slot & c & _ & H2 & _)
                                                 |(Hsemi & _)]])].
  - vm_compute in Hnil. discriminate.
  - vm_compute in Hs. by injection Hs as <- <-.
  - vm_compute in Hs. injection Hs as <- <-. vm_compute in H2. discriminate.
  - vm_compute in Hs. injection Hs as <- <-. vm_compute in Hsemi. discriminate.
Defined.

(** X5: which variant comes back is decided by the line left after the
    timestamp: a server event exactly for the two server prefixes, with
    the parsed blob or no data; a kill event only for a line with a
    semicolon and exactly thirteen semicolon fields; a player event only
    for a line with a semicolon or a chat prefix; a base event only for a
    line with neither, and its command is that whole line. *)
Theorem result_variant line ev ts rest :
  ParseEventLine line = Ok ev →
  splitTimestamp (TrimSpace line) = Ok (ts, rest) →
  match ev with
  | EServer s =>
      (HasPrefix rest (go "InitGame:") = true
       ∧ Command (sBase s) = go "InitGame"
       ∧ Data s = parseKeyValuePairs (TrimPrefix rest (go "InitGame:")))
      ∨ (HasPrefix rest (go "InitGame:") = false
         ∧ HasPrefix rest (go "ShutdownGame:") = true
         ∧ Command (sBase s) = go "ShutdownGame"
         ∧ Data s = ∅)
  | EKill k =>
      HasPrefix rest (go "InitGame:") = false
      ∧ HasPrefix rest (go "ShutdownGame:") = false
      ∧ Contains rest [semicolon] = true
      ∧ length (Split semicolon rest) = 13%nat
      ∧ Command (kBase k) = go "K"
  | EPlayer p =>
      HasPrefix rest (go "InitGame:") = false
      ∧ HasPrefix rest (go "ShutdownGame:") = false
      ∧ (Contains rest [semicolon] = true
         ∨ (HasPrefix rest (go "say ") || HasPrefix rest (go "sayteam "))
           = true)
  | EBase b =>
      HasPrefix rest (go "InitGame:") = false
      ∧ HasPrefix rest (go "ShutdownGame:") = false
      ∧ Contains rest [semicolon] = false
      ∧ (HasPrefix rest (go "say ") || HasPrefix rest (go "sayteam "))
        = false
      ∧ Command b = rest
  end.
Proof.
  unfold ParseEventLine. case_bool_decide as Hne; [done|].
  intros Hp Hs. rewrite Hs in Hp. cbn [bind] in Hp.
  destruct (HasPrefix rest (go "InitGame:")) eqn:Hi.
  { injection Hp as <-. by left. }
  destruct (HasPrefix rest (go "ShutdownGame:")) eqn:Hsh.
  { injection Hp as <-. right. by split_and!. }
  destruct (Contains rest [semicolon]) eqn:Hsemi.
  - destruct (parseJoinEvent rest ts (TrimSpace line)) as [j|e|] eqn:Hj.
    { injection Hp as <-. split_and!; auto. }
    2: done.
    destruct (parseKillEvent_cases rest ts (TrimSpace line))
      as [(e' & Hk)|(k & ? & ? & Hk & Hb & Hl & _)]; rewrite Hk in Hp.
    2: { injection Hp as <-. split_and!; try done. by rewrite Hb. }
    destruct (parsePlayerEvent rest ts (TrimSpace line)) as [g|eg|];
      [|done..].
    injection Hp as <-. split_and!; auto.
  - destruct (HasPrefix rest (go "say ") || HasPrefix rest (go "sayteam "))
      eqn:Hchat.
    + destruct (parseChatPlayerEvent rest ts (TrimSpace line)) as [c|ec|];
        [|done..].
      injection Hp as <-. split_and!; auto.
    + injection Hp as <-. by split_and!.
Qed.

Lemma result_variant_witness :
  ∃ k, ParseEventLine
         (go "2:15 K;a;1;axis;A;b;2;allies;B;ak47;30;MOD_RIFLE;head")
       = Ok (EKill k)
       ∧ length (Split semicolon
                   (go "K;a;1;axis;A;b;2;allies;B;ak47;30;MOD_RIFLE;head"))
         = 13%nat.
Proof.
  assert (∃ k, ParseEventLine
                 (go "2:15 K;a;1;axis;A;b;2;allies;B;ak47;30;MOD_RIFLE;head")
               = Ok (EKill k)) as [k Hk]
    by (eexists; vm_compute; reflexivity).
  exists k. split; [exact Hk|].
  by destruct (result_variant _ _ (Some (135 * Second))
                 (go "K;a;1;axis;A;b;2;allies;B;ak47;30;MOD_RIFLE;head")
                 Hk ltac:(vm_compute; reflexivity))
    as (_ & _ & _ & Hl & _).
Defined.

(** ** Timestamps *)

(** What Atoi accepts is made of digits and signs, and its value fits
    Go's [int]. *)
Lemma Atoi_inl s v :
  Atoi s = inl v →
  forallb signOrDigit s = true ∧ int64_min <= v <= int64_max.
Proof.
  unfold Atoi.
  assert (∀ ds, forallb isDigit ds = true → forallb signOrDigit ds = true)
    as Hd.
  { intros ds. rewrite !forallb_forall. intros H c Hc.
    unfold signOrDigit. by rewrite (H c Hc). }
  assert (∀ ds neg w,
            match ds with
            | [] => inr (AtoiError s)
            | _ :: _ =>
                if forallb isDigit ds
                then
                  if (int64_min <=? (if neg : bool then - digits_val ds
                                     else digits_val ds))
                     && ((if neg then - digits_val ds else digits_val ds)
                         <=? int64_max)
                  then inl (if neg then - digits_val ds else digits_val ds)
                  else inr (AtoiError s)
                else inr (AtoiError s)
            end = inl w →
            forallb isDigit ds = true ∧ int64_min <= w <= int64_max) as Hcore.
  { intros ds neg w. destruct ds as [|d ds]; [done|].
    destruct (forallb isDigit (d :: ds)); [|done].
    destruct (_ && _) eqn:Hr; [|done]. intros [= <-].
    apply andb_true_iff in Hr as [?%Z.leb_le ?%Z.leb_le]. done. }
  destruct s as [|c r]; [done|].
  destruct (bool_decide (c = "-"%char)) eqn:E1;
    [apply bool_decide_eq_true in E1 as ->
    |destruct (bool_decide (c = "+"%char)) eqn:E2;
       [apply bool_decide_eq_true in E2 as ->|]].
  - intros H. apply (Hcore r true) in H as [Hdig Hr]. split; [|done].
    change (signOrDigit "-" && forallb signOrDigit r = true).
    by rewrite (Hd _ Hdig).
  - intros H. apply (Hcore r false) in H as [Hdig Hr]. split; [|done].
    change (signOrDigit "+" && forallb signOrDigit r = true).
    by rewrite (Hd _ Hdig).
  - intros H. apply (Hcore (c :: r) false) in H as [Hdig Hr].
    split; [|done]. by apply Hd.
Qed.

Lemma Atoi_no_separator s v c :
  Atoi s = inl v → signOrDigit c = false → c ∉ s.
Proof.
  intros [Hs _]%Atoi_inl Hc Hin. rewrite forallb_forall in Hs.
  apply list_elem_of_In in Hin. specialize (Hs c Hin). congruence.
Qed.

Lemma wrap64_small z : int64_min <= z <= int64_max → wrap64 z = z.
Proof.
  unfold wrap64, int64_min, int64_max. intros Hz.
  rewrite Z.mod_small; lia.
Qed.

(** [strings.Join] undoes [strings.Split]. *)
Lemma Join_Split sep s : Join (Split sep s) [sep] = s.
Proof.
  induction s as [s E|s a b E IH] using (Split_induction sep).
  - by rewrite (Split_None _ _ E).
  - rewrite (Split_cut _ _ _ _ E).
    pose proof (Split_length sep b) as Hl.
    destruct (Split sep b) as [|p ps] eqn:Hb; [done|].
    change (Join (a :: p :: ps) [sep]) with (a ++ [sep] ++ Join (p :: ps) [sep]).
    rewrite IH. by apply cut_Some in E as [-> _].
Qed.

(** X6: a string of two or three integers separated by colons parses as
    a timestamp: minutes and seconds, or hours, minutes and seconds.  The
    seconds are summed and turned into nanoseconds in 64-bit arithmetic;
    when the nanoseconds fit 64 bits the value is exact.  A component may
    carry a sign. *)
Theorem parseTimestamp_value a b c x y z :
  Atoi a = inl x → Atoi b = inl y → Atoi c = inl z →
  parseTimestamp (a ++ colon :: b)
  = Ok (wrap64 (wrap64 (x * 60 + y) * Second))
  ∧ parseTimestamp (a ++ colon :: b ++ colon :: c)
    = Ok (wrap64 (wrap64 (x * 3600 + y * 60 + z) * Second))
  ∧ (int64_min <= (x * 60 + y) * Second <= int64_max →
     parseTimestamp (a ++ colon :: b) = Ok ((x * 60 + y) * Second))
  ∧ (int64_min <= (x * 3600 + y * 60 + z) * Second <= int64_max →
     parseTimestamp (a ++ colon :: b ++ colon :: c)
     = Ok ((x * 3600 + y * 60 + z) * Second)).
Proof.
  intros Ha Hb Hc.
  pose proof (Atoi_no_separator _ _ colon Ha eq_refl) as Hna.
  pose proof (Atoi_no_separator _ _ colon Hb eq_refl) as Hnb.
  pose proof (Atoi_no_separator _ _ colon Hc eq_refl) as Hnc.
  assert (parseTimestamp (a ++ colon :: b)
          = Ok (wrap64 (wrap64 (x * 60 + y) * Second))) as H2.
  { unfold parseTimestamp.
    rewrite (Split_app_sep _ a) by done. rewrite (Split_no_sep _ b) by done.
    simpl. by rewrite Ha, Hb. }
  assert (parseTimestamp (a ++ colon :: b ++ colon :: c)
          = Ok (wrap64 (wrap64 (x * 3600 + y * 60 + z) * Second))) as H3.
  { unfold parseTimestamp.
    rewrite (Split_app_sep _ a) by done. rewrite (Split_app_sep _ b) by done.
    rewrite (Split_no_sep _ c) by done.
    simpl. by rewrite Ha, Hb, Hc. }
  split_and!; [done|done| |].
  - intros Hr. rewrite H2. f_equal.
    rewrite (wrap64_small (x * 60 + y)).
    + by apply wrap64_small.
    + unfold int64_min, int64_max, Second in *. lia.
  - intros Hr. rewrite H3. f_equal.
    rewrite (wrap64_small (x * 3600 + y * 60 + z)).
    + by apply wrap64_small.
    + unfold int64_min, int64_max, Second in *. lia.
Qed.

Lemma parseTimestamp_value_witness :
  parseTimestamp (go "-1:30") = Ok (-30 * Second)
  ∧ parseTimestamp (go "1:02:03") = Ok (3723 * Second).
Proof.
  destruct (parseTimestamp_value (go "-1") (go "30") (go "03") (-1) 30 3
              eq_refl eq_refl eq_refl) as (_ & _ & H2 & _).
  destruct (parseTimestamp_value (go "1") (go "02") (go "03") 1 2 3
              eq_refl eq_refl eq_refl) as (_ & _ & _ & H3).
  split; [apply H2|apply H3]; vm_compute; split; discriminate.
Defined.

Lemma atoiAll_Ok parts nums :
  atoiAll parts = Ok nums → Forall2 (λ p n, Atoi p = inl n) parts nums.
Proof.
  revert nums. induction parts as [|p parts IH]; intros nums; simpl.
  - intros [= <-]. constructor.
  - destruct (Atoi p) as [n|e] eqn:Hp; [|done].
    destruct (atoiAll parts) as [ns| |]; [|done..]. simpl.
    intros [= <-]. constructor; [done|]. by apply IH.
Qed.

(** The first part of a string parseTimestamp accepts is a number. *)
Lemma parseTimestamp_first_part s d :
  parseTimestamp s = Ok d → ∃ a b v, s = a ++ colon :: b ∧ Atoi a = inl v.
Proof.
  unfold parseTimestamp. pose proof (Join_Split colon s) as Hj.
  destruct (Split colon s) as [|a [|b [|c [|c' parts]]]]; try done.
  - change ((length [a; b] <? 2)%nat || (3 <? length [a; b])%nat) with false.
    cbv iota. destruct (atoiAll [a; b]) as [nums| |] eqn:Hn; [|done..].
    apply atoiAll_Ok in Hn. inversion Hn as [|? x ? ? Ha Hn1]; subst.
    intros _. by exists a, b, x.
  - change ((length [a; b; c] <? 2)%nat || (3 <? length [a; b; c])%nat)
      with false.
    cbv iota. destruct (atoiAll [a; b; c]) as [nums| |] eqn:Hn; [|done..].
    apply atoiAll_Ok in Hn. inversion Hn as [|? x ? ? Ha Hn1]; subst.
    intros _. by exists a, (b ++ colon :: c), x.
Qed.

(** X7: the strings parseTimestamp accepts are exactly those: two or
    three colon-separated parts, each of them an integer for Atoi; one
    part, four parts or more, or a part that is no integer give an
    error. *)
Theorem parseTimestamp_format s d :
  parseTimestamp s = Ok d →
  (∃ a b x y, s = a ++ colon :: b ∧ Atoi a = inl x ∧ Atoi b = inl y
              ∧ d = wrap64 (wrap64 (x * 60 + y) * Second))
  ∨ (∃ a b c x y z,
       s = a ++ colon :: b ++ colon :: c
       ∧ Atoi a = inl x ∧ Atoi b = inl y ∧ Atoi c = inl z
       ∧ d = wrap64 (wrap64 (x * 3600 + y * 60 + z) * Second)).
Proof.
  unfold parseTimestamp. pose proof (Join_Split colon s) as Hj.
  destruct (Split colon s) as [|a [|b [|c [|c' parts]]]]; try done.
  - change ((length [a; b] <? 2)%nat || (3 <? length [a; b])%nat) with false.
    cbv iota. destruct (atoiAll [a; b]) as [nums| |] eqn:Hn; [|done..].
    apply atoiAll_Ok in Hn.
    inversion Hn as [|? x ? ? Ha Hn1]; subst.
    inversion Hn1 as [|? y ? ? Hb Hn2]; subst. inversion Hn2; subst.
    simpl. intros [= <-]. left. by exists a, b, x, y.
  - change ((length [a; b; c] <? 2)%nat || (3 <? length [a; b; c])%nat)
      with false.
    cbv iota. destruct (atoiAll [a; b; c]) as [nums| |] eqn:Hn; [|done..].
    apply atoiAll_Ok in Hn.
    inversion Hn as [|? x ? ? Ha Hn1]; subst.
    inversion Hn1 as [|? y ? ? Hb Hn2]; subst.
    inversion Hn2 as [|? z ? ? Hc Hn3]; subst. inversion Hn3; subst.
    simpl. intros [= <-]. right. by exists a, b, c, x, y, z.
Qed.

Lemma parseTimestamp_format_witness :
  (∃ a b x y, go "12:05" = a ++ colon :: b ∧ Atoi a = inl x ∧ Atoi b = inl y
              ∧ 725 * Second = wrap64 (wrap64 (x * 60 + y) * Second))
  ∨ (∃ a b c x y z,
       go "12:05" = a ++ colon :: b ++ colon :: c
       ∧ Atoi a = inl x ∧ Atoi b = inl y ∧ Atoi c = inl z
       ∧ 725 * Second = wrap64 (wrap64 (x * 3600 + y * 60 + z) * Second)).
Proof.
  exact (parseTimestamp_format (go "12:05") (725 * Second) eq_refl).
Defined.

(** ** Key/value blobs: duplicates, dangling parts, leading text *)

Lemma TrimLeftSpace_suffix s : ∃ a, s = a ++ TrimLeftSpace s.
Proof.
  unfold TrimLeftSpace.
  destruct (dropSp_suffix (segments s)) as (l1 & Hl & _).
  exists (flatten l1). by rewrite <- flatten_app, <- Hl, flatten_segments.
Qed.

Lemma TrimRightSpace_prefix s : ∃ t, s = TrimRightSpace s ++ t.
Proof.
  unfold TrimRightSpace.
  destruct (dropSp_reverse (segments s)) as (l2 & Hl & _).
  exists (flatten l2). by rewrite <- flatten_app, <- Hl, flatten_segments.
Qed.

Lemma TrimLeftSpace_before_backslash pre t :
  TrimLeftSpace (pre ++ backslash :: t) = TrimLeftSpace pre ++ backslash :: t.
Proof.
  unfold TrimLeftSpace. rewrite segments_app by done.
  rewrite (segments_byte _ _ (spaceRune_backslash t)).
  rewrite dropSp_app_By, flatten_app.
  change (flatten (By backslash :: segments t))
    with (backslash :: flatten (segments t)).
  by rewrite flatten_segments.
Qed.

(** A blob with a backslash, trimmed. *)
Lemma TrimSpace_around_backslash pre t :
  TrimSpace (pre ++ backslash :: t)
  = TrimLeftSpace pre ++ backslash :: TrimRightSpace t.
Proof.
  unfold TrimSpace.
  by rewrite TrimLeftSpace_before_backslash, TrimRightSpace_backslash.
Qed.

Lemma kvLoop_list l data :
  kvLoop (flatKV l) data = list_to_map (reverse l) ∪ data.
Proof.
  revert data. induction l as [|[k v] l IH]; intros data; simpl.
  - by rewrite (left_id_L ∅ (∪)).
  - rewrite IH, reverse_cons, list_to_map_app. simpl.
    rewrite insert_empty, <- (assoc_L (∪)).
    by rewrite <- insert_union_singleton_l.
Qed.

Lemma kvLoop_dangling l k data :
  kvLoop (flatKV l ++ [k]) data = kvLoop (flatKV l) data.
Proof. revert data. induction l as [|[k0 v0] l IH]; intros data; simpl; auto. Qed.

Lemma Split_serialize_dangling pre l k :
  backslash ∉ pre → backslash ∉ k →
  Forall (λ kv, (backslash ∉ fst kv) ∧ (backslash ∉ snd kv)) l →
  Split backslash (pre ++ serialize l ++ backslash :: k)
  = pre :: flatKV l ++ [k].
Proof.
  revert pre. induction l as [|[k0 v0] l IH]; intros pre Hpre Hk Hl; simpl.
  - rewrite (Split_app_sep _ pre) by done. by rewrite Split_no_sep.
  - inversion Hl as [|?? [Hk0 Hv0] Hrest]; subst. simpl in *.
    rewrite (Split_app_sep _ pre) by done.
    rewrite <- app_assoc. simpl.
    rewrite (Split_app_sep _ k0) by done.
    rewrite <- app_assoc. by rewrite IH.
Qed.

Lemma serialize_head l : l ≠ [] → ∃ t, serialize l = backslash :: t.
Proof. destruct l as [|[k v] l]; [done|]. intros _. by eexists. Qed.

Lemma TrimLeftSpace_serialize l t :
  TrimLeftSpace (serialize l ++ backslash :: t) = serialize l ++ backslash :: t.
Proof.
  destruct l as [|kv0 l0]; [apply TrimLeftSpace_backslash|].
  destruct (serialize_head (kv0 :: l0) ltac:(done)) as [t0 ->].
  apply TrimLeftSpace_backslash.
Qed.

(** X8: a blob of well-formed pairs parses to the mapping of its pairs in
    which a key written more than once keeps the value written last.
    Keys and values are taken as they are, white space included, except
    that white space at the end of the last value is lost with the
    trimming of the blob. *)
Theorem kv_last_value_wins (l : list (str * str)) :
  Forall (λ kv, (backslash ∉ fst kv) ∧ (backslash ∉ snd kv)) l →
  (∀ k v, last l = Some (k, v) → TrimRightSpace v = v) →
  parseKeyValuePairs (serialize l) = list_to_map (reverse l).
Proof.
  intros Hbs Hlast.
  destruct l as [|[k v] l _] using rev_ind; [done|].
  assert (TrimSpace (serialize (l ++ [(k, v)])) = serialize (l ++ [(k, v)]))
    as Htrim.
  { rewrite serialize_app. simpl. rewrite app_nil_r.
    replace (serialize l ++ backslash :: k ++ backslash :: v)
      with ((serialize l ++ backslash :: k) ++ backslash :: v)
      by (by rewrite <- app_assoc).
    rewrite TrimSpace_around_backslash, (Hlast k v) by (by rewrite last_snoc).
    f_equal. apply TrimLeftSpace_serialize. }
  unfold parseKeyValuePairs. rewrite Htrim.
  rewrite bool_decide_eq_false_2.
  2: { destruct l as [|[k0 v0] l]; done. }
  rewrite <- (app_nil_l (serialize _)), Split_serialize; [|set_solver|done].
  simpl. rewrite drop_0, kvLoop_list.
  by rewrite (right_id_L ∅ (∪)).
Qed.

Lemma kv_last_value_wins_witness :
  parseKeyValuePairs (go "\g_gametype\dm\mapname\mp_raid\g_gametype\tdm")
  !! go "g_gametype" = Some (go "tdm").
Proof.
  change (go "\g_gametype\dm\mapname\mp_raid\g_gametype\tdm")
    with (serialize [(go "g_gametype", go "dm"); (go "mapname", go "mp_raid");
                     (go "g_gametype", go "tdm")]).
  rewrite (kv_last_value_wins
             [(go "g_gametype", go "dm"); (go "mapname", go "mp_raid");
              (go "g_gametype", go "tdm")]).
  - vm_compute. reflexivity.
  - apply (bool_decide_unpack _). vm_compute. exact I.
  - intros k v [= <- <-]. vm_compute. reflexivity.
Defined.

(** X9: a part left over after the last pair is dropped, and it shields
    the last value from the trimming: the pairs before it are parsed with
    their white space intact. *)
Theorem kv_dangling_part_dropped (l : list (str * str)) k :
  Forall (λ kv, (backslash ∉ fst kv) ∧ (backslash ∉ snd kv)) l →
  backslash ∉ k →
  parseKeyValuePairs (serialize l ++ backslash :: k) = list_to_map (reverse l).
Proof.
  intros Hbs Hk.
  assert (TrimSpace (serialize l ++ backslash :: k)
          = serialize l ++ backslash :: TrimRightSpace k) as Htrim.
  { unfold TrimSpace.
    by rewrite TrimLeftSpace_serialize, TrimRightSpace_backslash. }
  assert (backslash ∉ TrimRightSpace k) as Hk'.
  { destruct (TrimRightSpace_prefix k) as [t Ht]. intros Hin.
    apply Hk. rewrite Ht. apply elem_of_app. by left. }
  unfold parseKeyValuePairs. rewrite Htrim.
  rewrite bool_decide_eq_false_2 by (by destruct (serialize l)).
  rewrite <- (app_nil_l (serialize l ++ _)), Split_serialize_dangling;
    [|set_solver|done..].
  simpl. rewrite drop_0, kvLoop_dangling, kvLoop_list.
  by rewrite (right_id_L ∅ (∪)).
Qed.

Lemma kv_dangling_part_dropped_witness :
  parseKeyValuePairs (go "\sv_hostname\My Server \mapname")
  = {[ go "sv_hostname" := go "My Server " ]}.
Proof.
  change (go "\sv_hostname\My Server \mapname")
    with (serialize [(go "sv_hostname", go "My Server ")]
            ++ backslash :: go "mapname").
  rewrite (kv_dangling_part_dropped
             [(go "sv_hostname", go "My Server ")] (go "mapname")).
  - vm_compute. reflexivity.
  - apply (bool_decide_unpack _). vm_compute. exact I.
  - apply (bool_decide_unpack _). vm_compute. exact I.
Defined.

(** X10: what stands before the first backslash of a blob is ignored,
    and a blob without a backslash gives the empty mapping. *)
Theorem kv_leading_text_ignored pre t :
  backslash ∉ pre →
  parseKeyValuePairs (pre ++ backslash :: t) = parseKeyValuePairs (backslash :: t)
  ∧ parseKeyValuePairs pre = ∅.
Proof.
  intros Hpre. split.
  - assert (TrimSpace (backslash :: t) = [] ++ backslash :: TrimRightSpace t)
      as H0.
    { unfold TrimSpace. rewrite TrimLeftSpace_backslash.
      apply (TrimRightSpace_backslash [] t). }
    unfold parseKeyValuePairs.
    rewrite TrimSpace_around_backslash, H0.
    assert (backslash ∉ TrimLeftSpace pre) as Hpre'.
    { destruct (TrimLeftSpace_suffix pre) as [a Ha]. intros Hin.
      apply Hpre. rewrite Ha. apply elem_of_app. by right. }
    rewrite !bool_decide_eq_false_2.
    + rewrite (Split_app_sep _ (TrimLeftSpace pre)) by done.
      rewrite (Split_app_sep _ []) by set_solver. done.
    + done.
    + by destruct (TrimLeftSpace pre).
  - unfold parseKeyValuePairs. case_bool_decide; [done|].
    rewrite Split_no_sep; [done|].
    unfold TrimSpace.
    destruct (TrimRightSpace_prefix (TrimLeftSpace pre)) as [t' Ht].
    destruct (TrimLeftSpace_suffix pre) as [a Ha]. intros Hin.
    apply Hpre. rewrite Ha, Ht. rewrite !elem_of_app. auto.
Qed.

Lemma kv_leading_text_ignored_witness :
  parseKeyValuePairs (go " junk \mapname\mp_raid")
  = parseKeyValuePairs (go "\mapname\mp_raid")
  ∧ parseKeyValuePairs (go " junk ") = ∅.
Proof.
  apply (kv_leading_text_ignored (go " junk ") (go "mapname\mp_raid")).
  apply (bool_decide_unpack _). vm_compute. exact I.
Defined.

(** ** Fields and joins *)

Lemma spaceRune_plain c s : plain c = true → spaceRune (c :: s) = None.
Proof.
  unfold plain. intros [Ha Hc]%andb_true_iff.
  apply negb_true_iff in Ha. apply N.ltb_lt in Hc.
  assert (∀ c2, space2 c c2 = false) as H2.
  { intros c2. unfold space2, is_byte.
    destruct (N.eqb_spec (code c) 194); [lia|done]. }
  assert (∀ c2 c3, space3 c c2 c3 = false) as H3.
  { intros c2 c3. unfold space3, is_byte.
    destruct (N.eqb_spec (code c) 225); [lia|].
    destruct (N.eqb_spec (code c) 226); [lia|].
    destruct (N.eqb_spec (code c) 227); [lia|done]. }
  destruct s as [|c2 [|c3 s]]; simpl; rewrite Ha, ?H2, ?H3; done.
Qed.

Lemma plain_not_cont c : plain c = true → isCont c = false.
Proof.
  unfold plain, isCont, in_range. intros [_ Hc%N.ltb_lt]%andb_true_iff.
  apply andb_false_iff. left. apply N.leb_gt. lia.
Qed.

(** Trimming on the right stops at a byte that is no white space. *)
Lemma TrimRightSpace_after_byte pre c v :
  plain c = true →
  TrimRightSpace (pre ++ c :: v) = pre ++ c :: TrimRightSpace v.
Proof.
  intros Hc. unfold TrimRightSpace.
  rewrite segments_app by (by apply plain_not_cont).
  rewrite (segments_byte _ _ (spaceRune_plain c v Hc)).
  rewrite reverse_app, reverse_cons, <- app_assoc. simpl.
  rewrite dropSp_app_By, reverse_app, reverse_cons, reverse_involutive.
  rewrite !flatten_app, flatten_segments, <- app_assoc. done.
Qed.

Lemma TrimLeftSpace_plain_head c s :
  plain c = true → TrimLeftSpace (c :: s) = c :: s.
Proof.
  intros Hc. unfold TrimLeftSpace.
  rewrite (segments_byte _ _ (spaceRune_plain c s Hc)). simpl.
  change (flatten (By c :: segments s)) with (c :: flatten (segments s)).
  by rewrite flatten_segments.
Qed.







(** ** Chat lines *)



(** ** Player lines *)

(** X12: a generic player line of four fields gives the fields trimmed
    and an empty message; with a fifth field everything after the fourth
    semicolon is the message, further semicolons included. *)
Theorem player_line_fields cmd xuid slot name msg n ts raw :
  semicolon ∉ cmd → semicolon ∉ xuid → semicolon ∉ slot → semicolon ∉ name →
  Atoi (TrimSpace slot) = inl n →
  parsePlayerEvent
    (cmd ++ semicolon :: xuid ++ semicolon :: slot ++ semicolon :: name)
    ts raw
  = Ok (mkPlayer (mkBase ts (TrimSpace cmd) raw) (TrimSpace xuid) n
          (TrimSpace name) [])
  ∧ parsePlayerEvent
      (cmd ++ semicolon :: xuid ++ semicolon :: slot ++ semicolon :: name
           ++ semicolon :: msg)
      ts raw
    = Ok (mkPlayer (mkBase ts (TrimSpace cmd) raw) (TrimSpace xuid) n
            (TrimSpace name) (TrimSpace msg)).
Proof.
  intros Hc Hx Hs Hn Hflag. unfold parsePlayerEvent. split.
  - rewrite SplitN_SS, (cut_app _ _ _ Hc).
    rewrite SplitN_SS, (cut_app _ _ _ Hx).
    rewrite SplitN_SS, (cut_app _ _ _ Hs).
    rewrite SplitN_SS, (proj2 (cut_None _ _) Hn).
    cbn [length Nat.ltb Nat.leb idx lookup list_lookup bind]. simpl.
    by rewrite Hflag.
  - rewrite SplitN_SS, (cut_app _ _ _ Hc).
    rewrite SplitN_SS, (cut_app _ _ _ Hx).
    rewrite SplitN_SS, (cut_app _ _ _ Hs).
    rewrite SplitN_SS, (cut_app _ _ _ Hn).
    simpl. by rewrite Hflag.
Qed.

Lemma player_line_fields_witness :
  parsePlayerEvent (go "say ; 1f ; 2 ; Al ice ") None []
  = Ok (mkPlayer (mkBase None (go "say") []) (go "1f") 2 (go "Al ice") [])
  ∧ parsePlayerEvent (go "say ; 1f ; 2 ; Al ice ; a;b ") None []
    = Ok (mkPlayer (mkBase None (go "say") []) (go "1f") 2 (go "Al ice")
            (go "a;b")).
Proof.
  pose proof (player_line_fields (go "say ") (go " 1f ") (go " 2 ")
                (go " Al ice ") (go " a;b ") 2 None []) as H.
  apply H; try (apply (bool_decide_unpack _); vm_compute; exact I).
  vm_compute. reflexivity.
Defined.

Lemma fields_go_head l cur f fs :
  fields_go l (Some cur) = f :: fs → ∃ x, f = cur ++ x.
Proof.
  revert cur. induction l as [|[w|c] l IH]; intros cur; simpl.
  - intros [= <- _]. exists []. by rewrite app_nil_r.
  - intros [= <- _]. exists []. by rewrite app_nil_r.
  - intros (x & ->)%IH. exists (c :: x). by rewrite <- app_assoc.
Qed.

(** A line whose first byte is neither white space nor a sign nor a
    digit carries no timestamp. *)
Lemma splitTimestamp_letter_head c r :
  plain c = true → signOrDigit c = false →
  splitTimestamp (c :: r) = Ok (None, c :: r).
Proof.
  intros Hp Hsd.
  destruct (splitTimestamp_cases (c :: r))
    as [H|(first & rest & dur & HF & _ & Hts & _)]; [done|exfalso].
  unfold Fields in HF.
  rewrite (segments_byte _ _ (spaceRune_plain c r Hp)) in HF.
  apply fields_go_head in HF as (x & ->).
  destruct (parseTimestamp_first_part _ _ Hts) as ([|c' a] & b & v & Heq & Ha);
    [done|].
  injection Heq as <- _.
  apply Atoi_inl in Ha as [Ha _]. cbn [forallb] in Ha.
  apply andb_true_iff in Ha as [Ha _]. congruence.
Qed.

Lemma isHexLike_not_semicolon c : isHexLike c = true → c ≠ semicolon.
Proof. intros H ->. by vm_compute in H. Qed.

Lemma isDigit_not_semicolon c : isDigit c = true → c ≠ semicolon.
Proof. intros H ->. by vm_compute in H. Qed.

Lemma forallb_not_in (p : ascii → bool) c s :
  (∀ x, p x = true → x ≠ c) → forallb p s = true → c ∉ s.
Proof.
  intros Hp Hs Hin. apply forallb_forall with (x := c) in Hs.
  - by apply Hp in Hs.
  - by apply list_elem_of_In.
Qed.

(** The second group of the join expression holds no semicolon. *)
Lemma xuidToken_no_semicolon s : xuidToken s = true → semicolon ∉ s.
Proof.
  unfold xuidToken. intros [[H|H]%orb_true_iff|H]%orb_true_iff.
  - unfold hexToken in H.
    apply andb_true_iff in H as [[H _]%andb_true_iff _].
    destruct s as [|c r]; [by intros ?%elem_of_nil|].
    case_bool_decide as Hc.
    + subst c. intros [?|Hin]%elem_of_cons; [done|].
      by apply (forallb_not_in _ _ _ isHexLike_not_semicolon H).
    + by apply (forallb_not_in _ _ _ isHexLike_not_semicolon H).
  - unfold botToken in H. apply andb_true_iff in H as [Hp H].
    apply andb_true_iff in H as [H _].
    apply HasPrefix_app in Hp as (r & ->). simpl in H.
    intros Hin. simpl in Hin.
    repeat (apply elem_of_cons in Hin as [?|Hin]; [done|]).
    by apply (forallb_not_in _ _ _ isDigit_not_semicolon H).
  - apply bool_decide_eq_true in H as ->.
    intros [?|?%elem_of_nil]%elem_of_cons; done.
Qed.

(** The way of a line through ParseEventLine to the join parser. *)
Lemma ParseEventLine_join l t ev :
  TrimSpace l = t → t ≠ [] →
  splitTimestamp t = Ok (None, t) →
  HasPrefix t (go "InitGame:") = false →
  HasPrefix t (go "ShutdownGame:") = false →
  Contains t [semicolon] = true →
  parseJoinEvent t None t = Ok ev →
  ParseEventLine l = Ok (EPlayer ev).
Proof.
  intros HT Hne Hs H1 H2 H3 H4. unfold ParseEventLine. rewrite HT.
  case_bool_decide; [done|]. rewrite Hs. cbn [bind].
  by rewrite H1, H2, H3, H4.
Qed.

(** X13: a join line is parsed by the join expression: origin and slot
    are the second and third group and the name is everything after the
    third semicolon, kept as it is but for the white space at the end of
    the line; the line has no timestamp. *)
Theorem join_line_parses xuid slot name n :
  xuidToken xuid = true → forallb isDigit slot = true → Atoi slot = inl n →
  newline ∉ name →
  ParseEventLine
    (go "J;" ++ xuid ++ semicolon :: slot ++ semicolon :: name)
  = Ok (EPlayer
          (mkPlayer
             (mkBase None (go "J")
                (go "J;" ++ xuid ++ semicolon :: slot ++ semicolon
                    :: TrimRightSpace name))
             xuid n (TrimRightSpace name) [])).
Proof.
  intros Hx Hd Ha Hnl.
  pose proof (xuidToken_no_semicolon _ Hx) as Hxs.
  pose proof (forallb_not_in _ _ _ isDigit_not_semicolon Hd) as Hss.
  assert (slot ≠ []) as Hne by (by intros ->).
  set (line := go "J;" ++ xuid ++ semicolon :: slot ++ semicolon
                  :: TrimRightSpace name).
  assert (TrimSpace (go "J;" ++ xuid ++ semicolon :: slot ++ semicolon :: name)
          = line) as HT.
  { assert (∀ v, go "J;" ++ xuid ++ semicolon :: slot ++ semicolon :: v
                 = ("J"%char :: semicolon :: xuid ++ semicolon :: slot)
                     ++ semicolon :: v) as Hshape.
    { intros v. simpl. by rewrite <- app_assoc. }
    unfold TrimSpace, line. rewrite !Hshape.
    simpl. rewrite TrimLeftSpace_plain_head by done.
    by rewrite app_comm_cons, app_comm_cons, TrimRightSpace_after_byte. }
  assert (joinRegexp line
          = Some [line; go "J"; xuid; slot; TrimRightSpace name]) as HJ.
  { unfold line. simpl. rewrite (cut_app _ _ _ Hxs), (cut_app _ _ _ Hss).
    rewrite Hx, Hd. simpl.
    destruct slot; [done|]. simpl.
    case_bool_decide as Hin; [|done]. exfalso. apply Hnl.
    destruct (TrimRightSpace_prefix name) as (t & ->).
    apply elem_of_app. by left. }
  apply (ParseEventLine_join _ line); try done.
  - apply (splitTimestamp_letter_head "J"%char); done.
  - rewrite Contains_sep. apply bool_decide_eq_true. unfold line. simpl.
    right. left.
  - unfold parseJoinEvent. rewrite HJ. simpl. by rewrite Ha.
Qed.

Lemma join_line_parses_witness :
  ParseEventLine (go "J;1f;3; Al;ice  ")
  = Ok (EPlayer (mkPlayer (mkBase None (go "J") (go "J;1f;3; Al;ice"))
                   (go "1f") 3 (go " Al;ice") [])).
Proof.
  apply (join_line_parses (go "1f") (go "3") (go " Al;ice  ") 3);
    try reflexivity.
  apply (bool_decide_unpack _). vm_compute. exact I.
Defined.

(** ** Kill lines *)

Lemma Split_cons_inv sep s a b l :
  Split sep s = a :: b :: l →
  ∃ t, cut sep s = Some (a, t) ∧ Split sep t = b :: l.
Proof.
  destruct (cut sep s) as [[a' t]|] eqn:E.
  - rewrite (Split_cut _ _ _ _ E). intros [= -> Ht]. by exists t.
  - by rewrite (Split_None _ _ E).
Qed.

(** The way of a line with a semicolon and without a timestamp through
    ParseEventLine, when the join expression does not match. *)
Lemma ParseEventLine_semicolon l t e :
  TrimSpace l = t → t ≠ [] →
  splitTimestamp t = Ok (None, t) →
  HasPrefix t (go "InitGame:") = false →
  HasPrefix t (go "ShutdownGame:") = false →
  Contains t [semicolon] = true →
  parseJoinEvent t None t = Err e →
  ParseEventLine l =
  match parseKillEvent t None t with
  | Ok ev => Ok (EKill ev)
  | Panic => Panic
  | Err _ => ev <-! parsePlayerEvent t None t; Ok (EPlayer ev)
  end.
Proof.
  intros HT Hne Hs H1 H2 H3 H4. unfold ParseEventLine. rewrite HT.
  case_bool_decide; [done|]. rewrite Hs. cbn [bind].
  by rewrite H1, H2, H3, H4.
Qed.

Lemma ParseEventLine_K line t :
  TrimSpace line = line → cut semicolon line = Some (go "K", t) →
  ParseEventLine line =
  match parseKillEvent line None line with
  | Ok ev => Ok (EKill ev)
  | Panic => Panic
  | Err _ => ev <-! parsePlayerEvent line None line; Ok (EPlayer ev)
  end.
Proof.
  intros HT [-> _]%cut_Some.
  apply (ParseEventLine_semicolon _ _ ErrNotJoin); try done.
  - apply (splitTimestamp_letter_head "K"%char); done.
  - rewrite Contains_sep. apply bool_decide_eq_true. simpl. right. left.
Qed.

(** X14: a line of thirteen fields that starts with K and has numbers in
    its third and seventh field is a kill event: the other fields are
    taken as they are, without trimming, and there is no timestamp. *)
Theorem kill_line_parses line p1 p2 p3 p4 p5 p6 p7 p8 p9 p10 p11 p12 k v :
  TrimSpace line = line →
  Split semicolon line
  = [go "K"; p1; p2; p3; p4; p5; p6; p7; p8; p9; p10; p11; p12] →
  Atoi p2 = inl k → Atoi p6 = inl v →
  ParseEventLine line
  = Ok (EKill (mkKill (mkBase None (go "K") line)
                 p1 k p3 p4 p5 v p7 p8 p9 p10 p11 p12)).
Proof.
  intros HT HS Hk Hv.
  destruct (Split_cons_inv _ _ _ _ _ HS) as (t & Hcut & _).
  rewrite (ParseEventLine_K _ _ HT Hcut).
  unfold parseKillEvent. rewrite HS. simpl. by rewrite Hk, Hv.
Qed.

Lemma kill_line_parses_witness :
  ParseEventLine (go "K;a1;2;axis;Al;b2;5;allies; Bo ;m4;30;MOD_HEAD;head")
  = Ok (EKill (mkKill
                 (mkBase None (go "K")
                    (go "K;a1;2;axis;Al;b2;5;allies; Bo ;m4;30;MOD_HEAD;head"))
                 (go "a1") 2 (go "axis") (go "Al") (go "b2") 5 (go "allies")
                 (go " Bo ") (go "m4") (go "30") (go "MOD_HEAD") (go "head"))).
Proof.
  apply (kill_line_parses _ (go "a1") (go "2") (go "axis") (go "Al")
           (go "b2") (go "5") (go "allies") (go " Bo ") (go "m4") (go "30")
           (go "MOD_HEAD") (go "head") 2 5);
    vm_compute; reflexivity.
Defined.

(** X15: a line that starts with K and is no kill event, because it has
    not thirteen fields or its seventh field is no number, is returned
    as a generic player event with command K when it has four fields or
    more and a number in the third: the fields are trimmed and all that
    follows the fourth semicolon is the message. *)
Theorem kill_line_fallback line p1 p2 p3 rest k :
  TrimSpace line = line →
  Split semicolon line = go "K" :: p1 :: p2 :: p3 :: rest →
  Atoi p2 = inl k →
  length rest ≠ 9%nat
  ∨ (∃ p6, rest !! 2%nat = Some p6 ∧ ∀ v, Atoi p6 ≠ inl v) →
  ParseEventLine line
  = Ok (EPlayer (mkPlayer (mkBase None (go "K") line)
                   (TrimSpace p1) k (TrimSpace p3)
                   (TrimSpace (Join rest [semicolon])))).
Proof.
  intros HT HS Hk Hbad.
  destruct (Split_cons_inv _ _ _ _ _ HS) as (t1 & Hc0 & HS1).
  rewrite (ParseEventLine_K _ _ HT Hc0).
  assert (∃ e, parseKillEvent line None line = Err e) as [e ->].
  { unfold parseKillEvent. rewrite HS.
    destruct (decide (length rest = 9%nat)) as [Hlen|Hlen].
    - destruct Hbad as [?|(p6 & Hp6 & Hno)]; [done|].
      do 9 (destruct rest as [|? rest]; [done|]).
      destruct rest; [|done]. simpl in *. rewrite Hk.
      injection Hp6 as ->.
      destruct (Atoi p6) as [v|e'] eqn:E; [by destruct (Hno v)|by eexists].
    - cbn [length].
      destruct (S (S (S (S (length rest)))) =? 13)%nat eqn:E.
      + apply Nat.eqb_eq in E. lia.
      + simpl. by eexists. }
  destruct (Split_cons_inv _ _ _ _ _ HS1) as (t2 & Hc1 & HS2).
  destruct (Split_cons_inv _ _ _ _ _ HS2) as (t3 & Hc2 & HS3).
  unfold parsePlayerEvent.
  rewrite SplitN_SS, Hc0, SplitN_SS, Hc1, SplitN_SS, Hc2.
  pose proof (Atoi_TrimSpace _ _ Hk) as Hk'.
  destruct rest as [|r rest].
  - destruct (cut semicolon t3) as [[a b]|] eqn:E.
    + rewrite (Split_cut _ _ _ _ E) in HS3. injection HS3 as _ HS3.
      apply (f_equal length) in HS3. by rewrite Split_length in HS3.
    + rewrite (Split_None _ _ E) in HS3. injection HS3 as ->.
      rewrite SplitN_SS, E. simpl. by rewrite Hk'.
  - destruct (Split_cons_inv _ _ _ _ _ HS3) as (t4 & Hc3 & HS4).
    rewrite SplitN_SS, Hc3. rewrite <- HS4, Join_Split.
    simpl. by rewrite Hk'.
Qed.

Lemma kill_line_fallback_witness :
  let line := go "K;a1;2; axis ;Al;b2;x;allies;Bo;m4;30;MOD_HEAD;head" in
  ParseEventLine line
  = Ok (EPlayer (mkPlayer (mkBase None (go "K") line)
                   (TrimSpace (go "a1")) 2 (TrimSpace (go " axis "))
                   (TrimSpace
                      (Join [go "Al"; go "b2"; go "x"; go "allies"; go "Bo";
                             go "m4"; go "30"; go "MOD_HEAD"; go "head"]
                         [semicolon])))).
Proof.
  intros line.
  apply (kill_line_fallback line (go "a1") (go "2") (go " axis ")
           [go "Al"; go "b2"; go "x"; go "allies"; go "Bo"; go "m4";
            go "30"; go "MOD_HEAD"; go "head"] 2).
  - vm_compute. reflexivity.
  - vm_compute. reflexivity.
  - vm_compute. reflexivity.
  - right. exists (go "x"). split; [reflexivity|]. intros v.
    vm_compute. discriminate.
Defined.

(** ** The player directory: copies, refreshes and the finders *)

(** The two ways a refresh can go. *)
Lemma refresh_cases W (hd : Handler dirEv dirAns W) d (h : Heap) w pre :
  let '(o, w', tr) := run hd (refresh d h) w in
  (∃ err pre' w0,
     hd EvStatus w0 = (inr err, w')
     ∧ o = mkOut h d (inr err) ∧ pre ++ tr = pre' ++ [EvStatus])
  ∨ (∃ ps now pre' w0 w1,
       hd EvStatus w0 = (inl ps, w1) ∧ hd EvNow w1 = (now, w')
       ∧ o = mkOut (<[fresh (dom (<[fresh (dom h) := ps]> h)) := ps]>
                      (<[fresh (dom h) := ps]> h))
               (mkDir (ttl d) (Some (fresh (dom h))) (now + ttl d))
               (inl (Some (fresh (dom (<[fresh (dom h) := ps]> h)))))
       ∧ pre ++ tr = pre' ++ [EvStatus; EvNow]).
Proof.
  unfold refresh. cbn [run].
  destruct (hd EvStatus w) as [[ps|err] w1] eqn:Hst; cbn [run].
  - rewrite (copyOf_fresh ps h). cbn [run].
    destruct (hd EvNow w1) as [now w2] eqn:Hnow.
    rewrite (copyOf_fresh ps). cbn [run].
    right. exists ps, now, pre, w, w1. split_and!; reflexivity || assumption.
  - left. exists err, pre, w. split_and!; reflexivity || assumption.
Qed.

(** The three ways a Snapshot can go. *)
Lemma Snapshot_cases W (hd : Handler dirEv dirAns W) d (h : Heap) w :
  let '(o, w', tr) := run hd (Snapshot d h) w in
  (∃ now,
     (0 < len h (players d))%nat ∧ hd EvNow w = (now, w') ∧ now < expires d
     ∧ o = mkOut (<[fresh (dom h) := contents h (players d)]> h) d
             (inl (Some (fresh (dom h))))
     ∧ tr = [EvNow])
  ∨ (∃ err pre w0,
       hd EvStatus w0 = (inr err, w')
       ∧ o = mkOut h d (inr err) ∧ tr = pre ++ [EvStatus])
  ∨ (∃ ps now pre w0 w1,
       hd EvStatus w0 = (inl ps, w1) ∧ hd EvNow w1 = (now, w')
       ∧ o = mkOut (<[fresh (dom (<[fresh (dom h) := ps]> h)) := ps]>
                      (<[fresh (dom h) := ps]> h))
               (mkDir (ttl d) (Some (fresh (dom h))) (now + ttl d))
               (inl (Some (fresh (dom (<[fresh (dom h) := ps]> h)))))
       ∧ tr = pre ++ [EvStatus; EvNow]).
Proof.
  unfold Snapshot. destruct (0 <? len h (players d))%nat eqn:Hlen.
  - cbn [run]. destruct (hd EvNow w) as [now w1] eqn:Hnow.
    destruct (now <? expires d) eqn:Hexp.
    + rewrite copyOf_fresh. cbn [run]. left. exists now.
      apply Nat.ltb_lt in Hlen. apply Z.ltb_lt in Hexp.
      split_and!; reflexivity || assumption.
    + pose proof (refresh_cases W hd d h w1 [EvNow]) as Hr.
      destruct (run hd (refresh d h) w1) as [[o w'] tr]. right. exact Hr.
  - pose proof (refresh_cases W hd d h w []) as Hr.
    destruct (run hd (refresh d h) w) as [[o w'] tr]. right. exact Hr.
Qed.

(** X16: the slice a successful Snapshot returns is never nil and is an
    array of its own: it was not allocated before the call, it is not
    the array the directory keeps, and it holds the same players as the
    directory's array; arrays that existed before the call are not
    written.  When Snapshot fails, heap and directory are as before.
    The ttl never changes. *)
Theorem snapshot_result_is_private_copy
    W (hd : Handler dirEv dirAns W) d (h : Heap) w :
  let o := (run hd (Snapshot d h) w).1.1 in
  ttl (oDir o) = ttl d
  ∧ (∀ l', is_Some (h !! l') → oHeap o !! l' = h !! l')
  ∧ match oVal o with
    | inl s =>
        ∃ l, s = Some l ∧ h !! l = None ∧ players (oDir o) ≠ Some l
             ∧ is_Some (oHeap o !! l)
             ∧ contents (oHeap o) (Some l)
               = contents (oHeap o) (players (oDir o))
    | inr _ => oHeap o = h ∧ oDir o = d
    end.
Proof.
  pose proof (Snapshot_cases W hd d h w) as H.
  destruct (run hd (Snapshot d h) w) as [[o w'] tr]. cbn [fst].
  pose proof (fresh_lookup h) as Hf.
  destruct H as [(now & Hlen & _ & _ & -> & _)
                |[(err & pre & w0 & _ & -> & _)
                 |(ps & now & pre & w0 & w1 & _ & _ & -> & _)]];
    cbn [oVal oHeap oDir ttl players].
  - split_and!; [done| |].
    + intros l' [x Hx]. rewrite lookup_insert_ne; [done|]. congruence.
    + exists (fresh (dom h)).
      assert (contents h (players d) ≠ []) as Hne.
      { unfold len in Hlen. intros Heq. rewrite Heq in Hlen. simpl in Hlen. lia. }
      split_and!; [reflexivity|exact Hf| | |].
      * intros Heq. apply Hne. rewrite Heq. simpl. by rewrite Hf.
      * rewrite lookup_insert_eq. by eexists.
      * rewrite (contents_insert_fresh h _ _ (players d) Hf Hne).
        simpl. by rewrite lookup_insert_eq.
  - done.
  - set (c := fresh (dom h)) in *. set (h1 := <[c := ps]> h).
    pose proof (fresh_lookup h1) as Hr. set (r := fresh (dom h1)) in *.
    assert (r ≠ c) as Hrc.
    { intros Heq. rewrite Heq in Hr. unfold h1 in Hr.
      by rewrite lookup_insert_eq in Hr. }
    split_and!; [reflexivity| |].
    + intros l' [x Hx].
      assert (c ≠ l') as Hcl by congruence.
      assert (r ≠ l') as Hrl.
      { intros <-. unfold h1 in Hr. rewrite lookup_insert_ne in Hr by done.
        congruence. }
      rewrite lookup_insert_ne by done. unfold h1.
      by rewrite lookup_insert_ne.
    + exists r. split_and!; [reflexivity| |congruence| |].
      * unfold h1 in Hr. destruct (decide (c = r)) as [Heq|Hne]; [congruence|].
        by rewrite lookup_insert_ne in Hr.
      * rewrite lookup_insert_eq. by eexists.
      * simpl. rewrite lookup_insert_eq, lookup_insert_ne by done.
        unfold h1. by rewrite lookup_insert_eq.
Qed.

Lemma snapshot_result_is_private_copy_witness :
  let h : Heap := {[1%positive := [alice]]} in
  let o := (run (fixedSource 5 (inl [alice]))
              (Snapshot (mkDir 10 (Some 1%positive) 20) h) tt).1.1 in
  oHeap o !! 1%positive = h !! 1%positive.
Proof.
  intros h o.
  apply (snapshot_result_is_private_copy unit (fixedSource 5 (inl [alice]))
           (mkDir 10 (Some 1%positive) 20) h tt).
  exists [alice]. vm_compute. reflexivity.
Defined.

(** X17: after Invalidate, and on a directory just made, Snapshot asks
    the source before anything else, whatever the clock reads; what the
    source answers is cached until the reading of the clock plus the
    ttl, which lies after that reading. *)
Theorem invalidate_forces_refresh
    W (hd : Handler dirEv dirAns W) d t (h : Heap) w w1 w2 ps now :
  hd EvStatus w = (inl ps, w1) → hd EvNow w1 = (now, w2) →
  ∀ d0, d0 = Invalidate d ∨ d0 = NewPlayerDirectory t →
    ∃ o, run hd (Snapshot d0 h) w = (o, w2, [EvStatus; EvNow])
         ∧ contents (oHeap o) (players (oDir o)) = ps
         ∧ (∃ l, oVal o = inl (Some l) ∧ contents (oHeap o) (Some l) = ps)
         ∧ expires (oDir o) = now + ttl d0
         ∧ (d0 = Invalidate d → ttl d0 = ttl d)
         ∧ (d0 = NewPlayerDirectory t → now < expires (oDir o)).
Proof.
  intros Hst Hnow d0 Hd0.
  assert (Snapshot d0 h = refresh d0 h) as ->.
  { by destruct Hd0 as [->| ->]. }
  unfold refresh. cbn [run]. rewrite Hst. rewrite (copyOf_fresh ps h).
  cbn [run]. rewrite Hnow. rewrite (copyOf_fresh ps). cbn [run].
  eexists. split; [reflexivity|]. cbn [oHeap oDir oVal players expires ttl].
  set (c := fresh (dom h)). set (h1 := <[c := ps]> h).
  pose proof (fresh_lookup h1) as Hr. set (r := fresh (dom h1)) in *.
  assert (r ≠ c) as Hrc.
  { intros Heq. rewrite Heq in Hr. unfold h1 in Hr.
    by rewrite lookup_insert_eq in Hr. }
  split_and!.
  - simpl. rewrite lookup_insert_ne by done. unfold h1.
    by rewrite lookup_insert_eq.
  - exists r. split; [done|]. simpl. by rewrite lookup_insert_eq.
  - done.
  - by intros ->.
  - intros ->. unfold NewPlayerDirectory. cbn [ttl].
    destruct (t <=? 0) eqn:E; [unfold defaultPlayerCacheExpiry, Second; lia|].
    apply Z.leb_gt in E. lia.
Qed.

Lemma invalidate_forces_refresh_witness :
  ∃ o, run (fixedSource 5 (inl [alice]))
         (Snapshot (Invalidate (mkDir 10 (Some 1%positive) 20))
            {[1%positive := [alice]]}) tt
       = (o, tt, [EvStatus; EvNow])
       ∧ expires (oDir o) = 15.
Proof.
  destruct (invalidate_forces_refresh unit (fixedSource 5 (inl [alice]))
              (mkDir 10 (Some 1%positive) 20) 0 {[1%positive := [alice]]}
              tt tt tt [alice] 5 eq_refl eq_refl
              (Invalidate (mkDir 10 (Some 1%positive) 20)) (or_introl eq_refl))
    as (o & Hrun & _ & _ & Hexp & _).
  exists o. split; [exact Hrun|exact Hexp].
Defined.

(** ** Colour codes *)

Lemma stripColorCodes_induction (P : str → Prop) :
  P [] → P [caret] →
  (∀ c r, P r → P (caret :: c :: r)) →
  (∀ c r, c ≠ caret → P r → P (c :: r)) →
  ∀ s, P s.
Proof.
  intros Hnil Hone Hcode Hbyte s.
  assert (P s ∧ ∀ c, P (c :: s)) as [H _]; [|exact H].
  induction s as [|c s [IH1 IH2]].
  - split; [done|]. intros c. destruct (decide (c = caret)) as [->|Hc]; [done|].
    by apply Hbyte.
  - split; [apply IH2|]. intros c0.
    destruct (decide (c0 = caret)) as [->|Hc]; [by apply Hcode|].
    by apply Hbyte, IH2.
Qed.

Lemma stripColorCodes_plain s : caret ∉ s → stripColorCodes s = s.
Proof.
  induction s as [|c s IH]; [done|].
  intros Hin. apply not_elem_of_cons in Hin as [Hc Hs]. simpl.
  rewrite bool_decide_eq_false_2 by congruence. by rewrite IH.
Qed.

Lemma TrimSpace_elem c s : c ∈ TrimSpace s → c ∈ s.
Proof.
  intros Hin. destruct (TrimLeftSpace_suffix s) as (a & Hs).
  destruct (TrimRightSpace_prefix (TrimLeftSpace s)) as (t & Ht).
  rewrite Hs, Ht. apply elem_of_app. right. apply elem_of_app. by left.
Qed.

Lemma stripColorCodes_no_caret s : caret ∉ stripColorCodes s.
Proof.
  induction s as [| |c r IH|c r Hc IH] using stripColorCodes_induction.
  - by intros ?%elem_of_nil.
  - by intros ?%elem_of_nil.
  - done.
  - simpl. rewrite bool_decide_eq_false_2 by done.
    by intros [?|?]%elem_of_cons.
Qed.

(** X18: stripColorCodes leaves no caret, so applying it twice is
    applying it once; it changes nothing in a string without a caret,
    never makes a string longer, and drops a caret together with the
    byte that follows it, whatever that byte is, also a second caret. *)
Theorem stripColorCodes_normal_form s :
  (caret ∉ stripColorCodes s)
  ∧ stripColorCodes (stripColorCodes s) = stripColorCodes s
  ∧ (length (stripColorCodes s) <= length s)%nat
  ∧ (stripColorCodes s = s ↔ caret ∉ s)
  ∧ ∀ a c, caret ∉ a →
      stripColorCodes (a ++ caret :: c :: s) = a ++ stripColorCodes s.
Proof.
  pose proof (stripColorCodes_no_caret s) as Hno.
  split_and!.
  - done.
  - by apply stripColorCodes_plain.
  - clear Hno.
    induction s as [| |c r IH|c r Hc IH] using stripColorCodes_induction.
    + done.
    + simpl. lia.
    + change (stripColorCodes (caret :: c :: r)) with (stripColorCodes r).
      cbn [length]. lia.
    + simpl. rewrite bool_decide_eq_false_2 by done. simpl. lia.
  - split; [|apply stripColorCodes_plain]. intros Heq. by rewrite <- Heq.
  - intros a c Ha. induction a as [|x a IH]; [done|].
    apply not_elem_of_cons in Ha as [Hx Ha]. simpl.
    rewrite bool_decide_eq_false_2 by congruence. by rewrite IH.
Qed.

Lemma stripColorCodes_normal_form_witness :
  stripColorCodes (go "ab" ++ caret :: "1"%char :: go "c^")
  = go "ab" ++ stripColorCodes (go "c^").
Proof.
  apply (stripColorCodes_normal_form (go "c^")).
  apply (bool_decide_unpack _). vm_compute. exact I.
Defined.

Section MoreFinders.

Variable ToLower : str → str.
Variable EqualFold : str → str → bool.

(** X19: FindByName sees its query only through the query without
    colour codes and surrounding white space: searching for that normal
    form is the same search. *)
Theorem find_by_name_normalises name d (h : Heap) :
  FindByName ToLower (TrimSpace (stripColorCodes name)) d h
  = FindByName ToLower name d h
  ∧ FindByName ToLower (stripColorCodes name) d h
    = FindByName ToLower name d h.
Proof.
  pose proof (stripColorCodes_no_caret name) as Hno.
  unfold FindByName. split.
  - rewrite stripColorCodes_plain.
    + by rewrite TrimSpace_idempotent.
    + intros Hin%TrimSpace_elem. done.
  - by rewrite (stripColorCodes_plain _ Hno).
Qed.

(** X20: FindByClientNum always takes a snapshot.  When the snapshot
    fails the error is returned; otherwise the result is the first player
    of the snapshot, in its order, with that client number, and none when
    no player has it. *)
Theorem find_by_client_num
    n d (h : Heap) W (hd : Handler dirEv dirAns W) w out w' tr :
  run hd (Snapshot d h) w = (out, w', tr) →
  ∃ res,
    run hd (FindByClientNum n d h) w
    = (mkOut (oHeap out) (oDir out) res, w', tr)
    ∧ tr ≠ []
    ∧ match oVal out, res with
      | inr err, inr err' => err' = err
      | inl s, inl (Some p) =>
          ∃ i, contents (oHeap out) s !! i = Some p ∧ ClientNum p = n
               ∧ ∀ j p', (j < i)%nat →
                         contents (oHeap out) s !! j = Some p' →
                         ClientNum p' ≠ n
      | inl s, inl None =>
          ∀ p, p ∈ contents (oHeap out) s → ClientNum p ≠ n
      | _, _ => False
      end.
Proof.
  intros Hrun. unfold FindByClientNum. rewrite run_pbind, Hrun.
  assert (tr ≠ []) as Htr.
  { pose proof (Snapshot_cases W hd d h w) as H. rewrite Hrun in H.
    destruct H as [(? & _ & _ & _ & _ & ->)
                  |[(? & pre & ? & _ & _ & ->)
                   |(? & ? & pre & ? & ? & _ & _ & _ & ->)]];
      [done|by destruct pre..]. }
  destruct out as [h1 d1 [s|err]]; cbn [run oVal oHeap oDir];
    rewrite app_nil_r.
  2: { eexists. split; [reflexivity|done]. }
  eexists. split; [reflexivity|]. split; [done|].
  destruct (firstPlayer _ _) as [p|] eqn:Hf.
  - apply firstPlayer_Some in Hf as (i & Hi & Hp & Hbefore).
    exists i. split_and!; [done|by apply Z.eqb_eq|].
    intros j p' Hj Hp'. specialize (Hbefore j p' Hj Hp').
    by apply Z.eqb_neq.
  - intros p Hp. rewrite firstPlayer_None in Hf.
    specialize (Hf p Hp). by apply Z.eqb_neq.
Qed.

Lemma find_by_client_num_witness :
  ∃ res,
    run (fixedSource 5 (inl [alice]))
      (FindByClientNum 3 (mkDir 10 (Some 1%positive) 20)
         {[1%positive := [alice]]}) tt
    = (mkOut (<[2%positive := [alice]]> {[1%positive := [alice]]})
         (mkDir 10 (Some 1%positive) 20) res, tt, [EvNow])
    ∧ res = inl (Some alice).
Proof.
  destruct (find_by_client_num 3
              (mkDir 10 (Some 1%positive) 20) {[1%positive := [alice]]}
              unit (fixedSource 5 (inl [alice])) tt
              (mkOut (<[2%positive := [alice]]> {[1%positive := [alice]]})
                 (mkDir 10 (Some 1%positive) 20) (inl (Some 2%positive)))
              tt [EvNow])
    as (res & Hrun & _ & Hres).
  - vm_compute. reflexivity.
  - exists res. split; [exact Hrun|].
    vm_compute in Hrun. by injection Hrun as <-.
Defined.

(** X21: FindByGUID trims its query.  A query of white space only is
    answered with no player and no error without asking the clock or the
    source.  Otherwise a snapshot is taken, its error is returned, and
    the result is the first player whose trimmed GUID equals the trimmed
    query under EqualFold. *)
Theorem find_by_guid
    guid d (h : Heap) W (hd : Handler dirEv dirAns W) w out w' tr :
  let q := TrimSpace guid in
  let matches p := EqualFold (TrimSpace (GUID p)) q = true in
  run hd (Snapshot d h) w = (out, w', tr) →
  FindByGUID EqualFold q d h = FindByGUID EqualFold guid d h
  ∧ (q = [] →
     run hd (FindByGUID EqualFold guid d h) w = (mkOut h d (inl None), w, []))
  ∧ (q ≠ [] →
     ∃ res,
       run hd (FindByGUID EqualFold guid d h) w
       = (mkOut (oHeap out) (oDir out) res, w', tr)
       ∧ match oVal out, res with
         | inr err, inr err' => err' = err
         | inl s, inl (Some p) =>
             ∃ i, contents (oHeap out) s !! i = Some p ∧ matches p
                  ∧ ∀ j p', (j < i)%nat →
                            contents (oHeap out) s !! j = Some p' →
                            ¬ matches p'
         | inl s, inl None =>
             ∀ p, p ∈ contents (oHeap out) s → ¬ matches p
         | _, _ => False
         end).
Proof.
  intros q matches Hrun. unfold FindByGUID. fold q. split_and!.
  - unfold q. by rewrite TrimSpace_idempotent.
  - intros ->. done.
  - intros Hq. rewrite bool_decide_eq_false_2 by done.
    rewrite run_pbind, Hrun.
    destruct out as [h1 d1 [s|err]]; cbn [run oVal oHeap oDir];
      rewrite app_nil_r.
    2: { eexists. split; [reflexivity|done]. }
    eexists. split; [reflexivity|].
    destruct (firstPlayer _ _) as [p|] eqn:Hf.
    + apply firstPlayer_Some in Hf as (i & Hi & Hp & Hbefore).
      exists i. split_and!; [done..|].
      intros j p' Hj Hp' Hm. specialize (Hbefore j p' Hj Hp').
      unfold matches in *. simpl in Hp, Hbefore. congruence.
    + intros p Hp Hm. rewrite firstPlayer_None in Hf.
      specialize (Hf p Hp). unfold matches in *. simpl in Hf. congruence.
Qed.

End MoreFinders.

Lemma find_by_guid_witness :
  ∃ res,
    run (fixedSource 5 (inl [alice]))
      (FindByGUID (λ a b, bool_decide (asciiLower a = asciiLower b))
         (go " 0110 ") (mkDir 10 (Some 1%positive) 20)
         {[1%positive := [alice]]}) tt
    = (mkOut (<[2%positive := [alice]]> {[1%positive := [alice]]})
         (mkDir 10 (Some 1%positive) 20) res, tt, [EvNow])
    ∧ res = inl (Some alice).
Proof.
  destruct (find_by_guid (λ a b, bool_decide (asciiLower a = asciiLower b))
              (go " 0110 ")
              (mkDir 10 (Some 1%positive) 20) {[1%positive := [alice]]}
              unit (fixedSource 5 (inl [alice])) tt
              (mkOut (<[2%positive := [alice]]> {[1%positive := [alice]]})
                 (mkDir 10 (Some 1%positive) 20) (inl (Some 2%positive)))
              tt [EvNow])
    as (_ & _ & Hfound).
  - vm_compute. reflexivity.
  - destruct Hfound as (res & Hrun & _).
    + vm_compute. discriminate.
    + exists res. split; [exact Hrun|].
      vm_compute in Hrun. by injection Hrun as <-.
Defined.

(** ** The loops of the tailer *)

Lemma Forall_fromLoop_cons e tr :
  fromLoop e → Forall fromLoop tr → Forall fromLoop (e :: tr).
Proof. by constructor. Qed.

(** One iteration: what it performs and how it can end. *)
Lemma tailStep_cases W (h : Handler tailEv tailAns W) c w :
  let '(n, w', tr) := run h (tailStep c) w in
  Forall fromLoop tr
  ∧ match n with
    | Continue _ => True
    | Return CtxErr => ∃ e, last tr = Some e ∧ isSelect e = true
    | Return (TailIO e) => e ≠ EOF ∧ ∃ b, last tr = Some (EvReadString b)
    | Crash => False
    end.
Proof.
  destruct c as [st|st]; cbn [tailStep run].
  - destruct (h EvCtxDone w) as [[|] w1]; cbn [run].
    { split; [by repeat constructor|]. by eexists. }
    destruct (h (EvReadString (tBuf st)) w1) as [[line [[|code]|]] w2];
      cbn [run].
    + destruct (h EvStat w2) as [[stat|e] w3]; cbn [run].
      * destruct (h (EvFStat (tFile st)) w3) as [cur w4].
        destruct (negb (SameFile stat cur)); cbn [rotate currentOffset run].
        -- destruct (h (EvClose (tFile st)) w4) as [[] w5]. cbn [run].
           split; [by repeat constructor|done].
        -- destruct (h (EvSeek (tFile st) SeekCurrent) w4) as [[off|e] w5].
           ++ destruct (Size stat <? off); cbn [rotate pollWait run].
              ** destruct (h (EvClose (tFile st)) w5) as [[] w6]. cbn [run].
                 split; [by repeat constructor|done].
              ** destruct (h (EvSelectAfter pollInterval) w5) as [[|] w6];
                   cbn [run]; (split; [by repeat constructor|]);
                   [by eexists|done].
           ++ destruct (Size stat <? 0); cbn [rotate pollWait run].
              ** destruct (h (EvClose (tFile st)) w5) as [[] w6]. cbn [run].
                 split; [by repeat constructor|done].
              ** destruct (h (EvSelectAfter pollInterval) w5) as [[|] w6];
                   cbn [run]; (split; [by repeat constructor|]);
                   [by eexists|done].
      * unfold pollWait. cbn [run].
        destruct (h (EvSelectAfter pollInterval) w3) as [[|] w4];
          cbn [run]; (split; [by repeat constructor|]); [by eexists|done].
    + split; [by repeat constructor|]. split; [done|by eexists].
    + case_bool_decide as Hline; cbn [run].
      { split; [by repeat constructor|done]. }
      destruct (ParseEventLine _) as [ev|err|] eqn:Hparse; cbn [run].
      * destruct (h (EvSelectSend ev) w2) as [[|] w3]; cbn [run].
        -- split; [|by eexists]. repeat constructor. by exists line.
        -- split; [|done]. repeat constructor. by exists line.
      * destruct (h (EvLog err) w2) as [[] w3]. cbn [run].
        split; [|done]. repeat constructor. by exists line.
      * by apply ParseEventLine_no_panic in Hparse.
  - destruct (h EvCtxDone w) as [[|] w1]; cbn [run].
    { split; [by repeat constructor|]. by eexists. }
    destruct (h EvOpen w1) as [[nf|e] w2]; cbn [run].
    + split; [by repeat constructor|done].
    + destruct (h (EvSleep reopenRetry) w2) as [[] w3]. cbn [run].
      split; [by repeat constructor|done].
Qed.

(** X22: however long the loops of the tailer run and whatever the
    environment answers, they do not panic, and they end in two ways
    only: with the context's error, right after one of the three
    selects, or with a read error other than end of file, right after
    the read.  No failure of stat, seek, open or of the parser ends
    them. *)
Theorem tail_loop_ends W (h : Handler tailEv tailAns W) fuel c w n w' tr :
  run h (tailLoop fuel c) w = (Some n, w', tr) →
  (n = Return CtxErr ∧ ∃ e, last tr = Some e ∧ isSelect e = true)
  ∨ ∃ code b, n = Return (TailIO (IOFailure code))
              ∧ last tr = Some (EvReadString b).
Proof.
  revert c w tr. induction fuel as [|fuel IH]; intros c w tr; [done|].
  cbn [tailLoop]. rewrite run_pbind.
  pose proof (tailStep_cases W h c w) as Hstep.
  destruct (run h (tailStep c) w) as [[n1 w1] tr1].
  destruct Hstep as [_ Hend].
  destruct n1 as [c1|e|].
  - destruct (run h (tailLoop fuel c1) w1) as [[r w2] tr2] eqn:Hrest.
    intros [= -> -> <-].
    destruct (IH _ _ _ Hrest) as [(-> & e & He & Hsel)|(code & b & -> & Hb)].
    + left. split; [done|]. exists e. split; [|done].
      apply last_app_Some. by left.
    + right. exists code, b. split; [done|].
      apply last_app_Some. by left.
  - cbn [run]. intros [= <- <- <-]. rewrite app_nil_r.
    destruct e as [|[|code]].
    + by left.
    + by destruct Hend.
    + right. destruct Hend as [_ [b Hb]]. by exists code, b.
  - done.
Qed.

Lemma tail_loop_ends_witness :
  let h := scriptHandler (inl 3%nat) (inl 0) (go "say a b", None)
             (inr (IOFailure 2)) None in
  (Return CtxErr = Return CtxErr
   ∧ ∃ e, last [EvCtxDone; EvReadString (NewReader 3%nat);
                EvSelectSend
                  (EPlayer (mkPlayer (mkBase None (go "say") (go "say a b"))
                              [] 0 (go "a") (go "b")))] = Some e
          ∧ isSelect e = true)
  ∨ ∃ code b, Return CtxErr = Return (TailIO (IOFailure code))
              ∧ last [EvCtxDone; EvReadString (NewReader 3%nat);
                      EvSelectSend
                        (EPlayer
                           (mkPlayer (mkBase None (go "say") (go "say a b"))
                              [] 0 (go "a") (go "b")))]
                = Some (EvReadString b).
Proof.
  intros h.
  apply (tail_loop_ends nat h 2 (Reading (mkTail 3%nat (NewReader 3%nat)))
           1%nat _ 0%nat).
  vm_compute. reflexivity.
Defined.


(** ** Blank lines, end of file and rotation *)

Lemma dropCut_split cutset l :
  ∃ a, l = a ++ dropCut cutset l ∧ Forall (λ c, c ∈ cutset) a.
Proof.
  induction l as [|c l (a & Hl & Ha)]; [by exists []|]. simpl.
  case_bool_decide as Hc; [|by exists []].
  exists (c :: a). split; [simpl; f_equal; exact Hl|by constructor].
Qed.

Lemma dropCut_nil cutset l :
  dropCut cutset l = [] ↔ Forall (λ c, c ∈ cutset) l.
Proof.
  induction l as [|c l IH]; simpl; [done|].
  case_bool_decide as Hc.
  - rewrite IH. split; [by constructor|]. by inversion 1.
  - split; [done|]. by inversion 1.
Qed.

(** TrimRight leaves nothing exactly when every byte is in the cutset. *)
Lemma TrimRight_nil s cutset :
  TrimRight s cutset = [] ↔ Forall (λ c, c ∈ cutset) s.
Proof.
  unfold TrimRight. rewrite <- (Forall_reverse _ s), <- dropCut_nil.
  split; [|by intros ->].
  intros H. apply (f_equal reverse) in H. by rewrite reverse_involutive in H.
Qed.

Lemma TrimRight_split s cutset :
  ∃ t, s = TrimRight s cutset ++ t ∧ Forall (λ c, c ∈ cutset) t.
Proof.
  unfold TrimRight. destruct (dropCut_split cutset (reverse s)) as (a & Hl & Ha).
  exists (reverse a). split; [|by apply Forall_reverse].
  rewrite <- reverse_app, <- Hl. by rewrite reverse_involutive.
Qed.

Lemma dropSp_all l : Forall (λ x, isSp x = true) l → dropSp l = [].
Proof. induction 1 as [|[w|c] l Hx Hl IH]; done. Qed.

(** A string is trimmed to nothing exactly when it decodes to white
    space only. *)
Lemma TrimSpace_nil s :
  TrimSpace s = [] ↔ Forall (λ x, isSp x = true) (segments s).
Proof.
  split.
  - intros H. apply (f_equal segments) in H.
    rewrite segments_TrimSpace in H. simpl in H.
    apply (f_equal reverse) in H. rewrite reverse_involutive in H.
    change (reverse []) with (@nil seg) in H.
    destruct (dropSp_suffix (segments s)) as (l0 & Hs & H0).
    destruct (dropSp_suffix (reverse (dropSp (segments s)))) as (l1 & Hr & H1).
    rewrite H, app_nil_r in Hr.
    rewrite Hs. apply Forall_app. split; [done|].
    apply Forall_reverse. by rewrite Hr.
  - intros H. unfold TrimSpace, TrimLeftSpace. by rewrite (dropSp_all _ H).
Qed.

Lemma TrimSpace_TrimRight_lineEnd s :
  TrimSpace s = [] → TrimSpace (TrimRight s lineEnd) = [].
Proof.
  rewrite !TrimSpace_nil. intros H.
  destruct (TrimRight_split s lineEnd) as (t & Hs & Ht).
  rewrite Hs in H. rewrite segments_app in H.
  - by apply Forall_app in H as [H _].
  - destruct t as [|c t]; [done|]. inversion Ht as [|?? Hc _]; subst.
    apply elem_of_cons in Hc as [->|Hc]; [done|].
    apply elem_of_cons in Hc as [->|Hc]; [done|].
    by apply elem_of_nil in Hc.
Qed.

(** X24: a line that holds nothing but carriage returns and line feeds
    is skipped without a word; a line of other white space is handed to
    the parser and its empty-line error is logged.  Neither is sent. *)
Theorem blank_line_step W (h : Handler tailEv tailAns W) st read w w1 w2 :
  h EvCtxDone w = (false, w1) →
  h (EvReadString (tBuf st)) w1 = ((read, None), w2) →
  (Forall (λ c, c ∈ lineEnd) read →
   run h (tailStep (Reading st)) w
   = (Continue (Reading st), w2, [EvCtxDone; EvReadString (tBuf st)]))
  ∧ (¬ Forall (λ c, c ∈ lineEnd) read → TrimSpace read = [] →
     ∀ w3, h (EvLog ErrEmptyLine) w2 = (tt, w3) →
       run h (tailStep (Reading st)) w
       = (Continue (Reading st), w3,
          [EvCtxDone; EvReadString (tBuf st); EvLog ErrEmptyLine])).
Proof.
  intros Hctx Hread. split.
  - intros Hall. apply TrimRight_nil in Hall.
    cbn [tailStep run]. rewrite Hctx. cbn [run]. rewrite Hread.
    fold lineEnd. rewrite Hall. done.
  - intros Hnot Hsp w3 Hlog.
    assert (TrimRight read lineEnd ≠ []) as Hne.
    { intros H. by apply TrimRight_nil in H. }
    cbn [tailStep run]. rewrite Hctx. cbn [run]. rewrite Hread.
    fold lineEnd. rewrite bool_decide_eq_false_2 by done.
    unfold ParseEventLine.
    rewrite (TrimSpace_TrimRight_lineEnd _ Hsp).
    rewrite bool_decide_eq_true_2 by done. cbn [run]. by rewrite Hlog.
Qed.

Lemma blank_line_step_witness :
  let h := scriptHandler (inl 3%nat) (inl 0) ([ascii_of_N 13; newline], None)
             (inr (IOFailure 2)) None in
  run h (tailStep (Reading (mkTail 3%nat (NewReader 3%nat)))) 1%nat
  = (Continue (Reading (mkTail 3%nat (NewReader 3%nat))), 0%nat,
     [EvCtxDone; EvReadString (NewReader 3%nat)]).
Proof.
  intros h.
  apply (blank_line_step nat h (mkTail 3%nat (NewReader 3%nat))
           [ascii_of_N 13; newline] 1%nat 0%nat 0%nat eq_refl eq_refl).
  apply (bool_decide_unpack _). vm_compute. exact I.
Defined.

(** X25: what a read returns together with end of file is dropped: the
    iteration sends nothing and logs nothing, whatever the environment
    answers.  It ends in one of two ways: the file is closed and the
    reopen loop comes next, or the file stays open and the iteration
    waits for the poll interval. *)
Theorem eof_step W (h : Handler tailEv tailAns W) st data w w1 w2 :
  h EvCtxDone w = (false, w1) →
  h (EvReadString (tBuf st)) w1 = ((data, Some EOF), w2) →
  let '(n, _, tr) := run h (tailStep (Reading st)) w in
  Forall (λ e, isOutput e = false) tr
  ∧ ((n = Continue (Reopening st) ∧ last tr = Some (EvClose (tFile st)))
     ∨ ((n = Continue (Reading st) ∨ n = Return CtxErr)
        ∧ last tr = Some (EvSelectAfter pollInterval)
        ∧ EvClose (tFile st) ∉ tr)).
Proof.
  intros Hctx Hread. cbn [tailStep run]. rewrite Hctx. cbn [run].
  rewrite Hread. cbn [run].
  assert (∀ wx pre,
            Forall (λ e, isOutput e = false) pre → EvClose (tFile st) ∉ pre →
            let '(n, _, tr) := run h (pollWait (Reading st)) wx in
            Forall (λ e, isOutput e = false) (pre ++ tr)
            ∧ ((n = Continue (Reopening st)
                ∧ last (pre ++ tr) = Some (EvClose (tFile st)))
               ∨ ((n = Continue (Reading st) ∨ n = Return CtxErr)
                  ∧ last (pre ++ tr) = Some (EvSelectAfter pollInterval)
                  ∧ EvClose (tFile st) ∉ pre ++ tr))) as Hpoll.
  { intros wx pre Hpre Hcl. unfold pollWait. cbn [run].
    destruct (h (EvSelectAfter pollInterval) wx) as [[|] wy]; cbn [run].
    all: split; [apply Forall_app; split; [done|by repeat constructor]|].
    all: right; split_and!; [by auto|by rewrite last_snoc|].
    all: intros [?|Hin]%elem_of_app; [done|].
    all: by apply list_elem_of_singleton in Hin. }
  assert (∀ wx pre,
            Forall (λ e, isOutput e = false) pre →
            let '(n, _, tr) := run h (rotate st) wx in
            Forall (λ e, isOutput e = false) (pre ++ tr)
            ∧ ((n = Continue (Reopening st)
                ∧ last (pre ++ tr) = Some (EvClose (tFile st)))
               ∨ ((n = Continue (Reading st) ∨ n = Return CtxErr)
                  ∧ last (pre ++ tr) = Some (EvSelectAfter pollInterval)
                  ∧ EvClose (tFile st) ∉ pre ++ tr))) as Hrot.
  { intros wx pre Hpre. unfold rotate. cbn [run].
    destruct (h (EvClose (tFile st)) wx) as [[] wy]; cbn [run].
    split; [apply Forall_app; split; [done|by repeat constructor]|].
    left. by rewrite last_snoc. }
  assert (∀ e : tailEv, isOutput e = false → (∀ f, e ≠ EvClose f) →
          ∀ pre, Forall (λ e, isOutput e = false) pre →
                 EvClose (tFile st) ∉ pre →
                 Forall (λ e, isOutput e = false) (pre ++ [e])
                 ∧ EvClose (tFile st) ∉ pre ++ [e]) as Hsnoc.
  { intros e He Hne pre Hpre Hcl. split.
    - apply Forall_app. split; [done|by repeat constructor].
    - intros [?|Hin]%elem_of_app; [done|].
      apply list_elem_of_singleton in Hin. by destruct (Hne (tFile st)). }
  destruct (Hsnoc EvCtxDone eq_refl ltac:(done) [] ltac:(constructor)
              ltac:(by intros ?%elem_of_nil)) as [H1 C1]. simpl in H1, C1.
  destruct (Hsnoc (EvReadString (tBuf st)) eq_refl ltac:(done) _ H1 C1)
    as [H2 C2]. simpl in H2, C2.
  destruct (Hsnoc EvStat eq_refl ltac:(done) _ H2 C2) as [H3 C3].
  simpl in H3, C3.
  destruct (h EvStat w2) as [[stat|e] w3]; cbn [run].
  2: { specialize (Hpoll w3 _ H3 C3).
       by destruct (run h (pollWait (Reading st)) w3) as [[n wz] tr]. }
  destruct (h (EvFStat (tFile st)) w3) as [cur w4].
  assert (Forall (λ e, isOutput e = false)
            [EvCtxDone; EvReadString (tBuf st); EvStat; EvFStat (tFile st)]
          ∧ EvClose (tFile st)
            ∉ [EvCtxDone; EvReadString (tBuf st); EvStat; EvFStat (tFile st)])
    as [H4 C4].
  { by apply (Hsnoc (EvFStat (tFile st)) eq_refl ltac:(done) _ H3 C3). }
  destruct (negb (SameFile stat cur)).
  { specialize (Hrot w4 _ H4).
    by destruct (run h (rotate st) w4) as [[n wz] tr]. }
  unfold currentOffset. cbn [run].
  destruct (Hsnoc (EvSeek (tFile st) SeekCurrent) eq_refl ltac:(done) _ H4 C4)
    as [H5 C5]. simpl in H5, C5.
  destruct (h (EvSeek (tFile st) SeekCurrent) w4) as [[off|e] w5].
  - destruct (Size stat <? off).
    + specialize (Hrot w5 _ H5).
      by destruct (run h (rotate st) w5) as [[n wz] tr].
    + specialize (Hpoll w5 _ H5 C5).
      by destruct (run h (pollWait (Reading st)) w5) as [[n wz] tr].
  - destruct (Size stat <? 0).
    + specialize (Hrot w5 _ H5).
      by destruct (run h (rotate st) w5) as [[n wz] tr].
    + specialize (Hpoll w5 _ H5 C5).
      by destruct (run h (pollWait (Reading st)) w5) as [[n wz] tr].
Qed.

Lemma eof_step_witness :
  let h := scriptHandler (inl 3%nat) (inl 0) (go "half a li", Some EOF)
             (inl (mkInfo 7 100)) (Some (mkInfo 8 100)) in
  let '(n, _, tr) :=
    run h (tailStep (Reading (mkTail 3%nat (NewReader 3%nat)))) 1%nat in
  Forall (λ e, isOutput e = false) tr
  ∧ ((n = Continue (Reopening (mkTail 3%nat (NewReader 3%nat)))
      ∧ last tr = Some (EvClose 3%nat))
     ∨ ((n = Continue (Reading (mkTail 3%nat (NewReader 3%nat)))
         ∨ n = Return CtxErr)
        ∧ last tr = Some (EvSelectAfter pollInterval)
        ∧ EvClose 3%nat ∉ tr)).
Proof.
  intros h.
  exact (eof_step nat h (mkTail 3%nat (NewReader 3%nat)) (go "half a li")
           1%nat 0%nat 0%nat eq_refl eq_refl).
Defined.

(** X26: at end of file, with the stat of the path at hand, the
    iteration goes to the reopen loop exactly when the path names another
    file than the handle, or the file at the path is shorter than the
    offset of the handle.  A handle whose own stat fails counts as
    another file; an offset that cannot be read counts as zero, and it
    is only asked for when the files are the same. *)
Theorem rotation_decision
    W (h : Handler tailEv tailAns W) st data w w1 w2 w3 w4 stat cur :
  h EvCtxDone w = (false, w1) →
  h (EvReadString (tBuf st)) w1 = ((data, Some EOF), w2) →
  h EvStat w2 = (inl stat, w3) →
  h (EvFStat (tFile st)) w3 = (cur, w4) →
  let out := run h (tailStep (Reading st)) w in
  let off := match (h (EvSeek (tFile st) SeekCurrent) w4).1 with
             | inl o => o
             | inr _ => 0
             end in
  (out.1.1 = Continue (Reopening st)
   ↔ SameFile stat cur = false ∨ Size stat < off)
  ∧ (SameFile stat cur = false → EvSeek (tFile st) SeekCurrent ∉ out.2)
  ∧ (cur = None → out.1.1 = Continue (Reopening st)).
Proof.
  intros Hctx Hread Hstat Hcur.
  assert (∀ out : Next * W * list tailEv,
            (SameFile stat cur = false →
             out.1.1 = Continue (Reopening st)
             ∧ EvSeek (tFile st) SeekCurrent ∉ out.2) →
            (SameFile stat cur = true →
             out.1.1 = Continue (Reopening st)
             ↔ Size stat
               < match (h (EvSeek (tFile st) SeekCurrent) w4).1 with
                 | inl o => o
                 | inr _ => 0
                 end) →
            (out.1.1 = Continue (Reopening st)
             ↔ SameFile stat cur = false
               ∨ Size stat
                 < match (h (EvSeek (tFile st) SeekCurrent) w4).1 with
                   | inl o => o
                   | inr _ => 0
                   end)
            ∧ (SameFile stat cur = false →
               EvSeek (tFile st) SeekCurrent ∉ out.2)
            ∧ (cur = None → out.1.1 = Continue (Reopening st))) as Hsum.
  { intros out Hdiff Hsame. split_and!.
    - destruct (SameFile stat cur) eqn:E.
      + rewrite (Hsame eq_refl). split; [by right|]. by intros [?|?].
      + split; [by left|]. intros _. by apply Hdiff.
    - intros E. by apply Hdiff.
    - intros ->. by apply Hdiff. }
  cbv zeta. apply Hsum; clear Hsum.
  - intros E. cbn [tailStep run]. rewrite Hctx. cbn [run]. rewrite Hread.
    cbn [run]. rewrite Hstat. cbn [run]. rewrite Hcur, E.
    cbn [negb rotate run].
    destruct (h (EvClose (tFile st)) w4) as [[] w5]. cbn [run fst snd].
    split; [done|].
    intros Hin. repeat (apply elem_of_cons in Hin as [?|Hin]; [done|]).
    by apply elem_of_nil in Hin.
  - intros E. cbn [tailStep run]. rewrite Hctx. cbn [run]. rewrite Hread.
    cbn [run]. rewrite Hstat. cbn [run]. rewrite Hcur, E.
    cbn [negb currentOffset run].
    destruct (h (EvSeek (tFile st) SeekCurrent) w4) as [[off|e] w5];
      cbn [fst].
    + destruct (Size stat <? off) eqn:Hlt; cbn [rotate pollWait run].
      * destruct (h (EvClose (tFile st)) w5) as [[] w6]. cbn [run fst].
        apply Z.ltb_lt in Hlt. done.
      * apply Z.ltb_ge in Hlt.
        destruct (h (EvSelectAfter pollInterval) w5) as [[|] w6];
          cbn [run fst]; (split; [done|lia]).
    + destruct (Size stat <? 0) eqn:Hlt; cbn [rotate pollWait run].
      * destruct (h (EvClose (tFile st)) w5) as [[] w6]. cbn [run fst].
        apply Z.ltb_lt in Hlt. done.
      * apply Z.ltb_ge in Hlt.
        destruct (h (EvSelectAfter pollInterval) w5) as [[|] w6];
          cbn [run fst]; (split; [done|lia]).
Qed.

Lemma rotation_decision_witness :
  let h := scriptHandler (inl 3%nat) (inr (IOFailure 9)) ([], Some EOF)
             (inl (mkInfo 7 0)) (Some (mkInfo 7 500)) in
  let st := mkTail 3%nat (NewReader 3%nat) in
  (run h (tailStep (Reading st)) 1%nat).1.1 ≠ Continue (Reopening st).
Proof.
  intros h st.
  destruct (rotation_decision nat h st [] 1%nat 0%nat 0%nat 0%nat 0%nat
              (mkInfo 7 0) (Some (mkInfo 7 500))
              eq_refl eq_refl eq_refl eq_refl) as (Hiff & _ & _).
  intros H. apply Hiff in H. destruct H as [H|H].
  - vm_compute in H. discriminate H.
  - vm_compute in H. discriminate H.
Defined.

(** The loops return an error or are still running. *)
Lemma tailLoop_returns W (h : Handler tailEv tailAns W) fuel c w n w' tr :
  run h (tailLoop fuel c) w = (Some n, w', tr) → ∃ e, n = Return e.
Proof.
  revert c w tr. induction fuel as [|fuel IH]; intros c w tr; [done|].
  cbn [tailLoop]. rewrite run_pbind.
  pose proof (tailStep_cases W h c w) as Hstep.
  destruct (run h (tailStep c) w) as [[n1 w1] tr1].
  destruct Hstep as [_ Hend].
  destruct n1 as [c1|e|]; [|cbn [run]; intros [= <- _ _]; by eexists|done].
  destruct (run h (tailLoop fuel c1) w1) as [[r w2] tr2] eqn:Hrest.
  intros [= -> -> <-]. by eapply IH.
Qed.

(** X27: TailFileContext opens the path first.  When that fails it
    returns the error and does nothing else.  Otherwise it seeks to the
    end or to the start, as startAtEnd says, and whenever it returns,
    with an error and never by a panic, the last thing it does is close
    the file it opened first: also after rotations, when it reads
    another file by then. *)
Theorem tail_file_context_ends
    W (h : Handler tailEv tailAns W) fuel startAtEnd w :
  let '(r, _, tr) := run h (TailFileContext fuel startAtEnd) w in
  head tr = Some EvOpen
  ∧ match r with
    | None => True
    | Some n =>
        (∃ e, n = Return e)
        ∧ match (h EvOpen w).1 with
          | inr e => n = Return (TailIO e) ∧ tr = [EvOpen]
          | inl f =>
              tr !! 1%nat
              = Some (EvSeek f (if startAtEnd then SeekEnd else SeekStart))
              ∧ last tr = Some (EvClose f)
          end
    end.
Proof.
  unfold TailFileContext. cbn [run].
  destruct (h EvOpen w) as [[f|e] w1]; cbn [run fst].
  2: { split; [done|]. split; [by eexists|done]. }
  destruct (h (EvSeek f (if startAtEnd then SeekEnd else SeekStart)) w1)
    as [[off|e] w2]; cbn [run].
  - rewrite run_pbind.
    destruct (run h (tailLoop fuel (Reading (mkTail f (NewReader f)))) w2)
      as [[r wl] trl] eqn:Hloop.
    destruct r as [n|]; cbn [run].
    + destruct (h (EvClose f) wl) as [[] wz]. cbn [run].
      split; [done|]. split; [by eapply tailLoop_returns|].
      split; [done|]. rewrite !app_comm_cons. by rewrite last_snoc.
    + done.
  - destruct (h (EvClose f) w2) as [[] w3]. cbn [run].
    split; [done|]. split; [by eexists|done].
Qed.



